(** * reading-ecology: the tokenizer, the saved-word store, the Leitner
      scheduler, the vocabulary review and the quiz session of [index.tsx]

    The development embeds the pure logic of [src/index.tsx] and states the
    properties of the specification over it.

    Conventions of the embedding.
    - A JavaScript string is its sequence of UTF-16 code units, [list N];
      [===] on strings is equality of these sequences.
    - A JavaScript number that the code only uses as an integer (a box, an
      index, a score, a timestamp in milliseconds) is a [Z]; where the code can
      produce [NaN] the value is an [option Z] and [None] is [NaN].  The
      timestamps of [Date.now()] and the intervals added to them stay far
      below 2^53, where the arithmetic of doubles is exact.
    - [Date.now()] and [Math.random()] are inputs: the time is an argument of
      the function that reads it, the random source is a stream.
    - React state is passed explicitly: a handler is a function from the
      previous state to the next one.
    - [String.prototype.toLowerCase] has the case table of the engine.
      [Text.toLowerCase] is that table on Basic Latin, Latin-1 and Cyrillic,
      used where a property does not turn on other letters; the duplicate
      check of the store and the keys are stated in [Keyed] over the built-in
      function itself, an argument of the definitions. *)

From Stdlib Require Import String Ascii List ZArith NArith Bool Lia Permutation.
Import ListNotations.

(* ------------------------------------------------------------------ *)
(** ** Strings and the built-in string operations the source calls      *)
(* ------------------------------------------------------------------ *)

Module Text.

(** A string: its UTF-16 code units. *)
Definition str := list N.

(** The code units of an ASCII literal. *)
Definition lit (s : string) : str :=
  map N_of_ascii (list_ascii_of_string s).

Fixpoint str_eqb (a b : str) : bool :=
  match a, b with
  | [], [] => true
  | x :: a', y :: b' => (x =? y)%N && str_eqb a' b'
  | _, _ => false
  end.

Definition inRange (lo hi c : N) : bool := ((lo <=? c) && (c <=? hi))%N.

(** [\s] of a regular expression, which is also what [String.prototype.trim]
    removes: WhiteSpace and LineTerminator of ECMAScript. *)
Definition isWhiteSpace (c : N) : bool :=
  inRange 0x9 0xD c || (c =? 0x20)%N || (c =? 0xA0)%N || (c =? 0x1680)%N
  || inRange 0x2000 0x200A c || (c =? 0x2028)%N || (c =? 0x2029)%N
  || (c =? 0x202F)%N || (c =? 0x205F)%N || (c =? 0x3000)%N || (c =? 0xFEFF)%N.

(** [\w]: [A-Za-z0-9_]. *)
Definition isWordChar (c : N) : bool :=
  inRange 0x30 0x39 c || inRange 0x41 0x5A c || (c =? 0x5F)%N
  || inRange 0x61 0x7A c.

(** The class [[\wА-Яа-я]] of line 35: [\w], U+0410..U+042F, U+0430..U+044F. *)
Definition isKeyChar (c : N) : bool :=
  isWordChar c || inRange 0x410 0x42F c || inRange 0x430 0x44F c.

(** The case table of [String.prototype.toLowerCase] on the blocks the source
    works with, Basic Latin, Latin-1 and Cyrillic (U+0400..U+045F), together
    with the two code points outside them whose lower case lands in
    [[\wА-Яа-я]]: U+0130 (two code units, [i] and U+0307) and the Kelvin sign
    U+212A ([k]).  On a text of these code units the table is the built-in
    function; a capital letter of another block is left as it is here, and
    lower-cased by the engine.  What depends on the lower case of such a
    letter, the duplicate check of the store and the keys themselves, is
    stated in [Keyed] below over the built-in function as the engine has
    it. *)
Definition lowerUnit (c : N) : str :=
  if inRange 0x41 0x5A c then [c + 0x20]%N
  else if inRange 0xC0 0xDE c && negb (c =? 0xD7)%N then [c + 0x20]%N
  else if (c =? 0x130)%N then [0x69; 0x307]%N
  else if inRange 0x400 0x40F c then [c + 0x50]%N
  else if inRange 0x410 0x42F c then [c + 0x20]%N
  else if (c =? 0x212A)%N then [0x6B]%N
  else [c].

Definition toLowerCase (s : str) : str := flat_map lowerUnit s.

(** A code unit that is in the class [[\wА-Яа-я]] once in lower case: a code
    unit of the class (its capital letters become its small ones), U+0130 or
    the Kelvin sign. *)
Definition isKeyLetter (c : N) : bool := existsb isKeyChar (lowerUnit c).

(** A text without any such code unit: punctuation, dashes, symbols. *)
Definition noKeyLetter (s : str) : bool := forallb (fun c => negb (isKeyLetter c)) s.

Fixpoint dropWhile (p : N -> bool) (s : str) : str :=
  match s with
  | [] => []
  | c :: s' => if p c then dropWhile p s' else s
  end.

(** Removes the longest suffix whose code units all satisfy [p]. *)
Definition dropWhileEnd (p : N -> bool) (s : str) : str :=
  rev (dropWhile p (rev s)).

(** Both ends of a string are clear of [p]. *)
Definition trimmedBy (p : N -> bool) (s : str) : Prop :=
  dropWhile p s = s /\ dropWhile p (rev s) = rev s.

(** [String.prototype.trim]. *)
Definition trim (s : str) : str :=
  dropWhileEnd isWhiteSpace (dropWhile isWhiteSpace s).

(** [s.replace(/['’]s$/, '')]: the expression is anchored at the end of the
    input (no [m] flag), so its only match is the last two code units, an
    apostrophe (U+0027 or U+2019) followed by [s]. *)
Definition isApostrophe (c : N) : bool := (c =? 0x27)%N || (c =? 0x2019)%N.

Definition endsWithPossessive (s : str) : bool :=
  match rev s with
  | c :: q :: _ => (c =? 0x73)%N && isApostrophe q
  | _ => false
  end.

Definition stripPossessive (s : str) : str :=
  match rev s with
  | c :: q :: r => if (c =? 0x73)%N && isApostrophe q then rev r else s
  | _ => s
  end.

(** [s.replace(/^[^\wА-Яа-я]+|[^\wА-Яа-я]+$/g, '')]: with the [g] flag every
    match is removed.  The first alternative matches only at index 0, the
    longest run of code units outside the class; the second matches the run
    outside the class that reaches the end of the input. *)
Definition stripOuter (s : str) : str :=
  dropWhileEnd (fun c => negb (isKeyChar c)) (dropWhile (fun c => negb (isKeyChar c)) s).

(** The cleanup of lines 35 and 229:
    [toLowerCase().replace(/['’]s$/, '').replace(/^[^\wА-Яа-я]+|[^\wА-Яа-я]+$/g, '')]. *)
Definition cleanWord (s : str) : str :=
  stripOuter (stripPossessive (toLowerCase s)).

(** [text.split(/(\s+)/)].  The pieces between the matches alternate with the
    captured whitespace runs; [\s+] is greedy, so a run is taken whole.  A
    match at the very start or the very end leaves an empty piece there, and
    the empty input gives the one piece [""] (the expression does not match
    the empty string).  [acc] holds the current piece, reversed; [inWs] tells
    that the piece is a whitespace run. *)
Fixpoint splitWsFrom (inWs : bool) (acc : str) (s : str) : list str :=
  match s with
  | [] => if inWs then [rev acc; []] else [rev acc]
  | c :: s' =>
      if isWhiteSpace c
      then (if inWs then splitWsFrom true (c :: acc) s'
            else rev acc :: splitWsFrom true [c] s')
      else (if inWs then rev acc :: splitWsFrom false [c] s'
            else splitWsFrom false (c :: acc) s')
  end.

Definition splitWs (s : str) : list str := splitWsFrom false [] s.

(** [Array.prototype.map] with the index as second argument. *)
Fixpoint mapi_from {A B} (i : nat) (f : A -> nat -> B) (l : list A) : list B :=
  match l with
  | [] => []
  | x :: l' => f x i :: mapi_from (S i) f l'
  end.

Definition mapi {A B} (f : A -> nat -> B) (l : list A) : list B := mapi_from 0 f l.

(** A text made of whitespace only, and a text without any whitespace. *)
Definition allWs (s : str) : bool := forallb isWhiteSpace s.

Definition wsFree (s : str) : bool := forallb (fun c => negb (isWhiteSpace c)) s.

(** The first and the last code unit of a text, when it has any, satisfy [p]. *)
Definition endsSatisfy (p : N -> bool) (s : str) : Prop :=
  match s with [] => True | c :: _ => p c = true end /\
  match rev s with [] => True | c :: _ => p c = true end.

(** The pieces alternate: pieces without whitespace at the even indices, runs
    of whitespace at the odd ones, and a piece without whitespace at the end.
    [between] tells that the first piece of the list is of the former kind;
    [first] that it may be empty although another piece follows. *)
Fixpoint alternate (between first : bool) (l : list str) : Prop :=
  match l with
  | [] => False
  | p :: rest =>
      if between
      then wsFree p = true /\
           match rest with
           | [] => True
           | _ :: _ => (first = true \/ p <> []) /\ alternate false false rest
           end
      else allWs p = true /\ p <> [] /\ alternate true false rest
  end.

End Text.

(* ------------------------------------------------------------------ *)
(** ** The tokenizer (lines 30-38)                                      *)
(* ------------------------------------------------------------------ *)

Module Tokenizer.
Import Text.

(** An element of the array [splitParagraphIntoWords] returns; [word] is
    absent on a whitespace segment. *)
Record Segment := {
  text : str;
  word : option str;
  isWord : bool;
  id : nat
}.

Definition splitParagraphIntoWords (text : str) : list Segment :=
  mapi (fun segment i =>
          if str_eqb (trim segment) []
          then {| text := segment; word := None; isWord := false; id := i |}
          else {| text := segment; word := Some (cleanWord segment);
                  isWord := true; id := i |})
       (splitWs text).

End Tokenizer.

(* ------------------------------------------------------------------ *)
(** ** Arrays: index access and the shuffle                             *)
(* ------------------------------------------------------------------ *)

Module Arr.

(** [a[i]] for a number [i] that is an integer: [undefined] ([None]) outside
    the array. *)
Definition at_ {A} (a : list A) (i : Z) : option A :=
  if (i <? 0)%Z then None else nth_error a (Z.to_nat i).

(** The successive values of [0.5 - Math.random()], one per call of the
    comparator; only their sign is used. *)
Definition Rng := nat -> Z.

(** [[...a].sort(() => 0.5 - Math.random())].  The comparator ignores its
    arguments, so the order the engine produces depends on its sorting
    algorithm and on the random draws.  The model is an insertion sort (what
    engines run on short arrays) that draws one value per comparison; [k]
    counts the draws made so far.  A positive value places the new element
    after the one it is compared with. *)
Fixpoint insertRandom {A} (rnd : Rng) (k : nat) (x : A) (l : list A) : list A * nat :=
  match l with
  | [] => ([x], k)
  | y :: l' =>
      if (0 <? rnd k)%Z
      then let (r, k') := insertRandom rnd (S k) x l' in (y :: r, k')
      else (x :: y :: l', S k)
  end.

Fixpoint sortRandomFrom {A} (rnd : Rng) (k : nat) (l : list A) : list A * nat :=
  match l with
  | [] => ([], k)
  | x :: l' => let (s, k') := sortRandomFrom rnd k l' in insertRandom rnd k' x s
  end.

Definition sortRandom {A} (rnd : Rng) (l : list A) : list A :=
  fst (sortRandomFrom rnd 0 l).

End Arr.

(* ------------------------------------------------------------------ *)
(** ** Saved words, the Leitner scheduler and the store (lines 21-27, 54-67, 85) *)
(* ------------------------------------------------------------------ *)

Module Vocabulary.
Import Text Arr.

(** [interface SavedWord] of the type declarations.  [definition] and
    [synonyms] are optional; [nextReview] is [NaN] ([None]) when the interval
    table was read outside its bounds. *)
Record SavedWord := {
  id : str;
  word : str;
  translation : str;
  context : str;
  definition : option str;
  synonyms : option (list str);
  timestamp : Z;
  leitnerBox : Z;
  nextReview : option Z
}.

(** Days for each box. *)
Definition REVIEW_INTERVALS : list Z := [0; 1; 3; 7; 14; 30]%Z.

(** [getNextReviewDate], with the value of [Date.now()] as [now]. *)
Definition getNextReviewDate (now : Z) (box : Z) : option Z :=
  match at_ REVIEW_INTERVALS (Z.min box (Z.of_nat (length REVIEW_INTERVALS) - 1)) with
  | Some days => Some (now + days * 24 * 60 * 60 * 1000)%Z
  | None => None
  end.

(** The state update of [handleSaveWord]. *)
Definition handleSaveWord (newWord : SavedWord) (prev : list SavedWord) : list SavedWord :=
  if existsb (fun w => str_eqb (toLowerCase (word w)) (toLowerCase (word newWord))) prev
  then prev
  else prev ++ [newWord].

(** The function [handleUpdateWordProgress] maps over the store. *)
Definition updateWord (now : Z) (id' : str) (success : bool) (w : SavedWord) : SavedWord :=
  if negb (str_eqb (id w) id') then w
  else
    let newBox :=
      if success
      then Z.min (leitnerBox w + 1) (Z.of_nat (length REVIEW_INTERVALS) - 1)
      else 0%Z in
    {| id := id w; word := word w; translation := translation w;
       context := context w; definition := definition w;
       synonyms := synonyms w; timestamp := timestamp w;
       leitnerBox := newBox; nextReview := getNextReviewDate now newBox |}.

Definition handleUpdateWordProgress (now : Z) (id' : str) (success : bool)
    (prev : list SavedWord) : list SavedWord :=
  map (updateWord now id' success) prev.

(** [onDeleteWord] of line 85. *)
Definition onDeleteWord (id' : str) (prev : list SavedWord) : list SavedWord :=
  filter (fun w => negb (str_eqb (id w) id')) prev.

(** The three ways [App] changes [savedWords]. *)
Inductive StoreOp :=
| Save (newWord : SavedWord)
| UpdateProgress (now : Z) (id' : str) (success : bool)
| Delete (id' : str).

Definition applyOp (op : StoreOp) (prev : list SavedWord) : list SavedWord :=
  match op with
  | Save newWord => handleSaveWord newWord prev
  | UpdateProgress now id' success => handleUpdateWordProgress now id' success prev
  | Delete id' => onDeleteWord id' prev
  end.

(** The store after a sequence of operations, the first of the list first. *)
Definition applyOps (ops : list StoreOp) (prev : list SavedWord) : list SavedWord :=
  fold_left (fun st op => applyOp op st) ops prev.

(** The key the duplicate check of [handleSaveWord] compares. *)
Definition keyOf (w : SavedWord) : str := toLowerCase (word w).

(** Whether [w] has the key [k]. *)
Definition hasKey (k : str) (w : SavedWord) : bool := str_eqb (keyOf w) k.

(** No two words of the store have the same key. *)
Definition uniqueKeys (store : list SavedWord) : Prop := NoDup (map keyOf store).

(** The interval of the specification, in days: the table
    0, 1, 3, 7, 14, 30 indexed by the box, a box at or above the last index
    taking the last entry. *)
Definition intervalDays_spec (box : Z) : Z :=
  if (5 <=? box)%Z then 30%Z
  else nth (Z.to_nat box) [0; 1; 3; 7; 14; 30]%Z 0%Z.

(** *** [VocabularyView] (lines 463-502) *)

(** [w.nextReview <= Date.now()]; a comparison with [NaN] is false. *)
Definition isDue (now : Z) (w : SavedWord) : bool :=
  match nextReview w with
  | Some t => (t <=? now)%Z
  | None => false
  end.

(** [const due = words.filter(...)] of line 468; line 500 shows its length. *)
Definition due (now : Z) (words : list SavedWord) : list SavedWord :=
  filter (isDue now) words.

(** The state of the component. *)
Record ReviewState := {
  isQuizMode : bool;
  quizWords : list SavedWord;
  currentIdx : Z;
  showBack : bool
}.

Definition initialReviewState : ReviewState :=
  {| isQuizMode := false; quizWords := []; currentIdx := 0; showBack := false |}.

(** The START REVIEW button of line 502 (rendered disabled when [words] is
    empty). *)
Definition startReview (rnd : Rng) (words : list SavedWord) (st : ReviewState) : ReviewState :=
  {| isQuizMode := true; quizWords := sortRandom rnd words;
     currentIdx := currentIdx st; showBack := showBack st |}.

(** [const card = quizWords[currentIdx]]: the word the session shows. *)
Definition card (st : ReviewState) : option SavedWord :=
  if isQuizMode st
  then (if (currentIdx st >=? Z.of_nat (length (quizWords st)))%Z then None
        else at_ (quizWords st) (currentIdx st))
  else None.

(** The FORGOT and EASY buttons: the store is updated and the session moves
    to the next card. *)
Definition rate (now : Z) (success : bool) (words : list SavedWord) (st : ReviewState)
    : list SavedWord * ReviewState :=
  match card st with
  | Some c =>
      (handleUpdateWordProgress now (id c) success words,
       {| isQuizMode := isQuizMode st; quizWords := quizWords st;
          currentIdx := currentIdx st + 1; showBack := false |})
  | None => (words, st)
  end.

(** The words a session started from [st] shows, one after the other, when
    every card is rated. *)
Definition surfaced (st : ReviewState) : list SavedWord :=
  if isQuizMode st
  then (if (currentIdx st <? 0)%Z then [] else skipn (Z.to_nat (currentIdx st)) (quizWords st))
  else [].

(** The button that ends a session (line 475). *)
Definition backToDictionary (st : ReviewState) : ReviewState :=
  {| isQuizMode := false; quizWords := quizWords st;
     currentIdx := currentIdx st; showBack := showBack st |}.

(** The ratings of a session, one after the other: each is the value of
    [Date.now()] when the button is pressed and the button, [true] for EASY
    and [false] for FORGOT. *)
Definition rateAll (outcomes : list (Z * bool)) (ws : list SavedWord * ReviewState)
    : list SavedWord * ReviewState :=
  fold_left (fun s o => rate (fst o) (snd o) (fst s) (snd s)) outcomes ws.

(** The same ratings as operations on the store, all for the word [id']. *)
Definition ratings (id' : str) (outcomes : list (Z * bool)) : list StoreOp :=
  map (fun o => UpdateProgress (fst o) id' (snd o)) outcomes.

(** The number of successes at the end of a list of outcomes, since the last
    failure. *)
Fixpoint streak (outcomes : list (Z * bool)) : Z :=
  match outcomes with
  | [] => 0
  | o :: rest =>
      if forallb snd rest then (if snd o then 1 + Z.of_nat (length rest) else Z.of_nat (length rest))
      else streak rest
  end%Z.

(** A word whose box is one of the table and whose review date is a number. *)
Definition wellScheduled (w : SavedWord) : Prop :=
  (0 <= leitnerBox w <= 5)%Z /\ nextReview w <> None.

(** The words an operation brings into the store are well scheduled. *)
Definition savesWellScheduled (op : StoreOp) : Prop :=
  match op with
  | Save newWord => wellScheduled newWord
  | _ => True
  end.

(** What the ratings [outcomes] of the cards [cards], taken in pairs, make of
    a word of the store: each rating updates the words that have the
    identifier of its card. *)
Definition ratedBy (cards : list SavedWord) (outcomes : list (Z * bool)) (w : SavedWord)
    : SavedWord :=
  fold_left (fun w co => updateWord (fst (snd co)) (id (fst co)) (snd (snd co)) w)
            (combine cards outcomes) w.

End Vocabulary.

(* ------------------------------------------------------------------ *)
(** ** [TranslationModal] (lines 225-310) and the tap on a segment (line 149) *)
(* ------------------------------------------------------------------ *)

Module Modal.
Import Text.

(** An entry of [LOCAL_DICTIONARY]; the modal reads its fields [t], [d], [s]. *)
Record DictEntry := {
  t : str;
  d : str;
  s : list str
}.

(** [LOCAL_DICTIONARY] is declared in the constants of the application; the
    functions below take it as an argument: [dict key] is
    [LOCAL_DICTIONARY[key]] for a key that is not the name of a property every
    object inherits (see [Keyed.inherited]), [None] when it is [undefined]. *)
Definition Dictionary := str -> option DictEntry.

(** The object [data] of lines 232-241. *)
Record Data := {
  translation : str;
  definition : str;
  synonyms : list str
}.

(** The text [Перевод для ] that starts the fallback translation,
    up to and including the opening quotation mark. *)
Definition fallbackPrefix : str :=
  [0x41F; 0x435; 0x440; 0x435; 0x432; 0x43E; 0x434; 0x20;
   0x434; 0x43B; 0x44F; 0x20; 0x22]%N.

Definition fallback (word : str) : Data :=
  {| translation := fallbackPrefix ++ word ++ [0x22%N];
     definition := lit "Tap to save and review later.";
     synonyms := [] |}.

Definition data (dict : Dictionary) (word : str) : Data :=
  match dict (cleanWord word) with
  | Some entry => {| translation := t entry; definition := d entry; synonyms := s entry |}
  | None => fallback word
  end.

(** The object the button of lines 295-310 passes to [onSave]: [uuid] is the
    value of [crypto.randomUUID()], [now1] and [now2] those of the two calls of
    [Date.now()]. *)
Definition candidate (dict : Dictionary) (word context uuid : str) (now1 now2 : Z)
    : Vocabulary.SavedWord :=
  {| Vocabulary.id := uuid;
     Vocabulary.word := cleanWord word;
     Vocabulary.translation := translation (data dict word);
     Vocabulary.context := context;
     Vocabulary.definition := Some (definition (data dict word));
     Vocabulary.synonyms := Some (synonyms (data dict word));
     Vocabulary.timestamp := now1;
     Vocabulary.leitnerBox := 0;
     Vocabulary.nextReview := Some now2 |}.

(** Line 149: a tap on a segment opens the modal only for a word segment;
    the result is [selectedWordData], the key and the paragraph. *)
Definition tap (item : Tokenizer.Segment) (paragraph : str) : option (str * str) :=
  if Tokenizer.isWord item
  then match Tokenizer.word item with
       | Some w => Some (w, paragraph)
       | None => None
       end
  else None.

(** A tap on a segment followed by the save button of the modal. *)
Definition tapAndSave (dict : Dictionary) (item : Tokenizer.Segment) (paragraph uuid : str)
    (now1 now2 : Z) (prev : list Vocabulary.SavedWord) : list Vocabulary.SavedWord :=
  match tap item paragraph with
  | Some (w, context) => Vocabulary.handleSaveWord (candidate dict w context uuid now1 now2) prev
  | None => prev
  end.

End Modal.

(* ------------------------------------------------------------------ *)
(** ** The keys and the store over the built-in [toLowerCase]            *)
(* ------------------------------------------------------------------ *)

Module Keyed.
Import Text.

(** The names of the properties a plain object inherits from
    [Object.prototype].  Under such a name [LOCAL_DICTIONARY[key]] is a
    function or an object and not an entry, unless the dictionary has an entry
    of its own under it. *)
Definition objectPrototypeKeys : list str :=
  [lit "constructor"; lit "__proto__"; lit "hasOwnProperty"; lit "isPrototypeOf";
   lit "propertyIsEnumerable"; lit "toLocaleString"; lit "toString"; lit "valueOf";
   lit "__defineGetter__"; lit "__defineSetter__"; lit "__lookupGetter__";
   lit "__lookupSetter__"].

Definition inherited (key : str) : bool := existsb (str_eqb key) objectPrototypeKeys.

Section ToLowerCase.

(** [String.prototype.toLowerCase] as the engine has it, a function on
    strings.  The functions of lines 30-38, 54-59 and 225-310 are written here
    over it, so that what is proved of them holds whatever its case table. *)
Variable toLowerCase : str -> str.

(** The cleanup of lines 35 and 229. *)
Definition cleanWord (s : str) : str :=
  stripOuter (stripPossessive (toLowerCase s)).

(** Lines 30-38. *)
Definition splitParagraphIntoWords (text : str) : list Tokenizer.Segment :=
  mapi (fun segment i =>
          if str_eqb (trim segment) []
          then {| Tokenizer.text := segment; Tokenizer.word := None;
                  Tokenizer.isWord := false; Tokenizer.id := i |}
          else {| Tokenizer.text := segment; Tokenizer.word := Some (cleanWord segment);
                  Tokenizer.isWord := true; Tokenizer.id := i |})
       (splitWs text).

(** The state update of [handleSaveWord] (lines 54-59). *)
Definition handleSaveWord (newWord : Vocabulary.SavedWord) (prev : list Vocabulary.SavedWord)
    : list Vocabulary.SavedWord :=
  if existsb (fun w => str_eqb (toLowerCase (Vocabulary.word w))
                               (toLowerCase (Vocabulary.word newWord))) prev
  then prev
  else prev ++ [newWord].

(** The three ways [App] changes [savedWords]. *)
Definition applyOp (op : Vocabulary.StoreOp) (prev : list Vocabulary.SavedWord)
    : list Vocabulary.SavedWord :=
  match op with
  | Vocabulary.Save newWord => handleSaveWord newWord prev
  | Vocabulary.UpdateProgress now id' success =>
      Vocabulary.handleUpdateWordProgress now id' success prev
  | Vocabulary.Delete id' => Vocabulary.onDeleteWord id' prev
  end.

Definition applyOps (ops : list Vocabulary.StoreOp) (prev : list Vocabulary.SavedWord)
    : list Vocabulary.SavedWord :=
  fold_left (fun st op => applyOp op st) ops prev.

(** The key the duplicate check compares. *)
Definition keyOf (w : Vocabulary.SavedWord) : str := toLowerCase (Vocabulary.word w).

Definition hasKey (k : str) (w : Vocabulary.SavedWord) : bool := str_eqb (keyOf w) k.

Definition uniqueKeys (store : list Vocabulary.SavedWord) : Prop := NoDup (map keyOf store).

(** The object [data] of lines 232-241.  [dict key] is the entry the
    dictionary has of its own under [key].  Under the name of an inherited
    property without such an entry, [LOCAL_DICTIONARY[key]] is a function or
    an object, which is truthy and has no [t], [d] or [s]: the three fields of
    [data] are [undefined] ([None]). *)
Definition data (dict : Modal.Dictionary) (word : str) : option Modal.Data :=
  match dict (cleanWord word) with
  | Some entry =>
      Some {| Modal.translation := Modal.t entry; Modal.definition := Modal.d entry;
              Modal.synonyms := Modal.s entry |}
  | None => if inherited (cleanWord word) then None else Some (Modal.fallback word)
  end.

(** The object the button of lines 295-310 passes to [onSave]; [None] when
    its [translation] is [undefined], which a [SavedWord] does not hold. *)
Definition candidate (dict : Modal.Dictionary) (word context uuid : str) (now1 now2 : Z)
    : option Vocabulary.SavedWord :=
  match data dict word with
  | Some data' =>
      Some {| Vocabulary.id := uuid;
              Vocabulary.word := cleanWord word;
              Vocabulary.translation := Modal.translation data';
              Vocabulary.context := context;
              Vocabulary.definition := Some (Modal.definition data');
              Vocabulary.synonyms := Some (Modal.synonyms data');
              Vocabulary.timestamp := now1;
              Vocabulary.leitnerBox := 0;
              Vocabulary.nextReview := Some now2 |}
  | None => None
  end.

(** A tap on a segment (line 149) followed by the save button of the modal:
    the store after it, when the object saved is a [SavedWord]. *)
Definition tapAndSave (dict : Modal.Dictionary) (item : Tokenizer.Segment)
    (paragraph uuid : str) (now1 now2 : Z) (prev : list Vocabulary.SavedWord)
    : option (list Vocabulary.SavedWord) :=
  match Modal.tap item paragraph with
  | Some (w, context) =>
      match candidate dict w context uuid now1 now2 with
      | Some c => Some (handleSaveWord c prev)
      | None => None
      end
  | None => Some prev
  end.

End ToLowerCase.

(** What the proofs below use of the built-in function, where they use
    anything of it.  Lower-casing twice is lower-casing once.  A part of a
    text that is its own lower case is its own lower case: the function maps
    each code point by itself, but for the capital sigma U+03A3, whose lower
    case depends on its neighbours and which no text that is its own lower
    case contains; a surrogate cut from its pair is left as it is.  The lower
    case of a text without whitespace has no whitespace.  The table
    [Text.toLowerCase] satisfies the three (see [toLowerCase_lowerCaseLaws]). *)
Definition lowerCaseLaws (toLowerCase : str -> str) : Prop :=
  (forall s, toLowerCase (toLowerCase s) = toLowerCase s) /\
  (forall a b c, toLowerCase (a ++ b ++ c) = a ++ b ++ c -> toLowerCase b = b) /\
  (forall s, wsFree s = true -> wsFree (toLowerCase s) = true).

End Keyed.

(* ------------------------------------------------------------------ *)
(** ** The reading content (type declarations)                          *)
(* ------------------------------------------------------------------ *)

Module QuizItem.
Import Text.

Record t := {
  word : str;
  question : str;
  options : list str;
  correctAnswerIndex : Z;
  explanation : str;
  synonyms : option (list str)
}.

End QuizItem.

Module Passage.
Import Text.

(** [interface Passage], without the answer-sheet questions, which the quiz
    does not read; [offlineQuiz] is optional. *)
Record t := {
  id : Z;
  title : str;
  content : list str;
  questionInstruction : str;
  offlineQuiz : option (list QuizItem.t)
}.

End Passage.

(* ------------------------------------------------------------------ *)
(** ** [QuizView] (lines 322-365)                                       *)
(* ------------------------------------------------------------------ *)

Module QuizView.
Import Text Arr.

Inductive Stage := SETUP | LOADING | PLAYING | RESULT.

(** The state of the component: its seven [useState] cells and the two
    timers, the 500 ms one that [generateQuiz] starts ([startTimeout]) and
    the 3 s one kept in [autoNextTimeoutRef] ([autoNextTimeout]); a timer is
    [true] while it is pending. *)
Record State := {
  stage : Stage;
  selectedPassageId : Z;
  questions : list QuizItem.t;
  currentQIndex : Z;
  score : Z;
  selectedOption : option Z;
  isAnswered : bool;
  startTimeout : bool;
  autoNextTimeout : bool
}.

Definition initialState (passages : list Passage.t) : option State :=
  match passages with
  | p :: _ =>
      Some {| stage := SETUP; selectedPassageId := Passage.id p; questions := [];
              currentQIndex := 0; score := 0; selectedOption := None;
              isAnswered := false; startTimeout := false; autoNextTimeout := false |}
  | [] => None
  end.

Definition generateQuiz (passages : list Passage.t) (rnd : Rng) (st : State) : State :=
  match find (fun p => (Passage.id p =? selectedPassageId st)%Z) passages with
  | None => st
  | Some passage =>
      match Passage.offlineQuiz passage with
      | Some quiz =>
          {| stage := LOADING; selectedPassageId := selectedPassageId st;
             questions := sortRandom rnd quiz;
             currentQIndex := currentQIndex st; score := score st;
             selectedOption := selectedOption st; isAnswered := isAnswered st;
             startTimeout := true; autoNextTimeout := autoNextTimeout st |}
      | None =>
          {| stage := LOADING; selectedPassageId := selectedPassageId st;
             questions := questions st;
             currentQIndex := currentQIndex st; score := score st;
             selectedOption := selectedOption st; isAnswered := isAnswered st;
             startTimeout := startTimeout st; autoNextTimeout := autoNextTimeout st |}
      end
  end.

(** The callback of the 500 ms timer (lines 340-343). *)
Definition startPlaying (st : State) : State :=
  {| stage := PLAYING; selectedPassageId := selectedPassageId st;
     questions := questions st;
     currentQIndex := 0; score := 0; selectedOption := None; isAnswered := false;
     startTimeout := false; autoNextTimeout := autoNextTimeout st |}.

Definition nextQuestion (st : State) : State :=
  if (currentQIndex st <? Z.of_nat (length (questions st)) - 1)%Z
  then {| stage := stage st; selectedPassageId := selectedPassageId st;
          questions := questions st;
          currentQIndex := currentQIndex st + 1; score := score st;
          selectedOption := None; isAnswered := false;
          startTimeout := startTimeout st; autoNextTimeout := false |}
  else {| stage := RESULT; selectedPassageId := selectedPassageId st;
          questions := questions st;
          currentQIndex := currentQIndex st; score := score st;
          selectedOption := selectedOption st; isAnswered := isAnswered st;
          startTimeout := startTimeout st; autoNextTimeout := false |}.

(** How a handler ends: it returns, or it throws; in both cases with the
    state updates it has made so far, which React applies. *)
Inductive Completion :=
| Returned (st : State)
| Thrown (st : State).

Definition stateOf (c : Completion) : State :=
  match c with
  | Returned st | Thrown st => st
  end.

(** [handleSelectAnswer].  When [questions[currentQIndex]] is [undefined],
    reading its [correctAnswerIndex] throws, after the updates of lines 360
    and 361. *)
Definition handleSelectAnswer (idx : Z) (st : State) : Completion :=
  if isAnswered st then Returned st
  else
    match at_ (questions st) (currentQIndex st) with
    | None =>
        Thrown {| stage := stage st; selectedPassageId := selectedPassageId st;
                  questions := questions st;
                  currentQIndex := currentQIndex st; score := score st;
                  selectedOption := Some idx; isAnswered := true;
                  startTimeout := startTimeout st;
                  autoNextTimeout := autoNextTimeout st |}
    | Some q =>
        let correct := (idx =? QuizItem.correctAnswerIndex q)%Z in
        Returned {| stage := stage st; selectedPassageId := selectedPassageId st;
                    questions := questions st;
                    currentQIndex := currentQIndex st;
                    score := if correct then score st + 1 else score st;
                    selectedOption := Some idx; isAnswered := true;
                    startTimeout := startTimeout st; autoNextTimeout := true |}
    end.

(** The button of the result view (line 410). *)
Definition tryAnother (st : State) : State :=
  {| stage := SETUP; selectedPassageId := selectedPassageId st;
     questions := questions st;
     currentQIndex := currentQIndex st; score := score st;
     selectedOption := selectedOption st; isAnswered := isAnswered st;
     startTimeout := startTimeout st; autoNextTimeout := autoNextTimeout st |}.

Definition selectPassage (id' : Z) (st : State) : State :=
  {| stage := stage st; selectedPassageId := id';
     questions := questions st;
     currentQIndex := currentQIndex st; score := score st;
     selectedOption := selectedOption st; isAnswered := isAnswered st;
     startTimeout := startTimeout st; autoNextTimeout := autoNextTimeout st |}.

(** What can happen to the component: the controls of the view it renders
    in its current stage, and its two timers. *)
Inductive Event :=
| SelectPassage (id' : Z)
| ClickStart (rnd : Rng)
| StartTimeoutFires
| ClickOption (idx : Z)
| ClickNext
| AutoNextFires
| ClickTryAnother.

Definition isStage (a b : Stage) : bool :=
  match a, b with
  | SETUP, SETUP | LOADING, LOADING | PLAYING, PLAYING | RESULT, RESULT => true
  | _, _ => false
  end.

(** The setup view has the passage selector and the start button; the loading
    view has no control; the playing view has the option buttons (disabled
    once answered) and, once answered, the next button; the result view has
    one button.  A timer fires only while pending. *)
Definition enabled (e : Event) (st : State) : bool :=
  match e with
  | SelectPassage _ | ClickStart _ => isStage (stage st) SETUP
  | StartTimeoutFires => startTimeout st
  | ClickOption _ => isStage (stage st) PLAYING && negb (isAnswered st)
  | ClickNext => isStage (stage st) PLAYING && isAnswered st
  | AutoNextFires => autoNextTimeout st
  | ClickTryAnother => isStage (stage st) RESULT
  end.

Definition fire (passages : list Passage.t) (e : Event) (st : State) : State :=
  match e with
  | SelectPassage id' => selectPassage id' st
  | ClickStart rnd => generateQuiz passages rnd st
  | StartTimeoutFires => startPlaying st
  | ClickOption idx => stateOf (handleSelectAnswer idx st)
  | ClickNext | AutoNextFires => nextQuestion st
  | ClickTryAnother => tryAnother st
  end.

(** The two actions of a session, [answer] and [advance], applied as the
    handlers are written, whatever the view shows. *)
Inductive Action :=
| Answer (idx : Z)
| Advance.

(** One action.  The second component counts the items answered so far: the
    calls of [handleSelectAnswer] that got past the guard of line 359 and
    found their item. *)
Definition act (a : Action) (sn : State * Z) : State * Z :=
  let (st, n) := sn in
  match a with
  | Answer idx =>
      match handleSelectAnswer idx st with
      | Returned st' => (st', if isAnswered st then n else n + 1)%Z
      | Thrown st' => (st', n)
      end
  | Advance => (nextQuestion st, n)
  end.

Definition run (acts : list Action) (sn : State * Z) : State * Z :=
  fold_left (fun s a => act a s) acts sn.

(** What holds of a session and of the number [n] of its items answered so
    far, from its start on. *)
Definition sessionInvariant (sn : State * Z) : Prop :=
  let (st, n) := sn in
  let len := Z.of_nat (length (questions st)) in
  (0 <= score st <= n)%Z /\
  (0 <= currentQIndex st)%Z /\
  (len = 0 -> n = 0)%Z /\
  (0 < len ->
     currentQIndex st <= len - 1 /\
     n <= currentQIndex st + (if isAnswered st then 1 else 0))%Z.

(** [const curQ = questions[currentQIndex]] of line 415; the playing view
    reads its fields, which throws when it is [undefined]. *)
Definition curQ (st : State) : option QuizItem.t :=
  at_ (questions st) (currentQIndex st).



(** A session in which each question is answered once, with the options
    [answers] in turn, each answer followed by an advance. *)
Definition answerAll (answers : list Z) : list Action :=
  flat_map (fun a => [Answer a; Advance]) answers.

(** The number of answers that are the [correctAnswerIndex] of their
    question. *)
Fixpoint rightAnswers (qs : list QuizItem.t) (answers : list Z) : Z :=
  match qs, answers with
  | q :: qs', a :: answers' =>
      ((if a =? QuizItem.correctAnswerIndex q then 1 else 0) + rightAnswers qs' answers')%Z
  | _, _ => 0%Z
  end.

(** The states the component goes through: its initial state, and the state
    an event that can happen leads to. *)
Inductive Reachable (passages : list Passage.t) : State -> Prop :=
| reach_initial st : initialState passages = Some st -> Reachable passages st
| reach_fire st e :
    Reachable passages st -> enabled e st = true -> Reachable passages (fire passages e st).

(** What holds in every state of the component, over any number of
    sessions. *)
Definition componentInvariant (st : State) : Prop :=
  (autoNextTimeout st = true -> stage st = PLAYING /\ isAnswered st = true) /\
  (startTimeout st = true -> stage st = LOADING) /\
  (0 <= currentQIndex st)%Z /\
  (0 <= score st <= currentQIndex st + (if isAnswered st then 1 else 0))%Z /\
  (stage st = PLAYING \/ stage st = RESULT ->
     (questions st = [] -> score st = 0%Z) /\
     (questions st <> [] -> currentQIndex st <= Z.of_nat (length (questions st)) - 1)%Z).

End QuizView.

(* ------------------------------------------------------------------ *)
(** ** [JSON.parse] and the initial value of [savedWords] (lines 43-46) *)
(* ------------------------------------------------------------------ *)

Module JSON.
Import Text.

(** A JSON value.  A number keeps its decimal text (its conversion to a
    double is outside the embedding); an object keeps its members in the
    order of the text. *)
#[warnings="-register-all"] Inductive value :=
| JNull
| JBool (b : bool)
| JNumber (lexeme : str)
| JString (s : str)
| JArray (elements : list value)
| JObject (members : list (str * value)).

(** The result of a parsing function: a value and the rest of the text, a
    syntax error, or too small a recursion bound. *)
Inductive result :=
| Ok (v : value) (rest : str)
| SyntaxError
| OutOfFuel.

Definition isJsonWs (c : N) : bool :=
  (c =? 0x20)%N || (c =? 0x9)%N || (c =? 0xA)%N || (c =? 0xD)%N.

Definition skipWs (s : str) : str := dropWhile isJsonWs s.

Definition isDigit (c : N) : bool := inRange 0x30 0x39 c.

Definition hexDigit (c : N) : option N :=
  if inRange 0x30 0x39 c then Some (c - 0x30)%N
  else if inRange 0x41 0x46 c then Some (c - 0x41 + 10)%N
  else if inRange 0x61 0x66 c then Some (c - 0x61 + 10)%N
  else None.

(** The code unit of a one-letter escape. *)
Definition simpleEscape (c : N) : option N :=
  if (c =? 0x22)%N then Some 0x22%N
  else if (c =? 0x5C)%N then Some 0x5C%N
  else if (c =? 0x2F)%N then Some 0x2F%N
  else if (c =? 0x62)%N then Some 0x8%N
  else if (c =? 0x66)%N then Some 0xC%N
  else if (c =? 0x6E)%N then Some 0xA%N
  else if (c =? 0x72)%N then Some 0xD%N
  else if (c =? 0x74)%N then Some 0x9%N
  else None.

(** The characters of a string after its opening quotation mark, up to the
    closing one; [acc] is the decoded text so far, reversed. *)
Fixpoint parseStringBody (acc : str) (s : str) : option (str * str) :=
  match s with
  | [] => None
  | c :: s1 =>
      if (c =? 0x22)%N then Some (rev acc, s1)
      else if (c <? 0x20)%N then None
      else if (c =? 0x5C)%N then
        match s1 with
        | [] => None
        | e :: s2 =>
            match simpleEscape e with
            | Some u => parseStringBody (u :: acc) s2
            | None =>
                if (e =? 0x75)%N then
                  match s2 with
                  | h1 :: h2 :: h3 :: h4 :: s3 =>
                      match hexDigit h1, hexDigit h2, hexDigit h3, hexDigit h4 with
                      | Some a, Some b, Some c', Some d =>
                          parseStringBody (((a * 16 + b) * 16 + c') * 16 + d :: acc)%N s3
                      | _, _, _, _ => None
                      end
                  | _ => None
                  end
                else None
            end
        end
      else parseStringBody (c :: acc) s1
  end.

Fixpoint spanDigits (s : str) : str * str :=
  match s with
  | [] => ([], [])
  | c :: s' =>
      if isDigit c then let (ds, r) := spanDigits s' in (c :: ds, r) else ([], s)
  end.

(** One or more digits. *)
Definition digits1 (s : str) : option (str * str) :=
  match spanDigits s with
  | ([], _) => None
  | (ds, r) => Some (ds, r)
  end.

(** A number of the JSON grammar: an optional minus sign; then a single zero,
    or a digit from 1 to 9 followed by any digits; then, optionally, a point
    and one or more digits; then, optionally, an exponent, [e] or [E], a sign
    or none, and one or more digits.  The result is the text of the number
    and what follows it. *)
Definition parseNumber (s : str) : option (str * str) :=
  let (sign, s1) :=
    match s with
    | c :: r => if (c =? 0x2D)%N then ([c], r) else ([], s)
    | [] => ([], s)
    end in
  let int :=
    match s1 with
    | c :: r => if (c =? 0x30)%N then Some ([c], r) else digits1 s1
    | [] => None
    end in
  match int with
  | None => None
  | Some (i, s2) =>
      let frac :=
        match s2 with
        | c :: r =>
            if (c =? 0x2E)%N
            then match digits1 r with
                 | Some (ds, r') => Some (c :: ds, r')
                 | None => None
                 end
            else Some ([], s2)
        | [] => Some ([], s2)
        end in
      match frac with
      | None => None
      | Some (f, s3) =>
          let exp :=
            match s3 with
            | c :: r =>
                if (c =? 0x65)%N || (c =? 0x45)%N
                then
                  let (sg, r1) :=
                    match r with
                    | c1 :: r' =>
                        if (c1 =? 0x2B)%N || (c1 =? 0x2D)%N then ([c1], r') else ([], r)
                    | [] => ([], r)
                    end in
                  match digits1 r1 with
                  | Some (ds, r2) => Some (c :: sg ++ ds, r2)
                  | None => None
                  end
                else Some ([], s3)
            | [] => Some ([], s3)
            end in
          match exp with
          | None => None
          | Some (e, s4) => Some (sign ++ i ++ f ++ e, s4)
          end
      end
  end.

Fixpoint stripPrefix (p s : str) : option str :=
  match p, s with
  | [], _ => Some s
  | x :: p', y :: s' => if (x =? y)%N then stripPrefix p' s' else None
  | _ :: _, [] => None
  end.

(** A value that is not an array or an object: a string, a literal name or a
    number; [c] is its first code unit and [r] the text after it. *)
Definition parseScalar (c : N) (r : str) : result :=
  if (c =? 0x22)%N then
    match parseStringBody [] r with
    | Some (s, r') => Ok (JString s) r'
    | None => SyntaxError
    end
  else
    match stripPrefix (lit "true") (c :: r), stripPrefix (lit "false") (c :: r),
          stripPrefix (lit "null") (c :: r) with
    | Some r', _, _ => Ok (JBool true) r'
    | _, Some r', _ => Ok (JBool false) r'
    | _, _, Some r' => Ok JNull r'
    | None, None, None =>
        match parseNumber (c :: r) with
        | Some (n, r') => Ok (JNumber n) r'
        | None => SyntaxError
        end
    end.

(** The recursive descent, bounded by [n].  [parseElements] reads the
    elements of an array after its opening bracket or a comma, [parseMembers]
    the members of an object after its opening brace or a comma; [acc] holds
    what was read so far, reversed. *)
Fixpoint parseValue (n : nat) (s : str) {struct n} : result :=
  match n with
  | O => OutOfFuel
  | S n' =>
      match skipWs s with
      | [] => SyntaxError
      | c :: r =>
          if (c =? 0x5B)%N then
            match skipWs r with
            | c' :: r' =>
                if (c' =? 0x5D)%N then Ok (JArray []) r'
                else parseElements n' [] (c' :: r')
            | [] => SyntaxError
            end
          else if (c =? 0x7B)%N then
            match skipWs r with
            | c' :: r' =>
                if (c' =? 0x7D)%N then Ok (JObject []) r'
                else parseMembers n' [] (c' :: r')
            | [] => SyntaxError
            end
          else parseScalar c r
      end
  end
with parseElements (n : nat) (acc : list value) (s : str) {struct n} : result :=
  match n with
  | O => OutOfFuel
  | S n' =>
      match parseValue n' s with
      | Ok v r =>
          match skipWs r with
          | c :: r' =>
              if (c =? 0x2C)%N then parseElements n' (v :: acc) r'
              else if (c =? 0x5D)%N then Ok (JArray (rev (v :: acc))) r'
              else SyntaxError
          | [] => SyntaxError
          end
      | SyntaxError => SyntaxError
      | OutOfFuel => OutOfFuel
      end
  end
with parseMembers (n : nat) (acc : list (str * value)) (s : str) {struct n} : result :=
  match n with
  | O => OutOfFuel
  | S n' =>
      match skipWs s with
      | c :: r =>
          if (c =? 0x22)%N then
            match parseStringBody [] r with
            | Some (k, r1) =>
                match skipWs r1 with
                | c1 :: r2 =>
                    if (c1 =? 0x3A)%N then
                      match parseValue n' r2 with
                      | Ok v r3 =>
                          match skipWs r3 with
                          | c3 :: r4 =>
                              if (c3 =? 0x2C)%N then parseMembers n' ((k, v) :: acc) r4
                              else if (c3 =? 0x7D)%N
                                   then Ok (JObject (rev ((k, v) :: acc))) r4
                                   else SyntaxError
                          | [] => SyntaxError
                          end
                      | SyntaxError => SyntaxError
                      | OutOfFuel => OutOfFuel
                      end
                    else SyntaxError
                | [] => SyntaxError
                end
            | None => SyntaxError
            end
          else SyntaxError
      | [] => SyntaxError
      end
  end.

(** The bound [parse] gives the descent; it is never reached (see
    [parse_fuel_enough]). *)
Definition fuelFor (text : str) : nat := 2 * length text + 2.

(** [JSON.parse(text)]: the value, or [None] when it throws a
    [SyntaxError]. *)
Definition parse (text : str) : option value :=
  match parseValue (fuelFor text) text with
  | Ok v r => match skipWs r with [] => Some v | _ :: _ => None end
  | SyntaxError => None
  | OutOfFuel => None
  end.

(** *** [JSON.stringify] *)

(** A hexadecimal digit, in lower case. *)
Definition hexChar (d : N) : N :=
  if (d <? 10)%N then (0x30 + d)%N else (0x61 + (d - 10))%N.

(** The escape of a code unit by its four hexadecimal digits. *)
Definition unicodeEscape (c : N) : str :=
  [0x5C; 0x75; hexChar (c / 4096); hexChar ((c / 256) mod 16);
   hexChar ((c / 16) mod 16); hexChar (c mod 16)]%N.

Definition isHighSurrogate (c : N) : bool := inRange 0xD800 0xDBFF c.

Definition isLowSurrogate (c : N) : bool := inRange 0xDC00 0xDFFF c.

(** The text of a string between its quotation marks: the quotation mark, the
    backslash and the control characters are escaped, the five usual ones by
    a letter; a surrogate that is not half of a pair is escaped; anything else
    stands for itself. *)
Fixpoint quoteBody (s : str) : str :=
  match s with
  | [] => []
  | c :: s' =>
      if (c =? 0x22)%N then [0x5C; 0x22]%N ++ quoteBody s'
      else if (c =? 0x5C)%N then [0x5C; 0x5C]%N ++ quoteBody s'
      else if (c =? 0x8)%N then [0x5C; 0x62]%N ++ quoteBody s'
      else if (c =? 0xC)%N then [0x5C; 0x66]%N ++ quoteBody s'
      else if (c =? 0xA)%N then [0x5C; 0x6E]%N ++ quoteBody s'
      else if (c =? 0xD)%N then [0x5C; 0x72]%N ++ quoteBody s'
      else if (c =? 0x9)%N then [0x5C; 0x74]%N ++ quoteBody s'
      else if (c <? 0x20)%N then unicodeEscape c ++ quoteBody s'
      else if isHighSurrogate c then
        match s' with
        | d :: s'' =>
            if isLowSurrogate d then c :: d :: quoteBody s''
            else unicodeEscape c ++ quoteBody s'
        | [] => unicodeEscape c
        end
      else if isLowSurrogate c then unicodeEscape c ++ quoteBody s'
      else c :: quoteBody s'
  end.

Definition quote (s : str) : str := 0x22%N :: quoteBody s ++ [0x22%N].

(** The decimal digits of a natural number, most significant first, before
    [acc]; [fuel] bounds the number of digits. *)
Fixpoint digitsBefore (fuel : nat) (n : N) (acc : str) : str :=
  match fuel with
  | O => acc
  | S fuel' =>
      let acc' := (0x30 + n mod 10)%N :: acc in
      if (n / 10 =? 0)%N then acc' else digitsBefore fuel' (n / 10) acc'
  end.

Definition decimal (n : N) : str := digitsBefore (S (N.to_nat (N.size n))) n [].

(** The text of a number that is an integer, as [JSON.stringify] writes it
    below 10^21 in absolute value: its decimal digits, after a minus sign
    when it is negative. *)
Definition numberToString (z : Z) : str :=
  if (z <? 0)%Z then 0x2D%N :: decimal (Z.abs_N z) else decimal (Z.abs_N z).

(** The elements of an array, or the members of an object, with commas
    between them. *)
Fixpoint joinComma (parts : list str) : str :=
  match parts with
  | [] => []
  | [p] => p
  | p :: rest => p ++ 0x2C%N :: joinComma rest
  end.

(** [JSON.stringify(v)] without indentation. *)
Fixpoint stringify (v : value) : str :=
  match v with
  | JNull => lit "null"
  | JBool true => lit "true"
  | JBool false => lit "false"
  | JNumber lexeme => lexeme
  | JString s => quote s
  | JArray elements => 0x5B%N :: joinComma (map stringify elements) ++ [0x5D%N]
  | JObject members =>
      0x7B%N :: joinComma (map (fun m => quote (fst m) ++ 0x3A%N :: stringify (snd m)) members)
             ++ [0x7D%N]
  end.

(** The values whose numbers are integers written by [numberToString]. *)
Fixpoint integral (v : value) : Prop :=
  match v with
  | JNumber lexeme => exists z, lexeme = numberToString z
  | JArray elements => fold_right (fun e P => integral e /\ P) True elements
  | JObject members => fold_right (fun m P => integral (snd m) /\ P) True members
  | _ => True
  end.

(** *** Reading back what [stringify] writes *)

(** The value of a sequence of decimal digits. *)
Definition digitsValue (ds : str) : N :=
  fold_left (fun a c => a * 10 + (c - 0x30))%N ds 0%N.

(** What may follow a value in a text: nothing, a comma, or the end of an
    array or of an object. *)
Definition delimited (rest : str) : Prop :=
  match rest with
  | [] => True
  | c :: _ => c = 0x2C%N \/ c = 0x5D%N \/ c = 0x7D%N
  end.

(** A member of an object as [stringify] writes it. *)
Definition memberText (m : str * value) : str :=
  quote (fst m) ++ 0x3A%N :: stringify (snd m).

(** The text of [v], before a text that may follow a value, is read as [v]
    under some bound. *)
Definition readBack (v : value) : Prop :=
  forall rest, delimited rest ->
    exists n, parseValue n (stringify v ++ rest) = Ok v rest.

End JSON.

Module App.
Import Text.

(** [localStorage.getItem]: [None] is [null], the key is absent. *)
Definition Storage := str -> option str.

Definition storageKey : str := lit "ielts_vocab_words".

(** How an evaluation ends. *)
Inductive Completion (A : Type) :=
| Returns (a : A)
| Throws.
Arguments Returns {A} a.
Arguments Throws {A}.

(** The initializer of the [savedWords] state (lines 43-46):
    [saved ? JSON.parse(saved) : []], where [null] and the empty string are
    falsy.  It runs while [App] renders for the first time, outside any
    [try]; when it throws, the render fails and nothing is mounted. *)
Definition initialSavedWords (localStorage : Storage) : Completion JSON.value :=
  match localStorage storageKey with
  | None => Returns (JSON.JArray [])
  | Some saved =>
      match saved with
      | [] => Returns (JSON.JArray [])
      | _ :: _ =>
          match JSON.parse saved with
          | Some v => Returns v
          | None => Throws
          end
      end
  end.

(** *** Saving (lines 48-50) *)

(** [localStorage.setItem(key, text)], when the storage accepts the text. *)
Definition setItem (key text : str) (localStorage : Storage) : Storage :=
  fun k => if str_eqb k key then Some text else localStorage k.

(** A number of a saved word in JSON: [NaN] is written [null]. *)
Definition jsonNumber (n : option Z) : JSON.value :=
  match n with
  | Some z => JSON.JNumber (JSON.numberToString z)
  | None => JSON.JNull
  end.

(** A word of the store as a JSON value.  The properties come in the order
    the modal creates them in (lines 297-307), which the spread of line 65
    keeps; a property that is [undefined] is left out. *)
Definition wordToJSON (w : Vocabulary.SavedWord) : JSON.value :=
  JSON.JObject
    ([(lit "id", JSON.JString (Vocabulary.id w));
      (lit "word", JSON.JString (Vocabulary.word w));
      (lit "translation", JSON.JString (Vocabulary.translation w))]
     ++ match Vocabulary.definition w with
        | Some d => [(lit "definition", JSON.JString d)]
        | None => []
        end
     ++ match Vocabulary.synonyms w with
        | Some l => [(lit "synonyms", JSON.JArray (map JSON.JString l))]
        | None => []
        end
     ++ [(lit "context", JSON.JString (Vocabulary.context w));
         (lit "timestamp", jsonNumber (Some (Vocabulary.timestamp w)));
         (lit "leitnerBox", jsonNumber (Some (Vocabulary.leitnerBox w)));
         (lit "nextReview", jsonNumber (Vocabulary.nextReview w))]).

Definition toJSON (savedWords : list Vocabulary.SavedWord) : JSON.value :=
  JSON.JArray (map wordToJSON savedWords).

(** The effect of lines 48-50, run after every change of [savedWords]. *)
Definition persist (savedWords : list Vocabulary.SavedWord) (localStorage : Storage) : Storage :=
  setItem storageKey (JSON.stringify (toJSON savedWords)) localStorage.

End App.

(* ------------------------------------------------------------------ *)
(** ** Sample data                                                      *)
(* ------------------------------------------------------------------ *)

Module Sample.
Import Text.

(** A saved word with the given identifier, key, box and review date. *)
Definition saved (id' word' : string) (box : Z) (next : Z) : Vocabulary.SavedWord :=
  {| Vocabulary.id := lit id';
     Vocabulary.word := lit word';
     Vocabulary.translation := [];
     Vocabulary.context := [];
     Vocabulary.definition := None;
     Vocabulary.synonyms := None;
     Vocabulary.timestamp := 0;
     Vocabulary.leitnerBox := box;
     Vocabulary.nextReview := Some next |}.

(** A quiz item with four options and the given right answer. *)
Definition item (word' : string) (correct : Z) : QuizItem.t :=
  {| QuizItem.word := lit word';
     QuizItem.question := lit "What does it mean?";
     QuizItem.options := [lit "a"; lit "b"; lit "c"; lit "d"];
     QuizItem.correctAnswerIndex := correct;
     QuizItem.explanation := [];
     QuizItem.synonyms := None |}.

(** A passage with the given pre-baked quiz, or none. *)
Definition passage (id' : Z) (quiz : option (list QuizItem.t)) : Passage.t :=
  {| Passage.id := id';
     Passage.title := lit "A passage";
     Passage.content := [lit "Ecology is the study of ecosystems."];
     Passage.questionInstruction := [];
     Passage.offlineQuiz := quiz |}.

(** A random source whose every draw has the same sign. *)
Definition constRng (z : Z) : Arr.Rng := fun _ => z.

(** A dictionary without entries. *)
Definition emptyDictionary : Modal.Dictionary := fun _ => None.

(** An ASCII text in which an apostrophe stands for a quotation mark. *)
Definition json (s : string) : str :=
  map (fun c => if (c =? 0x27)%N then 0x22%N else c) (lit s).

(** A storage that holds [payload] under the key of the application and
    nothing else. *)
Definition storageWith (payload : str) : App.Storage :=
  fun key => if str_eqb key App.storageKey then Some payload else None.

Definition emptyStorage : App.Storage := fun _ => None.

End Sample.

(* ================================================================== *)
(** * Properties                                                        *)
(* ================================================================== *)

Import Text.

(** ** The definitions on sample inputs *)

Example splitWs_sample :
  splitWs (lit " a  b ") = [[]; lit " "; lit "a"; lit "  "; lit "b"; lit " "; []]
  /\ splitWs [] = [[]].
Proof. split; reflexivity. Qed.

Example cleanWord_sample :
  cleanWord (lit "Ecosystems,") = lit "ecosystems" /\
  cleanWord (lit "Darwin's") = lit "darwin" /\
  cleanWord (lit "(1859)") = lit "1859" /\
  cleanWord [0x2014%N] = [].
Proof. repeat split. Qed.

Example splitParagraphIntoWords_sample :
  map (fun item => (Tokenizer.text item, Tokenizer.word item, Tokenizer.id item))
      (Tokenizer.splitParagraphIntoWords (lit "Bees vanish."))
  = [(lit "Bees", Some (lit "bees"), 0); (lit " ", None, 1);
     (lit "vanish.", Some (lit "vanish"), 2)].
Proof. reflexivity. Qed.

Example sortRandom_sample :
  Arr.sortRandom (Sample.constRng 1) [1; 2; 3] = [3; 2; 1] /\
  Arr.sortRandom (Sample.constRng (-1)) [1; 2; 3] = [1; 2; 3] /\
  Arr.sortRandom (fun k => if Nat.even k then 1%Z else (-1)%Z) [1; 2; 3] = [1; 3; 2].
Proof. repeat split. Qed.

Example getNextReviewDate_sample :
  Vocabulary.getNextReviewDate 1000 2 = Some (1000 + 3 * 86400000)%Z /\
  Vocabulary.getNextReviewDate 1000 9 = Some (1000 + 30 * 86400000)%Z /\
  Vocabulary.getNextReviewDate 1000 (-1) = None.
Proof. repeat split. Qed.

Example parse_sample :
  JSON.parse (Sample.json "[]") = Some (JSON.JArray []) /\
  JSON.parse (Sample.json " {'a': [1, -2.5e3, true, null], 'b': 'x\u0041'} ")
  = Some (JSON.JObject
            [(lit "a", JSON.JArray [JSON.JNumber (lit "1"); JSON.JNumber (lit "-2.5e3");
                                    JSON.JBool true; JSON.JNull]);
             (lit "b", JSON.JString (lit "xA"))]) /\
  JSON.parse (Sample.json "[1,]") = None /\
  JSON.parse (Sample.json "{'a':1} x") = None /\
  JSON.parse (Sample.json "01") = None /\
  JSON.parse [] = None.
Proof. vm_compute. repeat split. Qed.

(** ** Strings *)

Lemma str_eqb_eq (a b : str) : str_eqb a b = true <-> a = b.
Proof.
  revert b; induction a as [|x a IH]; intros [|y b]; simpl; split;
    try congruence; try reflexivity.
  - intros H. apply andb_true_iff in H as [Hx Hab].
    apply N.eqb_eq in Hx. apply IH in Hab. congruence.
  - intros H. injection H as -> ->.
    apply andb_true_iff. split; [apply N.eqb_refl | now apply IH].
Qed.

Lemma str_eqb_refl (a : str) : str_eqb a a = true.
Proof. now apply str_eqb_eq. Qed.

Lemma str_eqb_neq (a b : str) : str_eqb a b = false <-> a <> b.
Proof.
  split.
  - intros H E. apply str_eqb_eq in E. congruence.
  - intros H. destruct (str_eqb a b) eqn:E; [|reflexivity].
    apply str_eqb_eq in E. contradiction.
Qed.

(** *** [dropWhile] and [dropWhileEnd] *)

Lemma dropWhile_split p (s : str) :
  exists pre, s = pre ++ dropWhile p s /\ Forall (fun c => p c = true) pre.
Proof.
  induction s as [|c s [pre [E F]]]; simpl.
  - exists []. split; [reflexivity | constructor].
  - destruct (p c) eqn:Hc.
    + exists (c :: pre). split; [simpl; congruence | now constructor].
    + exists []. split; [reflexivity | constructor].
Qed.

Lemma dropWhile_length p (s : str) : length (dropWhile p s) <= length s.
Proof.
  induction s as [|c s IH]; simpl; [lia|]. destruct (p c); simpl; lia.
Qed.

Lemma dropWhile_incl p (s : str) : incl (dropWhile p s) s.
Proof.
  destruct (dropWhile_split p s) as [pre [E _]].
  intros x Hx. rewrite E. apply in_or_app. now right.
Qed.

(** [dropWhile p] leaves a string as it is exactly when the string does not
    start with a code unit satisfying [p]. *)
Lemma dropWhile_fix p (s : str) :
  dropWhile p s = s <-> match s with [] => True | c :: _ => p c = false end.
Proof.
  destruct s as [|c s]; simpl; [tauto|].
  destruct (p c) eqn:Hc; split; try congruence.
  intros E. pose proof (dropWhile_length p s) as L.
  rewrite E in L. simpl in L. lia.
Qed.

Lemma dropWhile_idem p (s : str) : dropWhile p (dropWhile p s) = dropWhile p s.
Proof.
  induction s as [|c s IH]; simpl; [reflexivity|].
  destruct (p c) eqn:Hc; [assumption|]. simpl. now rewrite Hc.
Qed.

Lemma dropWhileEnd_length p (s : str) : length (dropWhileEnd p s) <= length s.
Proof.
  unfold dropWhileEnd. rewrite length_rev.
  etransitivity; [apply dropWhile_length|]. now rewrite length_rev.
Qed.

Lemma dropWhileEnd_incl p (s : str) : incl (dropWhileEnd p s) s.
Proof.
  unfold dropWhileEnd. intros x Hx. apply in_rev in Hx.
  apply dropWhile_incl in Hx. now apply in_rev in Hx.
Qed.

(** What is left of a string that starts well still starts well. *)
Lemma dropWhileEnd_keeps_start p (s : str) :
  dropWhile p s = s -> dropWhile p (dropWhileEnd p s) = dropWhileEnd p s.
Proof.
  intros Hs. unfold dropWhileEnd.
  destruct (dropWhile_split p (rev s)) as [pre [E _]].
  set (z := dropWhile p (rev s)) in *.
  assert (Es : s = rev z ++ rev pre).
  { rewrite <- rev_app_distr, <- E. now rewrite rev_involutive. }
  apply dropWhile_fix. apply dropWhile_fix in Hs.
  destruct (rev z) as [|c y]; [exact I|]. rewrite Es in Hs. exact Hs.
Qed.

Lemma strip_trimmedBy p (s : str) : trimmedBy p (dropWhileEnd p (dropWhile p s)).
Proof.
  split.
  - apply dropWhileEnd_keeps_start, dropWhile_idem.
  - unfold dropWhileEnd. rewrite rev_involutive. apply dropWhile_idem.
Qed.

Lemma trimmedBy_fix p (s : str) : trimmedBy p s -> dropWhileEnd p (dropWhile p s) = s.
Proof.
  intros [H1 H2]. unfold dropWhileEnd. rewrite H1, H2. apply rev_involutive.
Qed.

Lemma stripOuter_idem (s : str) : stripOuter (stripOuter s) = stripOuter s.
Proof. unfold stripOuter. apply trimmedBy_fix, strip_trimmedBy. Qed.

Lemma stripOuter_length (s : str) : length (stripOuter s) <= length s.
Proof.
  unfold stripOuter. etransitivity; [apply dropWhileEnd_length | apply dropWhile_length].
Qed.

Lemma stripOuter_incl (s : str) : incl (stripOuter s) s.
Proof.
  unfold stripOuter. intros x Hx.
  apply dropWhileEnd_incl in Hx. now apply dropWhile_incl in Hx.
Qed.

(** *** The possessive marker *)

Lemma stripPossessive_keeps (s : str) :
  endsWithPossessive s = false -> stripPossessive s = s.
Proof.
  unfold endsWithPossessive, stripPossessive.
  destruct (rev s) as [|c [|q r]]; try reflexivity. now intros ->.
Qed.

Lemma stripPossessive_shortens (s : str) :
  endsWithPossessive s = true -> length (stripPossessive s) + 2 = length s.
Proof.
  unfold endsWithPossessive, stripPossessive.
  destruct (rev s) as [|c [|q r]] eqn:E; try discriminate. intros ->.
  rewrite length_rev. rewrite <- (length_rev s), E. simpl. lia.
Qed.

Lemma stripPossessive_incl (s : str) : incl (stripPossessive s) s.
Proof.
  unfold stripPossessive.
  destruct (rev s) as [|c [|q r]] eqn:E; try apply incl_refl.
  destruct (_ && _); [|apply incl_refl].
  intros x Hx. apply in_rev. rewrite E. right; right. now apply in_rev in Hx.
Qed.

(** *** Lower case *)

Ltac range_cases :=
  unfold lowerUnit, inRange in *;
  repeat match goal with
         | |- context [if ?b then _ else _] => destruct b eqn:?
         | H : context [if ?b then _ else _] |- _ => destruct b eqn:?
         end;
  simpl in *;
  repeat match goal with
         | H : _ \/ _ |- _ => destruct H
         | H : False |- _ => destruct H
         end;
  subst;
  repeat match goal with
         | H : (_ && _) = true |- _ => apply andb_true_iff in H; destruct H
         | H : (_ && _) = false |- _ => apply andb_false_iff in H; destruct H
         | H : negb _ = true |- _ => apply negb_true_iff in H
         | H : negb _ = false |- _ => apply negb_false_iff in H
         | H : (_ <=? _)%N = true |- _ => apply N.leb_le in H
         | H : (_ <=? _)%N = false |- _ => apply N.leb_gt in H
         | H : (_ =? _)%N = true |- _ => apply N.eqb_eq in H
         | H : (_ =? _)%N = false |- _ => apply N.eqb_neq in H
         end;
  try reflexivity; try lia.

(** A code unit that [toLowerCase] produces is its own lower case. *)
Lemma lowerUnit_stable (c u : N) : In u (lowerUnit c) -> lowerUnit u = [u].
Proof. intros H. range_cases. Qed.

Lemma toLowerCase_fix (s : str) :
  Forall (fun u => lowerUnit u = [u]) s -> toLowerCase s = s.
Proof.
  induction 1 as [|u s Hu _ IH]; [reflexivity|].
  unfold toLowerCase in *. simpl. rewrite Hu, IH. reflexivity.
Qed.

Lemma toLowerCase_stable (s : str) : Forall (fun u => lowerUnit u = [u]) (toLowerCase s).
Proof.
  apply Forall_forall. intros u Hu. unfold toLowerCase in Hu.
  apply in_flat_map in Hu as [c [_ Hc]]. now apply lowerUnit_stable with c.
Qed.

Lemma toLowerCase_idem (s : str) : toLowerCase (toLowerCase s) = toLowerCase s.
Proof. apply toLowerCase_fix, toLowerCase_stable. Qed.

Lemma toLowerCase_nil_iff (s : str) : toLowerCase s = [] <-> s = [].
Proof.
  split; [|now intros ->].
  destruct s as [|c s]; [reflexivity|]. unfold toLowerCase. simpl.
  intros H. apply app_eq_nil in H as [H _]. revert H. range_cases; discriminate.
Qed.

(** A key is already in lower case. *)
Lemma cleanWord_lower (w : str) : toLowerCase (cleanWord w) = cleanWord w.
Proof.
  apply toLowerCase_fix. apply Forall_forall. intros u Hu.
  unfold cleanWord in Hu. apply stripOuter_incl, stripPossessive_incl in Hu.
  revert u Hu. apply Forall_forall, toLowerCase_stable.
Qed.

(** *** The table satisfies what is asked of the built-in function *)

Lemma isWhiteSpace_outside (u : N) :
  (0x21 <= u)%N -> (u < 0x1680)%N -> u <> 0xA0%N -> isWhiteSpace u = false.
Proof.
  intros H1 H2 H3. unfold isWhiteSpace, inRange.
  repeat (apply orb_false_iff; split);
    first [ apply N.eqb_neq; lia
          | apply andb_false_iff; right; apply N.leb_gt; lia
          | apply andb_false_iff; left; apply N.leb_gt; lia ].
Qed.

(** Lower case makes no whitespace. *)
Lemma lowerUnit_not_whitespace (c u : N) :
  isWhiteSpace c = false -> In u (lowerUnit c) -> isWhiteSpace u = false.
Proof.
  intros Hc Hu. unfold lowerUnit, inRange in Hu.
  repeat match type of Hu with
         | context [if ?b then _ else _] => destruct b eqn:?
         end;
  simpl in Hu;
  repeat match goal with
         | H : _ \/ _ |- _ => destruct H
         | H : False |- _ => destruct H
         end;
  subst; try exact Hc; clear Hc;
  repeat match goal with
         | H : (_ && _) = true |- _ => apply andb_true_iff in H; destruct H
         | H : (_ <=? _)%N = true |- _ => apply N.leb_le in H
         | H : (_ =? _)%N = true |- _ => apply N.eqb_eq in H
         | H : _ = false |- _ => clear H
         end;
  subst; apply isWhiteSpace_outside; lia.
Qed.

Lemma toLowerCase_wsFree (s : str) : wsFree s = true -> wsFree (toLowerCase s) = true.
Proof.
  unfold wsFree, toLowerCase. intros H. apply forallb_forall. intros u Hu.
  apply in_flat_map in Hu as [c [Hc Hu]].
  rewrite forallb_forall in H. specialize (H c Hc).
  apply negb_true_iff in H. apply negb_true_iff.
  now apply lowerUnit_not_whitespace with c.
Qed.

(** The table gives one code unit, except for U+0130. *)
Lemma lowerUnit_shape (c : N) :
  (exists x, lowerUnit c = [x]) \/ (c = 0x130%N /\ lowerUnit c = [0x69; 0x307]%N).
Proof.
  unfold lowerUnit.
  repeat match goal with
         | |- context [if ?b then _ else _] => destruct b eqn:?
         end;
    try (left; eexists; reflexivity).
  right. split; [now apply N.eqb_eq | reflexivity].
Qed.

(** A text that is its own lower case is made of code units that are. *)
Lemma toLowerCase_fixed_units (s : str) :
  toLowerCase s = s -> Forall (fun u => lowerUnit u = [u]) s.
Proof.
  induction s as [|c s IH]; intros H; [constructor|].
  unfold toLowerCase in H. cbn [flat_map] in H.
  destruct (lowerUnit_shape c) as [[x Hx] | [Hc Hx]]; rewrite Hx in H; cbn [app] in H.
  - injection H as -> H. constructor; [exact Hx | now apply IH].
  - subst c. discriminate H.
Qed.

Lemma toLowerCase_lowerCaseLaws : Keyed.lowerCaseLaws toLowerCase.
Proof.
  split; [exact toLowerCase_idem|]. split; [|exact toLowerCase_wsFree].
  intros a b c H. apply toLowerCase_fixed_units in H.
  apply toLowerCase_fix. apply Forall_app in H as [_ H]. now apply Forall_app in H as [H _].
Qed.

(** *** The key over the built-in function *)


Lemma dropWhileEnd_split p (s : str) : exists post, s = dropWhileEnd p s ++ post.
Proof.
  unfold dropWhileEnd. destruct (dropWhile_split p (rev s)) as [pre [E _]].
  exists (rev pre). rewrite <- rev_app_distr, <- E. now rewrite rev_involutive.
Qed.

Lemma stripOuter_split (s : str) : exists a c, s = a ++ stripOuter s ++ c.
Proof.
  unfold stripOuter.
  destruct (dropWhile_split (fun c => negb (isKeyChar c)) s) as [a [E _]].
  destruct (dropWhileEnd_split (fun c => negb (isKeyChar c))
              (dropWhile (fun c => negb (isKeyChar c)) s)) as [c E'].
  exists a, c. now rewrite <- E', <- E.
Qed.

Lemma stripPossessive_split (s : str) : exists c, s = stripPossessive s ++ c.
Proof.
  unfold stripPossessive. destruct (rev s) as [|x [|y r]] eqn:E;
    try (exists []; now rewrite app_nil_r).
  destruct ((x =? 0x73)%N && isApostrophe y); [|exists []; now rewrite app_nil_r].
  exists [y; x]. apply (f_equal (@rev N)) in E. rewrite rev_involutive in E.
  rewrite E. cbn [rev]. now rewrite <- !app_assoc.
Qed.

(** A key is already in lower case. *)
Lemma keyed_cleanWord_lower (toLowerCase : str -> str) (w : str) :
  Keyed.lowerCaseLaws toLowerCase ->
  toLowerCase (Keyed.cleanWord toLowerCase w) = Keyed.cleanWord toLowerCase w.
Proof.
  intros [L1 [L2 _]]. unfold Keyed.cleanWord.
  pose proof (L1 w) as Hfix. set (lw := toLowerCase w) in *.
  destruct (stripPossessive_split lw) as [c1 E1]. set (sp := stripPossessive lw) in *.
  destruct (stripOuter_split sp) as [a [c2 E2]]. set (k := stripOuter sp) in *.
  clearbody k sp lw.
  apply (L2 a k (c2 ++ c1)).
  assert (E : lw = a ++ k ++ c2 ++ c1) by (subst lw sp; now rewrite <- !app_assoc).
  now rewrite <- E.
Qed.

(** ** The tokenizer *)

Lemma splitWsFrom_concat (s : str) : forall inWs acc,
  concat (splitWsFrom inWs acc s) = rev acc ++ s.
Proof.
  induction s as [|c s IH]; intros inWs acc; simpl.
  - destruct inWs; simpl; now rewrite ?app_nil_r.
  - destruct (isWhiteSpace c), inWs; simpl; rewrite IH; simpl;
      now rewrite <- ?app_assoc.
Qed.

Lemma mapi_from_text {A} (f : A -> nat -> Tokenizer.Segment) (g : A -> str) :
  (forall x i, Tokenizer.text (f x i) = g x) ->
  forall l i, map Tokenizer.text (mapi_from i f l) = map g l.
Proof.
  intros Hf l. induction l as [|x l IH]; intros i; simpl; [reflexivity|].
  now rewrite Hf, IH.
Qed.

Lemma mapi_from_In {A B} (f : A -> nat -> B) (l : list A) : forall i y,
  In y (mapi_from i f l) -> exists x j, In x l /\ y = f x j.
Proof.
  induction l as [|x l IH]; intros i y; simpl; [tauto|].
  intros [<- | H].
  - exists x, i. tauto.
  - destruct (IH _ _ H) as [x' [j [Hx Hy]]]. exists x', j. tauto.
Qed.

(** C3.  Round trip of the tokenizer: for every paragraph, the [text] fields
    of the segments [splitParagraphIntoWords] returns, concatenated in order,
    are the paragraph itself. *)
Theorem tokenizer_round_trip (paragraph : str) :
  concat (map Tokenizer.text (Tokenizer.splitParagraphIntoWords paragraph)) = paragraph.
Proof.
  unfold Tokenizer.splitParagraphIntoWords, mapi.
  rewrite (mapi_from_text _ (fun x => x)).
  - rewrite map_id. unfold splitWs. now rewrite splitWsFrom_concat.
  - intros x i. now destruct (str_eqb (trim x) []).
Qed.

(** ** The key normalization *)



(** ** The scheduler *)

Import Arr.

Lemma getNextReviewDate_spec (now box : Z) :
  (0 <= box)%Z ->
  Vocabulary.getNextReviewDate now box
  = Some (now + Vocabulary.intervalDays_spec box * (24 * 60 * 60 * 1000))%Z.
Proof.
  intros Hb. unfold Vocabulary.getNextReviewDate, Vocabulary.intervalDays_spec.
  change (Z.of_nat (length Vocabulary.REVIEW_INTERVALS) - 1)%Z with 5%Z.
  destruct (5 <=? box)%Z eqn:E.
  - apply Z.leb_le in E. rewrite Z.min_r by lia. reflexivity.
  - apply Z.leb_gt in E. rewrite Z.min_l by lia.
    assert (box = 0 \/ box = 1 \/ box = 2 \/ box = 3 \/ box = 4)%Z
      as [-> | [-> | [-> | [-> | ->]]]] by lia; reflexivity.
Qed.

Lemma updateWord_same_id (now : Z) (success : bool) (w : Vocabulary.SavedWord) :
  Vocabulary.leitnerBox (Vocabulary.updateWord now (Vocabulary.id w) success w)
  = (if success then Z.min (Vocabulary.leitnerBox w + 1) 5 else 0)%Z /\
  Vocabulary.nextReview (Vocabulary.updateWord now (Vocabulary.id w) success w)
  = Vocabulary.getNextReviewDate now
      (if success then Z.min (Vocabulary.leitnerBox w + 1) 5 else 0)%Z.
Proof.
  unfold Vocabulary.updateWord. rewrite str_eqb_refl. simpl.
  destruct success; split; reflexivity.
Qed.

(** C1.  For a saved word of the store with a box [b] between 0 and 5, a
    success flag and the current time [now], [handleUpdateWordProgress]
    replaces the word in place by one whose box is [min (b + 1) 5] on success
    and 0 on failure, and whose next review is [now] plus the interval of the
    new box, in days, times [24 * 60 * 60 * 1000]; the interval is read in the
    table 0, 1, 3, 7, 14, 30, a box at or above the last index taking the
    last entry.  The new box is between 0 and 5. *)
Theorem handleUpdateWordProgress_schedule
    (now : Z) (success : bool) (prev : list Vocabulary.SavedWord) (i : nat)
    (w : Vocabulary.SavedWord) :
  nth_error prev i = Some w ->
  (0 <= Vocabulary.leitnerBox w <= 5)%Z ->
  exists w',
    nth_error (Vocabulary.handleUpdateWordProgress now (Vocabulary.id w) success prev) i
      = Some w' /\
    Vocabulary.leitnerBox w'
      = (if success then Z.min (Vocabulary.leitnerBox w + 1) 5 else 0)%Z /\
    Vocabulary.nextReview w'
      = Some (now + Vocabulary.intervalDays_spec (Vocabulary.leitnerBox w')
                    * (24 * 60 * 60 * 1000))%Z /\
    (0 <= Vocabulary.leitnerBox w' <= 5)%Z.
Proof.
  intros Hi Hb.
  exists (Vocabulary.updateWord now (Vocabulary.id w) success w).
  destruct (updateWord_same_id now success w) as [Hbox Hnext].
  split; [|split; [exact Hbox | split]].
  - unfold Vocabulary.handleUpdateWordProgress. rewrite nth_error_map, Hi. reflexivity.
  - rewrite Hnext, Hbox. apply getNextReviewDate_spec. destruct success; lia.
  - rewrite Hbox. destruct success; lia.
Qed.

Lemma handleUpdateWordProgress_schedule_witness :
  let w := Sample.saved "id-1" "habitat" 4 0 in
  nth_error [w] 0 = Some w /\
  (0 <= Vocabulary.leitnerBox w <= 5)%Z /\
  exists w',
    nth_error (Vocabulary.handleUpdateWordProgress 1000 (Vocabulary.id w) true [w]) 0
      = Some w' /\
    Vocabulary.leitnerBox w' = Z.min (Vocabulary.leitnerBox w + 1) 5 /\
    Vocabulary.nextReview w'
      = Some (1000 + Vocabulary.intervalDays_spec (Vocabulary.leitnerBox w')
                     * (24 * 60 * 60 * 1000))%Z /\
    (0 <= Vocabulary.leitnerBox w' <= 5)%Z.
Proof.
  intros w.
  assert (H1 : nth_error [w] 0 = Some w) by reflexivity.
  assert (H2 : (0 <= Vocabulary.leitnerBox w <= 5)%Z) by (simpl; lia).
  split; [exact H1 | split; [exact H2|]].
  exact (handleUpdateWordProgress_schedule 1000 true [w] 0 w H1 H2).
Defined.

(** ** The shuffle *)

Lemma insertRandom_perm {A} (rnd : Rng) (x : A) (l : list A) : forall k,
  Permutation (fst (insertRandom rnd k x l)) (x :: l).
Proof.
  induction l as [|y l IH]; intros k; simpl; [apply Permutation_refl|].
  destruct (0 <? rnd k)%Z; simpl; [|apply Permutation_refl].
  specialize (IH (S k)). destruct (insertRandom rnd (S k) x l) as [r k']. simpl in *.
  apply perm_trans with (y :: x :: l); [now apply perm_skip | apply perm_swap].
Qed.

Lemma sortRandomFrom_perm {A} (rnd : Rng) (l : list A) : forall k,
  Permutation (fst (sortRandomFrom rnd k l)) l.
Proof.
  induction l as [|x l IH]; intros k; simpl; [apply perm_nil|].
  specialize (IH k). destruct (sortRandomFrom rnd k l) as [s k']. simpl in IH.
  apply perm_trans with (x :: s); [apply insertRandom_perm | now apply perm_skip].
Qed.

(** Whatever the random draws, the shuffle returns the elements it was given. *)
Lemma sortRandom_perm {A} (rnd : Rng) (l : list A) : Permutation (sortRandom rnd l) l.
Proof. apply sortRandomFrom_perm. Qed.

(** ** The review session *)

(** A session started from the dictionary view shows every word of the
    store. *)
Lemma startReview_surfaces_store (rnd : Rng) (words : list Vocabulary.SavedWord) :
  Permutation
    (Vocabulary.surfaced (Vocabulary.startReview rnd words Vocabulary.initialReviewState))
    words.
Proof. unfold Vocabulary.surfaced. simpl. apply sortRandom_perm. Qed.

(** C2, the code at a failing input.  [habitat] and [niche] are saved, and
    [niche] is rated EASY at time [t0]: it moves to box 1 and is due a day
    later.  A minute after [t0] the count of line 500 is that of the due
    words, [habitat] alone; the session START REVIEW opens is built from
    [words], not from [due] (line 502), and shows [niche] as well, whatever
    the random draws. *)
Theorem review_session_surfaces_word_not_due (rnd : Rng) :
  let t0 := 1700000000000%Z in
  let now := (t0 + 60000)%Z in
  let words :=
    Vocabulary.applyOps
      [Vocabulary.Save (Sample.saved "id-1" "habitat" 0 (t0 - 5000));
       Vocabulary.Save (Sample.saved "id-2" "niche" 0 (t0 - 4000));
       Vocabulary.UpdateProgress t0 (lit "id-2") true] [] in
  let session := Vocabulary.startReview rnd words Vocabulary.initialReviewState in
  exists habitat niche,
    words = [habitat; niche] /\
    Vocabulary.leitnerBox niche = 1%Z /\
    Vocabulary.nextReview niche = Some (t0 + 86400000)%Z /\
    Vocabulary.due now words = [habitat] /\
    Vocabulary.isDue now niche = false /\
    In niche (Vocabulary.surfaced session) /\
    Permutation (Vocabulary.surfaced session) words.
Proof.
  intros t0 now words session.
  assert (P : Permutation (Vocabulary.surfaced session) words)
    by apply startReview_surfaces_store.
  eexists. eexists. split; [reflexivity|].
  split; [reflexivity|]. split; [reflexivity|]. split; [reflexivity|].
  split; [reflexivity|]. split; [|exact P].
  apply (Permutation_in _ (Permutation_sym P)). right; left; reflexivity.
Qed.

(** ** The store *)

Lemma existsb_sameKey (c : Vocabulary.SavedWord) (prev : list Vocabulary.SavedWord) :
  existsb (fun w => str_eqb (toLowerCase (Vocabulary.word w))
                            (toLowerCase (Vocabulary.word c))) prev = true
  <-> In (Vocabulary.keyOf c) (map Vocabulary.keyOf prev).
Proof.
  rewrite existsb_exists, in_map_iff. unfold Vocabulary.keyOf.
  split; intros [w H]; exists w.
  - destruct H as [Hin E]. apply str_eqb_eq in E. tauto.
  - destruct H as [E Hin]. split; [exact Hin | now apply str_eqb_eq].
Qed.

Lemma handleSaveWord_present (c : Vocabulary.SavedWord) (prev : list Vocabulary.SavedWord) :
  In (Vocabulary.keyOf c) (map Vocabulary.keyOf prev) ->
  Vocabulary.handleSaveWord c prev = prev.
Proof.
  intros H. apply existsb_sameKey in H. unfold Vocabulary.handleSaveWord. now rewrite H.
Qed.

Lemma handleSaveWord_absent (c : Vocabulary.SavedWord) (prev : list Vocabulary.SavedWord) :
  ~ In (Vocabulary.keyOf c) (map Vocabulary.keyOf prev) ->
  Vocabulary.handleSaveWord c prev = prev ++ [c].
Proof.
  intros H. unfold Vocabulary.handleSaveWord.
  destruct (existsb _ prev) eqn:E; [|reflexivity].
  apply existsb_sameKey in E. contradiction.
Qed.

Lemma handleSaveWord_has_key (c : Vocabulary.SavedWord) (prev : list Vocabulary.SavedWord) :
  In (Vocabulary.keyOf c) (map Vocabulary.keyOf (Vocabulary.handleSaveWord c prev)).
Proof.
  destruct (in_dec (list_eq_dec N.eq_dec) (Vocabulary.keyOf c) (map Vocabulary.keyOf prev))
    as [H | H].
  - now rewrite handleSaveWord_present.
  - rewrite handleSaveWord_absent by assumption.
    rewrite map_app. apply in_or_app. right. now left.
Qed.

Lemma handleSaveWord_unique (c : Vocabulary.SavedWord) (prev : list Vocabulary.SavedWord) :
  Vocabulary.uniqueKeys prev -> Vocabulary.uniqueKeys (Vocabulary.handleSaveWord c prev).
Proof.
  unfold Vocabulary.uniqueKeys. intros U.
  destruct (in_dec (list_eq_dec N.eq_dec) (Vocabulary.keyOf c) (map Vocabulary.keyOf prev))
    as [H | H].
  - now rewrite handleSaveWord_present.
  - rewrite handleSaveWord_absent by assumption. rewrite map_app. simpl.
    apply NoDup_app; [exact U | repeat constructor; tauto |].
    intros k Hk [<- | []]. contradiction.
Qed.

Lemma updateWord_word (now : Z) (id' : str) (success : bool) (w : Vocabulary.SavedWord) :
  Vocabulary.word (Vocabulary.updateWord now id' success w) = Vocabulary.word w.
Proof. unfold Vocabulary.updateWord. now destruct (negb _). Qed.

Lemma handleUpdateWordProgress_keys (now : Z) (id' : str) (success : bool)
    (prev : list Vocabulary.SavedWord) :
  map Vocabulary.keyOf (Vocabulary.handleUpdateWordProgress now id' success prev)
  = map Vocabulary.keyOf prev.
Proof.
  unfold Vocabulary.handleUpdateWordProgress. rewrite map_map.
  apply map_ext. intros w. unfold Vocabulary.keyOf. now rewrite updateWord_word.
Qed.

(** Deleting words keeps the remaining keys distinct. *)
Lemma onDeleteWord_unique (id' : str) (prev : list Vocabulary.SavedWord) :
  Vocabulary.uniqueKeys prev -> Vocabulary.uniqueKeys (Vocabulary.onDeleteWord id' prev).
Proof.
  unfold Vocabulary.uniqueKeys, Vocabulary.onDeleteWord.
  induction prev as [|w store IH]; simpl; intros U; [constructor|].
  inversion U as [|? ? Hw U']; subst. specialize (IH U').
  destruct (negb (str_eqb (Vocabulary.id w) id')); simpl; [|exact IH].
  constructor; [|exact IH].
  intros Hin. apply Hw. apply in_map_iff in Hin as [y [E Hy]].
  apply filter_In in Hy as [Hy _]. apply in_map_iff. now exists y.
Qed.

Lemma applyOp_unique (op : Vocabulary.StoreOp) (prev : list Vocabulary.SavedWord) :
  Vocabulary.uniqueKeys prev -> Vocabulary.uniqueKeys (Vocabulary.applyOp op prev).
Proof.
  destruct op as [c | now id' success | id']; simpl; intros U.
  - now apply handleSaveWord_unique.
  - unfold Vocabulary.uniqueKeys. now rewrite handleUpdateWordProgress_keys.
  - now apply onDeleteWord_unique.
Qed.

Lemma applyOps_unique (ops : list Vocabulary.StoreOp) : forall prev,
  Vocabulary.uniqueKeys prev -> Vocabulary.uniqueKeys (Vocabulary.applyOps ops prev).
Proof.
  unfold Vocabulary.applyOps.
  induction ops as [|op ops IH]; intros prev U; simpl; [exact U|].
  apply IH. now apply applyOp_unique.
Qed.

(** In a store with unique keys at most one word has a given key. *)
Lemma uniqueKeys_filter (k : str) (store : list Vocabulary.SavedWord) :
  Vocabulary.uniqueKeys store ->
  length (filter (Vocabulary.hasKey k) store) <= 1.
Proof.
  unfold Vocabulary.uniqueKeys, Vocabulary.hasKey.
  induction store as [|x l IH]; simpl; intros U; [lia|].
  inversion U as [|? ? Hx U']; subst. specialize (IH U').
  destruct (str_eqb (Vocabulary.keyOf x) k) eqn:E; [|exact IH].
  apply str_eqb_eq in E. simpl.
  destruct (filter _ l) as [|y r] eqn:F; [simpl; lia|].
  exfalso. apply Hx.
  assert (Hy : In y (filter (fun w => str_eqb (Vocabulary.keyOf w) k) l))
    by (rewrite F; now left).
  apply filter_In in Hy as [Hy Ey]. apply str_eqb_eq in Ey.
  apply in_map_iff. exists y. split; congruence.
Qed.

Lemma filter_hasKey_absent (k : str) (store : list Vocabulary.SavedWord) :
  ~ In k (map Vocabulary.keyOf store) -> filter (Vocabulary.hasKey k) store = [].
Proof.
  induction store as [|x l IH]; simpl; intros H; [reflexivity|].
  unfold Vocabulary.hasKey at 1.
  destruct (str_eqb (Vocabulary.keyOf x) k) eqn:E.
  - apply str_eqb_eq in E. tauto.
  - apply IH. tauto.
Qed.

Section KeyedStore.

(** The built-in [String.prototype.toLowerCase]; nothing is asked of it. *)
Variable toLowerCase : str -> str.

Lemma keyed_existsb_sameKey (c : Vocabulary.SavedWord) (prev : list Vocabulary.SavedWord) :
  existsb (fun w => str_eqb (toLowerCase (Vocabulary.word w))
                            (toLowerCase (Vocabulary.word c))) prev = true
  <-> In (Keyed.keyOf toLowerCase c) (map (Keyed.keyOf toLowerCase) prev).
Proof.
  rewrite existsb_exists, in_map_iff. unfold Keyed.keyOf.
  split; intros [w H]; exists w.
  - destruct H as [Hin E]. apply str_eqb_eq in E. tauto.
  - destruct H as [E Hin]. split; [exact Hin | now apply str_eqb_eq].
Qed.

Lemma keyed_save_present (c : Vocabulary.SavedWord) (prev : list Vocabulary.SavedWord) :
  In (Keyed.keyOf toLowerCase c) (map (Keyed.keyOf toLowerCase) prev) ->
  Keyed.handleSaveWord toLowerCase c prev = prev.
Proof.
  intros H. apply keyed_existsb_sameKey in H. unfold Keyed.handleSaveWord. now rewrite H.
Qed.

Lemma keyed_save_absent (c : Vocabulary.SavedWord) (prev : list Vocabulary.SavedWord) :
  ~ In (Keyed.keyOf toLowerCase c) (map (Keyed.keyOf toLowerCase) prev) ->
  Keyed.handleSaveWord toLowerCase c prev = prev ++ [c].
Proof.
  intros H. unfold Keyed.handleSaveWord.
  destruct (existsb _ prev) eqn:E; [|reflexivity].
  apply keyed_existsb_sameKey in E. contradiction.
Qed.

Lemma keyed_save_cases (c : Vocabulary.SavedWord) (prev : list Vocabulary.SavedWord) :
  (In (Keyed.keyOf toLowerCase c) (map (Keyed.keyOf toLowerCase) prev)
   /\ Keyed.handleSaveWord toLowerCase c prev = prev) \/
  (~ In (Keyed.keyOf toLowerCase c) (map (Keyed.keyOf toLowerCase) prev)
   /\ Keyed.handleSaveWord toLowerCase c prev = prev ++ [c]).
Proof.
  destruct (in_dec (list_eq_dec N.eq_dec) (Keyed.keyOf toLowerCase c)
                   (map (Keyed.keyOf toLowerCase) prev)) as [H | H].
  - left. split; [exact H | now apply keyed_save_present].
  - right. split; [exact H | now apply keyed_save_absent].
Qed.

(** After a save the store has a word with the key of the candidate. *)
Lemma keyed_save_has_key (c : Vocabulary.SavedWord) (prev : list Vocabulary.SavedWord) :
  In (Keyed.keyOf toLowerCase c)
     (map (Keyed.keyOf toLowerCase) (Keyed.handleSaveWord toLowerCase c prev)).
Proof.
  destruct (keyed_save_cases c prev) as [[H ->] | [H ->]]; [exact H|].
  rewrite map_app. apply in_or_app. right. now left.
Qed.

Lemma keyed_save_unique (c : Vocabulary.SavedWord) (prev : list Vocabulary.SavedWord) :
  Keyed.uniqueKeys toLowerCase prev ->
  Keyed.uniqueKeys toLowerCase (Keyed.handleSaveWord toLowerCase c prev).
Proof.
  unfold Keyed.uniqueKeys. intros U.
  destruct (keyed_save_cases c prev) as [[H ->] | [H ->]]; [exact U|].
  rewrite map_app. simpl.
  apply NoDup_app; [exact U | repeat constructor; tauto |].
  intros k Hk [<- | []]. contradiction.
Qed.

Lemma keyed_update_keys (now : Z) (id' : str) (success : bool)
    (prev : list Vocabulary.SavedWord) :
  map (Keyed.keyOf toLowerCase) (Vocabulary.handleUpdateWordProgress now id' success prev)
  = map (Keyed.keyOf toLowerCase) prev.
Proof.
  unfold Vocabulary.handleUpdateWordProgress. rewrite map_map.
  apply map_ext. intros w. unfold Keyed.keyOf. now rewrite updateWord_word.
Qed.

Lemma keyed_delete_unique (id' : str) (prev : list Vocabulary.SavedWord) :
  Keyed.uniqueKeys toLowerCase prev ->
  Keyed.uniqueKeys toLowerCase (Vocabulary.onDeleteWord id' prev).
Proof.
  unfold Keyed.uniqueKeys, Vocabulary.onDeleteWord.
  induction prev as [|w store IH]; simpl; intros U; [constructor|].
  inversion U as [|? ? Hw U']; subst. specialize (IH U').
  destruct (negb (str_eqb (Vocabulary.id w) id')); simpl; [|exact IH].
  constructor; [|exact IH].
  intros Hin. apply Hw. apply in_map_iff in Hin as [y [E Hy]].
  apply filter_In in Hy as [Hy _]. apply in_map_iff. now exists y.
Qed.

Lemma keyed_applyOps_unique (ops : list Vocabulary.StoreOp) : forall prev,
  Keyed.uniqueKeys toLowerCase prev ->
  Keyed.uniqueKeys toLowerCase (Keyed.applyOps toLowerCase ops prev).
Proof.
  unfold Keyed.applyOps.
  induction ops as [|op ops IH]; intros prev U; simpl; [exact U|].
  apply IH. destruct op as [c | now id' success | id']; simpl.
  - now apply keyed_save_unique.
  - unfold Keyed.uniqueKeys. now rewrite keyed_update_keys.
  - now apply keyed_delete_unique.
Qed.

(** In a store with distinct keys two words with one key are one word. *)
Lemma keyed_unique_same (store : list Vocabulary.SavedWord) (x y : Vocabulary.SavedWord) :
  Keyed.uniqueKeys toLowerCase store -> In x store -> In y store ->
  Keyed.keyOf toLowerCase x = Keyed.keyOf toLowerCase y -> x = y.
Proof.
  unfold Keyed.uniqueKeys. intros U Hx Hy K.
  induction store as [|z l IH]; [contradiction|].
  simpl in U. inversion U as [|? ? Hz U']; subst.
  destruct Hx as [-> | Hx], Hy as [-> | Hy]; try reflexivity.
  - exfalso. apply Hz. rewrite K. now apply in_map.
  - exfalso. apply Hz. rewrite <- K. now apply in_map.
  - now apply IH.
Qed.

Lemma keyed_unique_filter (k : str) (store : list Vocabulary.SavedWord) :
  Keyed.uniqueKeys toLowerCase store ->
  length (filter (Keyed.hasKey toLowerCase k) store) <= 1.
Proof.
  unfold Keyed.uniqueKeys, Keyed.hasKey.
  induction store as [|x l IH]; simpl; intros U; [lia|].
  inversion U as [|? ? Hx U']; subst. specialize (IH U').
  destruct (str_eqb (Keyed.keyOf toLowerCase x) k) eqn:E; [|exact IH].
  apply str_eqb_eq in E. simpl.
  destruct (filter _ l) as [|y r] eqn:F; [simpl; lia|].
  exfalso. apply Hx.
  assert (Hy : In y (filter (fun w => str_eqb (Keyed.keyOf toLowerCase w) k) l))
    by (rewrite F; now left).
  apply filter_In in Hy as [Hy Ey]. apply str_eqb_eq in Ey.
  apply in_map_iff. exists y. split; congruence.
Qed.

Lemma keyed_filter_absent (k : str) (store : list Vocabulary.SavedWord) :
  ~ In k (map (Keyed.keyOf toLowerCase) store) ->
  filter (Keyed.hasKey toLowerCase k) store = [].
Proof.
  induction store as [|x l IH]; simpl; intros H; [reflexivity|].
  unfold Keyed.hasKey at 1.
  destruct (str_eqb (Keyed.keyOf toLowerCase x) k) eqn:E.
  - apply str_eqb_eq in E. tauto.
  - apply IH. tauto.
Qed.

(** C5.  With [toLowerCase] the built-in function, whatever its case table:
    [handleSaveWord] leaves the store as it is when a word with the same key,
    compared in lower case, is already there, and otherwise appends the
    candidate at the end.  Hence a second candidate with the key of the first
    is never added: when the key was new, the one word of the store with that
    key is the first candidate.  Every operation of the application keeps the
    keys of the store distinct, so a store built from the empty one never
    holds two words with the same key. *)
Theorem handleSaveWord_dedup
    (prev : list Vocabulary.SavedWord) (c1 c2 : Vocabulary.SavedWord)
    (ops : list Vocabulary.StoreOp) (k : str) :
  (In (Keyed.keyOf toLowerCase c1) (map (Keyed.keyOf toLowerCase) prev) ->
     Keyed.handleSaveWord toLowerCase c1 prev = prev) /\
  (~ In (Keyed.keyOf toLowerCase c1) (map (Keyed.keyOf toLowerCase) prev) ->
     Keyed.handleSaveWord toLowerCase c1 prev = prev ++ [c1]) /\
  (Keyed.keyOf toLowerCase c1 = Keyed.keyOf toLowerCase c2 ->
     Keyed.handleSaveWord toLowerCase c2 (Keyed.handleSaveWord toLowerCase c1 prev)
       = Keyed.handleSaveWord toLowerCase c1 prev /\
     (~ In (Keyed.keyOf toLowerCase c1) (map (Keyed.keyOf toLowerCase) prev) ->
        filter (Keyed.hasKey toLowerCase (Keyed.keyOf toLowerCase c1))
               (Keyed.handleSaveWord toLowerCase c2 (Keyed.handleSaveWord toLowerCase c1 prev))
        = [c1])) /\
  (Keyed.uniqueKeys toLowerCase prev ->
     Keyed.uniqueKeys toLowerCase (Keyed.applyOps toLowerCase ops prev)) /\
  Keyed.uniqueKeys toLowerCase (Keyed.applyOps toLowerCase ops []) /\
  length (filter (Keyed.hasKey toLowerCase k) (Keyed.applyOps toLowerCase ops [])) <= 1.
Proof.
  assert (U0 : Keyed.uniqueKeys toLowerCase (Keyed.applyOps toLowerCase ops [])).
  { apply keyed_applyOps_unique. constructor. }
  split; [apply keyed_save_present|]. split; [apply keyed_save_absent|].
  split; [|split; [apply keyed_applyOps_unique | split; [exact U0|]]].
  - intros K.
    assert (Again : Keyed.handleSaveWord toLowerCase c2 (Keyed.handleSaveWord toLowerCase c1 prev)
                    = Keyed.handleSaveWord toLowerCase c1 prev).
    { apply keyed_save_present. rewrite <- K. apply keyed_save_has_key. }
    split; [exact Again|]. intros Hnew. rewrite Again.
    rewrite keyed_save_absent by assumption.
    rewrite filter_app, keyed_filter_absent by assumption. simpl.
    unfold Keyed.hasKey. now rewrite str_eqb_refl.
  - now apply keyed_unique_filter.
Qed.

(** X4.  With [toLowerCase] the built-in function, whatever its case table:
    in a store with distinct keys, deleting a word makes room for its key.  A
    candidate with the key of a word of the store is refused before that word
    is deleted and appended after. *)
Theorem save_again_after_delete
    (prev : list Vocabulary.SavedWord) (w c : Vocabulary.SavedWord) :
  Keyed.uniqueKeys toLowerCase prev ->
  In w prev ->
  Keyed.keyOf toLowerCase c = Keyed.keyOf toLowerCase w ->
  Keyed.handleSaveWord toLowerCase c prev = prev /\
  Keyed.handleSaveWord toLowerCase c (Vocabulary.onDeleteWord (Vocabulary.id w) prev)
    = Vocabulary.onDeleteWord (Vocabulary.id w) prev ++ [c].
Proof.
  intros U Hw K. split.
  - apply keyed_save_present. rewrite K. now apply in_map.
  - apply keyed_save_absent. rewrite K. intros Hin.
    apply in_map_iff in Hin as [y [Ky Hy]].
    unfold Vocabulary.onDeleteWord in Hy. apply filter_In in Hy as [Hy Hid].
    apply negb_true_iff, str_eqb_neq in Hid. apply Hid. f_equal.
    now apply (keyed_unique_same prev).
Qed.

End KeyedStore.

(** On the table, the functions over the built-in function are those of
    [Text], [Tokenizer] and [Vocabulary]. *)
Lemma keyed_on_the_table :
  Keyed.cleanWord Text.toLowerCase = Text.cleanWord /\
  Keyed.splitParagraphIntoWords Text.toLowerCase = Tokenizer.splitParagraphIntoWords /\
  Keyed.handleSaveWord Text.toLowerCase = Vocabulary.handleSaveWord /\
  Keyed.applyOps Text.toLowerCase = Vocabulary.applyOps /\
  Keyed.keyOf Text.toLowerCase = Vocabulary.keyOf.
Proof. repeat split. Qed.

Lemma handleSaveWord_dedup_witness :
  let first := Sample.saved "id-1" "Habitat" 0 0 in
  let second := Sample.saved "id-2" "habitat" 0 7 in
  Keyed.keyOf Text.toLowerCase first = Keyed.keyOf Text.toLowerCase second /\
  ~ In (Keyed.keyOf Text.toLowerCase first) (map (Keyed.keyOf Text.toLowerCase) []) /\
  Keyed.handleSaveWord Text.toLowerCase second (Keyed.handleSaveWord Text.toLowerCase first [])
    = Keyed.handleSaveWord Text.toLowerCase first [] /\
  filter (Keyed.hasKey Text.toLowerCase (Keyed.keyOf Text.toLowerCase first))
         (Keyed.handleSaveWord Text.toLowerCase second
            (Keyed.handleSaveWord Text.toLowerCase first [])) = [first].
Proof.
  intros first second.
  assert (K : Keyed.keyOf Text.toLowerCase first = Keyed.keyOf Text.toLowerCase second)
    by reflexivity.
  assert (A : ~ In (Keyed.keyOf Text.toLowerCase first) (map (Keyed.keyOf Text.toLowerCase) []))
    by (simpl; tauto).
  split; [exact K | split; [exact A|]].
  destruct (handleSaveWord_dedup Text.toLowerCase [] first second [] []) as [_ [_ [H _]]].
  destruct (H K) as [H1 H2]. split; [exact H1 | exact (H2 A)].
Defined.

Lemma save_again_after_delete_witness :
  let w := Sample.saved "id-1" "habitat" 2 500 in
  let c := Sample.saved "id-7" "Habitat" 0 900 in
  let prev := [w; Sample.saved "id-2" "niche" 0 0] in
  Keyed.uniqueKeys Text.toLowerCase prev /\ In w prev /\
  Keyed.keyOf Text.toLowerCase c = Keyed.keyOf Text.toLowerCase w /\
  Keyed.handleSaveWord Text.toLowerCase c prev = prev /\
  Keyed.handleSaveWord Text.toLowerCase c (Vocabulary.onDeleteWord (Vocabulary.id w) prev)
    = [Sample.saved "id-2" "niche" 0 0; c].
Proof.
  intros w c prev.
  assert (U : Keyed.uniqueKeys Text.toLowerCase prev).
  { unfold Keyed.uniqueKeys. simpl. repeat constructor; simpl.
    - intros [H | []]. discriminate H.
    - tauto. }
  assert (Hw : In w prev) by (now left).
  assert (K : Keyed.keyOf Text.toLowerCase c = Keyed.keyOf Text.toLowerCase w) by reflexivity.
  split; [exact U | split; [exact Hw | split; [exact K|]]].
  exact (save_again_after_delete Text.toLowerCase prev w c U Hw K).
Defined.

(** ** Segments without a letter *)

Lemma dropWhile_all p (s : str) :
  Forall (fun c => p c = true) s -> dropWhile p s = [].
Proof. induction 1 as [|c s Hc _ IH]; simpl; [reflexivity|]. now rewrite Hc. Qed.

Lemma noKeyLetter_lower (s : str) :
  noKeyLetter s = true ->
  Forall (fun c => negb (isKeyChar c) = true) (toLowerCase s).
Proof.
  unfold noKeyLetter, isKeyLetter, toLowerCase. intros H.
  apply Forall_forall. intros u Hu.
  apply in_flat_map in Hu as [c [Hc Hu]].
  rewrite forallb_forall in H. specialize (H c Hc).
  apply negb_true_iff in H. apply negb_true_iff.
  destruct (isKeyChar u) eqn:E; [|reflexivity].
  rewrite <- H. symmetry. apply existsb_exists. now exists u.
Qed.

(** The key of a text without a letter is empty. *)
Lemma cleanWord_noKeyLetter (s : str) : noKeyLetter s = true -> cleanWord s = [].
Proof.
  intros H. apply noKeyLetter_lower in H. unfold cleanWord, stripOuter.
  rewrite dropWhile_all; [reflexivity|].
  apply Forall_forall. intros u Hu. apply stripPossessive_incl in Hu.
  revert u Hu. now apply Forall_forall.
Qed.

Lemma keyOf_nil_iff (w : Vocabulary.SavedWord) :
  Vocabulary.keyOf w = [] <-> Vocabulary.word w = [].
Proof. apply toLowerCase_nil_iff. Qed.

Lemma In_keyOf_nil (store : list Vocabulary.SavedWord) :
  In [] (map Vocabulary.keyOf store) <-> In [] (map Vocabulary.word store).
Proof.
  rewrite !in_map_iff. split; intros [w [E Hw]]; exists w; split; try assumption.
  - now apply keyOf_nil_iff.
  - now apply keyOf_nil_iff.
Qed.

(** C10.  A segment of the tokenizer that is not whitespace and has no
    letter (a lone dash, a run of punctuation) is a word segment with the
    empty key.  A tap on it opens the modal on that key; the object the save
    button passes on has the empty string as [word], with the fallback
    translation when the dictionary has no entry for the empty key;
    [handleSaveWord] appends it when the store has no word with the empty
    key and leaves the store as it is otherwise.  A store built from the empty
    one never holds more than one such word. *)
Theorem empty_key_segment_saved
    (paragraph : str) (item : Tokenizer.Segment) (dict : Modal.Dictionary)
    (uuid : str) (now1 now2 : Z) (prev : list Vocabulary.SavedWord)
    (ops : list Vocabulary.StoreOp) :
  In item (Tokenizer.splitParagraphIntoWords paragraph) ->
  str_eqb (trim (Tokenizer.text item)) [] = false ->
  noKeyLetter (Tokenizer.text item) = true ->
  let c := Modal.candidate dict [] paragraph uuid now1 now2 in
  Tokenizer.isWord item = true /\
  Tokenizer.word item = Some [] /\
  Modal.tap item paragraph = Some ([], paragraph) /\
  Vocabulary.word c = [] /\
  (dict [] = None -> Vocabulary.translation c = Modal.fallbackPrefix ++ [0x22%N]) /\
  (~ In [] (map Vocabulary.word prev) ->
     Modal.tapAndSave dict item paragraph uuid now1 now2 prev = prev ++ [c]) /\
  (In [] (map Vocabulary.word prev) ->
     Modal.tapAndSave dict item paragraph uuid now1 now2 prev = prev) /\
  length (filter (fun w => str_eqb (Vocabulary.word w) []) (Vocabulary.applyOps ops [])) <= 1.
Proof.
  intros Hin Hws Hno c.
  unfold Tokenizer.splitParagraphIntoWords, mapi in Hin.
  apply mapi_from_In in Hin as [x [j [_ E]]].
  assert (Ex : Tokenizer.text item = x) by (rewrite E; now destruct (str_eqb (trim x) [])).
  rewrite Ex in Hws, Hno. rewrite Hws in E.
  rewrite (cleanWord_noKeyLetter _ Hno) in E.
  assert (Tap : Modal.tap item paragraph = Some ([], paragraph)) by (now rewrite E).
  assert (Wc : Vocabulary.word c = []) by reflexivity.
  assert (Kc : Vocabulary.keyOf c = []) by reflexivity.
  split; [now rewrite E|]. split; [now rewrite E|]. split; [exact Tap|].
  split; [exact Wc|]. split; [|split; [|split]].
  - intros Hd. unfold c, Modal.candidate, Modal.data. simpl.
    change (cleanWord []) with (@nil N). now rewrite Hd.
  - intros Hnone. unfold Modal.tapAndSave. rewrite Tap. fold c.
    apply handleSaveWord_absent. rewrite Kc. now rewrite In_keyOf_nil.
  - intros Hsome. unfold Modal.tapAndSave. rewrite Tap. fold c.
    apply handleSaveWord_present. rewrite Kc. now rewrite In_keyOf_nil.
  - rewrite (filter_ext _ (Vocabulary.hasKey [])).
    + apply uniqueKeys_filter, applyOps_unique. constructor.
    + intros w. unfold Vocabulary.hasKey.
      destruct (str_eqb (Vocabulary.word w) []) eqn:E1;
        destruct (str_eqb (Vocabulary.keyOf w) []) eqn:E2; try reflexivity.
      * apply str_eqb_eq in E1. apply str_eqb_neq in E2.
        exfalso. apply E2. now apply keyOf_nil_iff.
      * apply str_eqb_eq in E2. apply str_eqb_neq in E1.
        exfalso. apply E1. now apply keyOf_nil_iff.
Qed.

Lemma empty_key_segment_saved_witness :
  let paragraph := lit "wait " ++ [0x2014%N] ++ lit " now" in
  let item := {| Tokenizer.text := [0x2014%N]; Tokenizer.word := Some [];
                 Tokenizer.isWord := true; Tokenizer.id := 2 |} in
  let c := Modal.candidate Sample.emptyDictionary [] paragraph (lit "uuid-1") 10 11 in
  In item (Tokenizer.splitParagraphIntoWords paragraph) /\
  str_eqb (trim (Tokenizer.text item)) [] = false /\
  noKeyLetter (Tokenizer.text item) = true /\
  Vocabulary.word c = [] /\
  Modal.tapAndSave Sample.emptyDictionary item paragraph (lit "uuid-1") 10 11 [] = [c].
Proof.
  intros paragraph item c.
  assert (H1 : In item (Tokenizer.splitParagraphIntoWords paragraph))
    by (right; right; left; reflexivity).
  assert (H2 : str_eqb (trim (Tokenizer.text item)) [] = false) by reflexivity.
  assert (H3 : noKeyLetter (Tokenizer.text item) = true) by reflexivity.
  destruct (empty_key_segment_saved paragraph item Sample.emptyDictionary
              (lit "uuid-1") 10 11 [] [] H1 H2 H3) as [_ [_ [_ [Hw [_ [Hs _]]]]]].
  split; [exact H1|]. split; [exact H2|]. split; [exact H3|]. split; [exact Hw|].
  apply Hs. simpl. tauto.
Defined.

(** ** The quiz session *)

Lemma at_in_range {A} (l : list A) (i : Z) :
  (0 <= i < Z.of_nat (length l))%Z -> exists x, at_ l i = Some x.
Proof.
  intros H. unfold at_. destruct (i <? 0)%Z eqn:E; [apply Z.ltb_lt in E; lia|].
  destruct (nth_error l (Z.to_nat i)) as [x|] eqn:N; [now exists x|].
  apply nth_error_None in N. lia.
Qed.

Lemma at_Some_in_range {A} (l : list A) (i : Z) (x : A) :
  at_ l i = Some x -> (0 <= i < Z.of_nat (length l))%Z.
Proof.
  unfold at_. destruct (i <? 0)%Z eqn:E; [discriminate|]. apply Z.ltb_ge in E.
  intros N. assert (Z.to_nat i < length l)%nat; [|lia].
  apply nth_error_Some. congruence.
Qed.

Lemma act_questions (a : QuizView.Action) (st : QuizView.State) (n : Z) :
  QuizView.questions (fst (QuizView.act a (st, n))) = QuizView.questions st.
Proof.
  destruct a as [idx|]; simpl.
  - unfold QuizView.handleSelectAnswer.
    destruct (QuizView.isAnswered st); [reflexivity|].
    destruct (at_ _ _); reflexivity.
  - unfold QuizView.nextQuestion. destruct (_ <? _)%Z; reflexivity.
Qed.

Lemma act_invariant (a : QuizView.Action) (sn : QuizView.State * Z) :
  QuizView.sessionInvariant sn -> QuizView.sessionInvariant (QuizView.act a sn).
Proof.
  destruct sn as [st n]. unfold QuizView.sessionInvariant.
  intros [Hs [Hi [H0 Hpos]]]. destruct a as [idx|]; simpl.
  - unfold QuizView.handleSelectAnswer.
    destruct (QuizView.isAnswered st) eqn:Ans; [rewrite Ans; tauto|].
    destruct (at_ (QuizView.questions st) (QuizView.currentQIndex st)) as [q|] eqn:Q; simpl.
    + apply at_Some_in_range in Q.
      destruct (idx =? QuizItem.correctAnswerIndex q)%Z;
        (split; [lia | split; [lia | split; [lia | intros _; lia]]]).
    + split; [lia | split; [lia | split; [exact H0|]]].
      intros Hlen. exfalso.
      destruct (at_in_range (QuizView.questions st) (QuizView.currentQIndex st)) as [x Hx];
        [lia | congruence].
  - unfold QuizView.nextQuestion.
    destruct (QuizView.currentQIndex st <? _)%Z eqn:E; simpl.
    + apply Z.ltb_lt in E.
      split; [lia | split; [lia | split; [exact H0|]]].
      intros Hlen. specialize (Hpos Hlen). destruct (QuizView.isAnswered st); lia.
    + split; [lia | split; [lia | split; [exact H0 | exact Hpos]]].
Qed.

Lemma run_invariant (acts : list QuizView.Action) : forall sn,
  QuizView.sessionInvariant sn -> QuizView.sessionInvariant (QuizView.run acts sn).
Proof.
  unfold QuizView.run. induction acts as [|a acts IH]; intros sn H; simpl; [exact H|].
  apply IH. now apply act_invariant.
Qed.

Lemma run_questions (acts : list QuizView.Action) : forall sn,
  QuizView.questions (fst (QuizView.run acts sn)) = QuizView.questions (fst sn).
Proof.
  induction acts as [|a acts IH]; intros sn; [reflexivity|].
  change (QuizView.run (a :: acts) sn) with (QuizView.run acts (QuizView.act a sn)).
  rewrite IH. destruct sn as [st n]. apply act_questions.
Qed.

Lemma startPlaying_invariant (st0 : QuizView.State) :
  QuizView.sessionInvariant (QuizView.startPlaying st0, 0%Z).
Proof. unfold QuizView.sessionInvariant. simpl. lia. Qed.

(** C9.  In every state a session reaches from its start by answers and
    advances, with [answered] the number of items answered so far:
    [0 <= score <= answered <= questions.length]; while playing a non-empty
    list of questions, [0 <= currentQIndex <= questions.length - 1]; in the
    result stage the score does not exceed [questions.length].  The list of
    questions is the one the session started with. *)
Theorem quiz_session_invariant (st0 : QuizView.State) (acts : list QuizView.Action) :
  let st := fst (QuizView.run acts (QuizView.startPlaying st0, 0%Z)) in
  let answered := snd (QuizView.run acts (QuizView.startPlaying st0, 0%Z)) in
  let len := Z.of_nat (length (QuizView.questions st)) in
  QuizView.questions st = QuizView.questions st0 /\
  (0 <= QuizView.score st <= answered)%Z /\
  (answered <= len)%Z /\
  (QuizView.stage st = QuizView.PLAYING -> QuizView.questions st <> [] ->
     0 <= QuizView.currentQIndex st <= len - 1)%Z /\
  (QuizView.stage st = QuizView.RESULT -> QuizView.score st <= len)%Z.
Proof.
  pose proof (run_invariant acts _ (startPlaying_invariant st0)) as Inv.
  pose proof (run_questions acts (QuizView.startPlaying st0, 0%Z)) as Q.
  destruct (QuizView.run acts (QuizView.startPlaying st0, 0%Z)) as [st n].
  simpl in *. destruct Inv as [Hs [Hi [H0 Hpos]]].
  assert (Hn : (n <= Z.of_nat (length (QuizView.questions st)))%Z).
  { destruct (Z.eq_dec (Z.of_nat (length (QuizView.questions st))) 0) as [E | E].
    - rewrite E. specialize (H0 E). lia.
    - destruct Hpos as [H1 H2]; [lia|]. destruct (QuizView.isAnswered st); lia. }
  split; [exact Q|]. split; [exact Hs|]. split; [exact Hn|]. split; [|lia].
  intros _ Hne. split; [exact Hi|]. apply Hpos.
  destruct (QuizView.questions st); [contradiction | simpl; lia].
Qed.

(** C8.  While playing, the first answer to the current item is taken: it
    becomes the selection, the item is marked answered, and the score grows
    by one exactly when the option is the item's [correctAnswerIndex].  Any
    further answer before the advance returns the state as it is.  In a
    session of three items answered right, wrong, right, each followed by an
    advance, the last advance reaches the result stage with a score of 2 for
    3 questions. *)
Theorem handleSelectAnswer_once_per_item :
  (forall (st : QuizView.State) (q : QuizItem.t) (idx again : Z),
     QuizView.stage st = QuizView.PLAYING ->
     at_ (QuizView.questions st) (QuizView.currentQIndex st) = Some q ->
     QuizView.isAnswered st = false ->
     exists st',
       QuizView.handleSelectAnswer idx st = QuizView.Returned st' /\
       QuizView.score st'
         = (QuizView.score st + (if idx =? QuizItem.correctAnswerIndex q then 1 else 0))%Z /\
       (QuizView.score st' = QuizView.score st + 1 <-> idx = QuizItem.correctAnswerIndex q)%Z /\
       QuizView.selectedOption st' = Some idx /\
       QuizView.isAnswered st' = true /\
       QuizView.stage st' = QuizView.PLAYING /\
       QuizView.currentQIndex st' = QuizView.currentQIndex st /\
       QuizView.handleSelectAnswer again st' = QuizView.Returned st') /\
  (forall (st : QuizView.State) (idx : Z),
     QuizView.isAnswered st = true ->
     QuizView.handleSelectAnswer idx st = QuizView.Returned st) /\
  (forall (st0 : QuizView.State) (q1 q2 q3 : QuizItem.t) (wrong : Z),
     QuizView.questions st0 = [q1; q2; q3] ->
     wrong <> QuizItem.correctAnswerIndex q2 ->
     let final :=
       QuizView.run
         [QuizView.Answer (QuizItem.correctAnswerIndex q1); QuizView.Advance;
          QuizView.Answer wrong; QuizView.Advance;
          QuizView.Answer (QuizItem.correctAnswerIndex q3); QuizView.Advance]
         (QuizView.startPlaying st0, 0%Z) in
     QuizView.stage (fst final) = QuizView.RESULT /\
     QuizView.score (fst final) = 2%Z /\
     length (QuizView.questions (fst final)) = 3 /\
     snd final = 3%Z).
Proof.
  split; [|split].
  - intros st q idx again Hst Hq Hans.
    unfold QuizView.handleSelectAnswer at 1. rewrite Hans, Hq.
    eexists. split; [reflexivity|]. simpl.
    split; [destruct (idx =? _)%Z; lia|].
    split; [|repeat split].
    destruct (idx =? QuizItem.correctAnswerIndex q)%Z eqn:E.
    + apply Z.eqb_eq in E. tauto.
    + apply Z.eqb_neq in E. split; [lia | tauto].
    + exact Hst.
  - intros st idx Hans. unfold QuizView.handleSelectAnswer. now rewrite Hans.
  - intros st0 q1 q2 q3 wrong Hq Hwrong.
    apply Z.eqb_neq in Hwrong.
    unfold QuizView.run, QuizView.startPlaying. rewrite Hq.
    cbv -[Z.eqb QuizItem.correctAnswerIndex]. rewrite ?Z.eqb_refl.
    cbv -[Z.eqb QuizItem.correctAnswerIndex]. rewrite Hwrong.
    cbv -[Z.eqb QuizItem.correctAnswerIndex]. rewrite ?Z.eqb_refl.
    cbv. repeat split.
Qed.

Lemma handleSelectAnswer_once_per_item_witness :
  let quiz := [Sample.item "habitat" 1; Sample.item "niche" 0; Sample.item "biome" 3] in
  let st0 := QuizView.generateQuiz [Sample.passage 1 (Some quiz)] (Sample.constRng 1)
               {| QuizView.stage := QuizView.SETUP; QuizView.selectedPassageId := 1;
                  QuizView.questions := []; QuizView.currentQIndex := 0;
                  QuizView.score := 0; QuizView.selectedOption := None;
                  QuizView.isAnswered := false; QuizView.startTimeout := false;
                  QuizView.autoNextTimeout := false |} in
  let st := QuizView.startPlaying st0 in
  (exists q1 q2 q3, QuizView.questions st0 = [q1; q2; q3] /\
     2%Z <> QuizItem.correctAnswerIndex q2 /\
     QuizView.score
       (fst (QuizView.run
               [QuizView.Answer (QuizItem.correctAnswerIndex q1); QuizView.Advance;
                QuizView.Answer 2%Z; QuizView.Advance;
                QuizView.Answer (QuizItem.correctAnswerIndex q3); QuizView.Advance]
               (QuizView.startPlaying st0, 0%Z))) = 2%Z) /\
  (exists q, QuizView.stage st = QuizView.PLAYING /\
     at_ (QuizView.questions st) (QuizView.currentQIndex st) = Some q /\
     QuizView.isAnswered st = false /\
     exists st', QuizView.handleSelectAnswer 3 st = QuizView.Returned st' /\
                 QuizView.handleSelectAnswer 1 st' = QuizView.Returned st').
Proof.
  intros quiz st0 st.
  destruct handleSelectAnswer_once_per_item as [Once [_ Scenario]].
  split.
  - exists (Sample.item "biome" 3), (Sample.item "niche" 0), (Sample.item "habitat" 1).
    assert (Q : QuizView.questions st0
                = [Sample.item "biome" 3; Sample.item "niche" 0; Sample.item "habitat" 1])
      by reflexivity.
    assert (W : 2%Z <> QuizItem.correctAnswerIndex (Sample.item "niche" 0))
      by (simpl; lia).
    split; [exact Q | split; [exact W|]].
    exact (proj1 (proj2 (Scenario st0 _ _ _ 2%Z Q W))).
  - exists (Sample.item "biome" 3).
    assert (S : QuizView.stage st = QuizView.PLAYING) by reflexivity.
    assert (Q : at_ (QuizView.questions st) (QuizView.currentQIndex st)
                = Some (Sample.item "biome" 3)) by reflexivity.
    assert (A : QuizView.isAnswered st = false) by reflexivity.
    split; [exact S | split; [exact Q | split; [exact A|]]].
    destruct (Once st _ 3%Z 1%Z S Q A) as [st' [H1 [_ [_ [_ [_ [_ [_ H2]]]]]]]].
    exists st'. split; [exact H1 | exact H2].
Defined.

(** C7, the code at a failing input.  The one passage has no [offlineQuiz].
    From the setup stage [generateQuiz] finds the passage, sets the stage to
    LOADING (line 335) and only then tests [offlineQuiz] (line 338): no
    question is loaded, no timer is started, and the loading view has no
    control, so no event can happen any more and the stage stays LOADING. *)
Theorem generateQuiz_without_offlineQuiz_stuck (rnd : Rng) :
  let passages := [Sample.passage 1 None] in
  exists st0,
    QuizView.initialState passages = Some st0 /\
    QuizView.stage st0 = QuizView.SETUP /\
    QuizView.enabled (QuizView.ClickStart rnd) st0 = true /\
    let st1 := QuizView.fire passages (QuizView.ClickStart rnd) st0 in
    QuizView.stage st1 = QuizView.LOADING /\
    QuizView.questions st1 = [] /\
    QuizView.startTimeout st1 = false /\
    (forall e, QuizView.enabled e st1 = false).
Proof.
  intros passages. eexists. split; [reflexivity|]. simpl.
  repeat split. intros e. destruct e; reflexivity.
Qed.

(** ** [JSON.parse] *)

Lemma skipWs_length (s : str) : length (JSON.skipWs s) <= length s.
Proof. apply dropWhile_length. Qed.

Ltac break_match_hyp :=
  repeat match goal with
         | H : context [if ?b then _ else _] |- _ => destruct b eqn:?
         | H : context [match ?x with _ => _ end] |- _ => destruct x eqn:?
         end.

Lemma parseStringBody_shorter (n : nat) : forall s acc v r,
  length s <= n -> JSON.parseStringBody acc s = Some (v, r) -> length r < length s.
Proof.
  induction n as [|n IH]; intros s acc v r Hn H.
  - destruct s; [discriminate | simpl in Hn; lia].
  - destruct s as [|c s1]; [discriminate|]. simpl in Hn. simpl in H.
    break_match_hyp; try discriminate; subst;
      first [ injection H as _ <-; simpl; lia
            | apply IH in H; simpl in *; lia ].
Qed.

Lemma spanDigits_app (s : str) : forall ds r, JSON.spanDigits s = (ds, r) -> s = ds ++ r.
Proof.
  induction s as [|c s IH]; simpl; intros ds r H.
  - now injection H as <- <-.
  - destruct (JSON.isDigit c).
    + destruct (JSON.spanDigits s) as [ds' r'] eqn:E. injection H as <- <-.
      simpl. f_equal. now apply IH.
    + now injection H as <- <-.
Qed.

Lemma digits1_shorter (s ds r : str) :
  JSON.digits1 s = Some (ds, r) -> length r < length s.
Proof.
  unfold JSON.digits1. destruct (JSON.spanDigits s) as [[|d ds'] r'] eqn:E; [discriminate|].
  intros H. injection H as <- <-. apply spanDigits_app in E. subst s.
  rewrite length_app. simpl. lia.
Qed.

Lemma parseNumber_shorter (s n r : str) :
  JSON.parseNumber s = Some (n, r) -> length r < length s.
Proof.
  unfold JSON.parseNumber. intros H.
  break_match_hyp; try discriminate;
    repeat match goal with
           | E : JSON.digits1 _ = Some _ |- _ => apply digits1_shorter in E
           | E : (_, _) = (_, _) |- _ => injection E as ? ?
           | E : Some _ = Some _ |- _ => injection E as ?
           end;
    subst; simpl in *; lia.
Qed.

Lemma stripPrefix_length (p : str) : forall s r,
  JSON.stripPrefix p s = Some r -> length r + length p = length s.
Proof.
  induction p as [|x p IH]; intros s r H; simpl in *.
  - injection H as <-. lia.
  - destruct s as [|y s]; [discriminate|]. destruct (x =? y)%N; [|discriminate].
    apply IH in H. simpl. lia.
Qed.

Lemma parseScalar_shorter (c : N) (r : str) (v : JSON.value) (r' : str) :
  JSON.parseScalar c r = JSON.Ok v r' -> length r' <= length r.
Proof.
  unfold JSON.parseScalar. intros H.
  break_match_hyp; try discriminate; injection H as _ <-;
    repeat match goal with
           | E : JSON.stripPrefix _ _ = Some _ |- _ => apply stripPrefix_length in E
           | E : JSON.parseNumber _ = Some _ |- _ => apply parseNumber_shorter in E
           | E : JSON.parseStringBody _ _ = Some _ |- _ =>
               apply (parseStringBody_shorter _ _ _ _ _ (le_n _)) in E
           end;
    simpl in *; lia.
Qed.

Lemma parseScalar_no_OutOfFuel (c : N) (r : str) : JSON.parseScalar c r <> JSON.OutOfFuel.
Proof.
  unfold JSON.parseScalar. intros H. break_match_hyp; discriminate.
Qed.

Lemma parseValue_S (n : nat) (s : str) :
  JSON.parseValue (S n) s =
  match JSON.skipWs s with
  | [] => JSON.SyntaxError
  | c :: r =>
      if (c =? 0x5B)%N then
        match JSON.skipWs r with
        | c' :: r' =>
            if (c' =? 0x5D)%N then JSON.Ok (JSON.JArray []) r'
            else JSON.parseElements n [] (c' :: r')
        | [] => JSON.SyntaxError
        end
      else if (c =? 0x7B)%N then
        match JSON.skipWs r with
        | c' :: r' =>
            if (c' =? 0x7D)%N then JSON.Ok (JSON.JObject []) r'
            else JSON.parseMembers n [] (c' :: r')
        | [] => JSON.SyntaxError
        end
      else JSON.parseScalar c r
  end.
Proof. reflexivity. Qed.

Lemma parseElements_S (n : nat) (acc : list JSON.value) (s : str) :
  JSON.parseElements (S n) acc s =
  match JSON.parseValue n s with
  | JSON.Ok v r =>
      match JSON.skipWs r with
      | c :: r' =>
          if (c =? 0x2C)%N then JSON.parseElements n (v :: acc) r'
          else if (c =? 0x5D)%N then JSON.Ok (JSON.JArray (rev (v :: acc))) r'
          else JSON.SyntaxError
      | [] => JSON.SyntaxError
      end
  | JSON.SyntaxError => JSON.SyntaxError
  | JSON.OutOfFuel => JSON.OutOfFuel
  end.
Proof. reflexivity. Qed.

Lemma parseMembers_S (n : nat) (acc : list (str * JSON.value)) (s : str) :
  JSON.parseMembers (S n) acc s =
  match JSON.skipWs s with
  | c :: r =>
      if (c =? 0x22)%N then
        match JSON.parseStringBody [] r with
        | Some (k, r1) =>
            match JSON.skipWs r1 with
            | c1 :: r2 =>
                if (c1 =? 0x3A)%N then
                  match JSON.parseValue n r2 with
                  | JSON.Ok v r3 =>
                      match JSON.skipWs r3 with
                      | c3 :: r4 =>
                          if (c3 =? 0x2C)%N then JSON.parseMembers n ((k, v) :: acc) r4
                          else if (c3 =? 0x7D)%N
                               then JSON.Ok (JSON.JObject (rev ((k, v) :: acc))) r4
                               else JSON.SyntaxError
                      | [] => JSON.SyntaxError
                      end
                  | JSON.SyntaxError => JSON.SyntaxError
                  | JSON.OutOfFuel => JSON.OutOfFuel
                  end
                else JSON.SyntaxError
            | [] => JSON.SyntaxError
            end
        | None => JSON.SyntaxError
        end
      else JSON.SyntaxError
  | [] => JSON.SyntaxError
  end.
Proof. reflexivity. Qed.

(** What the hypotheses about the parsing functions say about lengths. *)
Ltac length_facts IHV IHE IHM :=
  repeat match goal with
         | E : JSON.skipWs ?s = _ |- _ =>
             let L := fresh "L" in
             pose proof (skipWs_length s) as L; rewrite E in L; clear E
         | E : JSON.parseValue _ _ = JSON.Ok _ _ |- _ => apply IHV in E
         | E : JSON.parseElements _ _ _ = JSON.Ok _ _ |- _ => apply IHE in E
         | E : JSON.parseMembers _ _ _ = JSON.Ok _ _ |- _ => apply IHM in E
         | E : JSON.parseStringBody _ _ = Some _ |- _ =>
             apply (parseStringBody_shorter _ _ _ _ _ (le_n _)) in E
         | E : JSON.parseScalar _ _ = JSON.Ok _ _ |- _ => apply parseScalar_shorter in E
         | E : JSON.Ok _ _ = JSON.Ok _ _ |- _ => injection E as ? ?; subst
         end;
  simpl in *; try lia.

(** A value read leaves less text than there was. *)
Lemma parse_shorter (n : nat) :
  (forall s v r, JSON.parseValue n s = JSON.Ok v r -> length r < length s) /\
  (forall acc s v r, JSON.parseElements n acc s = JSON.Ok v r -> length r < length s) /\
  (forall acc s v r, JSON.parseMembers n acc s = JSON.Ok v r -> length r < length s).
Proof.
  induction n as [|n [IHV [IHE IHM]]].
  - repeat split; intros; discriminate.
  - split; [|split].
    + intros s v r H. rewrite parseValue_S in H.
      break_match_hyp; try discriminate; length_facts IHV IHE IHM.
    + intros acc s v r H. rewrite parseElements_S in H.
      break_match_hyp; try discriminate; length_facts IHV IHE IHM.
    + intros acc s v r H. rewrite parseMembers_S in H.
      break_match_hyp; try discriminate; length_facts IHV IHE IHM.
Qed.

Lemma parseValue_shorter (n : nat) (s : str) (v : JSON.value) (r : str) :
  JSON.parseValue n s = JSON.Ok v r -> length r < length s.
Proof. apply parse_shorter. Qed.

(** With a bound above twice the length of the text the descent never stops
    for lack of it. *)
Lemma parse_no_OutOfFuel (n : nat) :
  (forall s, 2 * length s < n -> JSON.parseValue n s <> JSON.OutOfFuel) /\
  (forall acc s, 2 * length s + 1 < n -> JSON.parseElements n acc s <> JSON.OutOfFuel) /\
  (forall acc s, 2 * length s + 1 < n -> JSON.parseMembers n acc s <> JSON.OutOfFuel).
Proof.
  induction n as [|n [IHV [IHE IHM]]].
  - repeat split; intros; lia.
  - pose proof (fun s v r => proj1 (parse_shorter n) s v r) as SV.
    pose proof (fun acc s v r => proj1 (proj2 (parse_shorter n)) acc s v r) as SE.
    pose proof (fun acc s v r => proj2 (proj2 (parse_shorter n)) acc s v r) as SM.
    split; [|split].
    + intros s Hn H. rewrite parseValue_S in H.
      break_match_hyp; try discriminate;
        first [ now apply parseScalar_no_OutOfFuel in H
              | apply IHE in H; [exact H | length_facts SV SE SM]
              | apply IHM in H; [exact H | length_facts SV SE SM] ].
    + intros acc s Hn H. rewrite parseElements_S in H.
      break_match_hyp; try discriminate;
        first [ apply IHE in H; [exact H | length_facts SV SE SM]
              | match goal with
                | E : JSON.parseValue n s = JSON.OutOfFuel |- _ =>
                    apply IHV in E; [exact E | lia]
                end ].
    + intros acc s Hn H. rewrite parseMembers_S in H.
      break_match_hyp; try discriminate;
        first [ apply IHM in H; [exact H | length_facts SV SE SM]
              | match goal with
                | E : JSON.parseValue n _ = JSON.OutOfFuel |- _ =>
                    apply IHV in E; [exact E | length_facts SV SE SM]
                end ].
Qed.

Lemma parse_fuel_enough (text : str) :
  JSON.parseValue (JSON.fuelFor text) text <> JSON.OutOfFuel.
Proof. apply parse_no_OutOfFuel. unfold JSON.fuelFor. lia. Qed.

(** [JSON.parse] returns no value only on a syntax error: the descent reports
    one, or text other than whitespace follows the value. *)
Lemma parse_None_syntax (text : str) :
  JSON.parse text = None ->
  JSON.parseValue (JSON.fuelFor text) text = JSON.SyntaxError \/
  exists v r, JSON.parseValue (JSON.fuelFor text) text = JSON.Ok v r
              /\ JSON.skipWs r <> [].
Proof.
  unfold JSON.parse. pose proof (parse_fuel_enough text) as F.
  destruct (JSON.parseValue (JSON.fuelFor text) text) as [v r| |] eqn:E;
    [|now left | contradiction].
  destruct (JSON.skipWs r) as [|c r'] eqn:W; [discriminate|]. intros _. right.
  exists v, r. split; [reflexivity|]. now rewrite W.
Qed.

(** C6, the claim as stated fails.  The stored text is what remains of an
    interrupted write, the start of an array: it is not valid JSON,
    [JSON.parse] throws, and so does the initializer of [savedWords]; it does
    not return the empty list. *)
Lemma initialSavedWords_corrupt_throws :
  let saved := Sample.json "[{'id':'a1','word':'habitat'" in
  JSON.parse saved = None /\
  App.initialSavedWords (Sample.storageWith saved) = App.Throws /\
  ~ (forall localStorage saved',
       localStorage App.storageKey = Some saved' ->
       JSON.parse saved' = None ->
       App.initialSavedWords localStorage = App.Returns (JSON.JArray [])).
Proof.
  intros saved.
  assert (P : JSON.parse saved = None) by (vm_compute; reflexivity).
  assert (T : App.initialSavedWords (Sample.storageWith saved) = App.Throws)
    by (vm_compute; reflexivity).
  split; [exact P | split; [exact T|]].
  intros H. specialize (H (Sample.storageWith saved) saved eq_refl P).
  rewrite T in H. discriminate.
Qed.

(** C6, amended.  When the stored text is valid JSON the initializer returns
    the value it denotes; when the key is missing, or the stored text is the
    empty string, it returns the empty list; when the stored text is not empty
    and not valid JSON it throws, and the application does not start. *)
Theorem initialSavedWords_cases (localStorage : App.Storage) (saved : str) (v : JSON.value) :
  (localStorage App.storageKey = Some saved -> JSON.parse saved = Some v ->
     App.initialSavedWords localStorage = App.Returns v) /\
  (localStorage App.storageKey = None ->
     App.initialSavedWords localStorage = App.Returns (JSON.JArray [])) /\
  (localStorage App.storageKey = Some [] ->
     App.initialSavedWords localStorage = App.Returns (JSON.JArray [])) /\
  (localStorage App.storageKey = Some saved -> saved <> [] -> JSON.parse saved = None ->
     App.initialSavedWords localStorage = App.Throws).
Proof.
  unfold App.initialSavedWords. repeat split.
  - intros -> P. destruct saved; [discriminate P|]. now rewrite P.
  - now intros ->.
  - now intros ->.
  - intros -> Hne P. destruct saved; [contradiction|]. now rewrite P.
Qed.

Lemma initialSavedWords_cases_witness :
  let saved := Sample.json "[{'id':'a1','word':'habitat','leitnerBox':2,'nextReview':1700000000000}]" in
  let v := JSON.JArray
             [JSON.JObject
                [(lit "id", JSON.JString (lit "a1"));
                 (lit "word", JSON.JString (lit "habitat"));
                 (lit "leitnerBox", JSON.JNumber (lit "2"));
                 (lit "nextReview", JSON.JNumber (lit "1700000000000"))]] in
  let broken := Sample.json "[{'id':'a1'," in
  (Sample.storageWith saved App.storageKey = Some saved /\
   JSON.parse saved = Some v /\
   App.initialSavedWords (Sample.storageWith saved) = App.Returns v) /\
  (Sample.emptyStorage App.storageKey = None /\
   App.initialSavedWords Sample.emptyStorage = App.Returns (JSON.JArray [])) /\
  (Sample.storageWith broken App.storageKey = Some broken /\
   broken <> [] /\ JSON.parse broken = None /\
   App.initialSavedWords (Sample.storageWith broken) = App.Throws).
Proof.
  intros saved v broken.
  assert (S1 : Sample.storageWith saved App.storageKey = Some saved) by reflexivity.
  assert (P1 : JSON.parse saved = Some v) by (vm_compute; reflexivity).
  assert (S2 : Sample.emptyStorage App.storageKey = None) by reflexivity.
  assert (S3 : Sample.storageWith broken App.storageKey = Some broken) by reflexivity.
  assert (N3 : broken <> []) by discriminate.
  assert (P3 : JSON.parse broken = None) by (vm_compute; reflexivity).
  split; [|split].
  - split; [exact S1 | split; [exact P1|]].
    exact (proj1 (initialSavedWords_cases (Sample.storageWith saved) saved v) S1 P1).
  - split; [exact S2|].
    exact (proj1 (proj2 (initialSavedWords_cases Sample.emptyStorage [] JSON.JNull)) S2).
  - split; [exact S3 | split; [exact N3 | split; [exact P3|]]].
    exact (proj2 (proj2 (proj2
             (initialSavedWords_cases (Sample.storageWith broken) broken JSON.JNull)))
             S3 N3 P3).
Defined.

(* ================================================================== *)
(** * Further properties of the code                                    *)
(* ================================================================== *)

(** ** The store: progress updates and deletion *)

Lemma updateWord_other_id (now : Z) (id' : str) (success : bool) (w : Vocabulary.SavedWord) :
  Vocabulary.id w <> id' -> Vocabulary.updateWord now id' success w = w.
Proof.
  intros H. unfold Vocabulary.updateWord.
  apply str_eqb_neq in H. now rewrite H.
Qed.

Lemma updateWord_frame (now : Z) (id' : str) (success : bool) (w : Vocabulary.SavedWord) :
  let w' := Vocabulary.updateWord now id' success w in
  Vocabulary.id w' = Vocabulary.id w /\
  Vocabulary.word w' = Vocabulary.word w /\
  Vocabulary.translation w' = Vocabulary.translation w /\
  Vocabulary.context w' = Vocabulary.context w /\
  Vocabulary.definition w' = Vocabulary.definition w /\
  Vocabulary.synonyms w' = Vocabulary.synonyms w /\
  Vocabulary.timestamp w' = Vocabulary.timestamp w.
Proof.
  unfold Vocabulary.updateWord. destruct (negb _); simpl; repeat split.
Qed.

(** X1.  A progress update for an identifier no saved word has leaves the
    store as it is. *)
Theorem handleUpdateWordProgress_unknown_id
    (now : Z) (id' : str) (success : bool) (prev : list Vocabulary.SavedWord) :
  (forall w, In w prev -> Vocabulary.id w <> id') ->
  Vocabulary.handleUpdateWordProgress now id' success prev = prev.
Proof.
  intros H. unfold Vocabulary.handleUpdateWordProgress.
  rewrite <- (map_id prev) at 2. apply map_ext_in.
  intros w Hw. apply updateWord_other_id. now apply H.
Qed.

Lemma handleUpdateWordProgress_unknown_id_witness :
  let prev := [Sample.saved "id-1" "habitat" 2 500; Sample.saved "id-2" "niche" 0 0] in
  (forall w, In w prev -> Vocabulary.id w <> lit "id-9") /\
  Vocabulary.handleUpdateWordProgress 1000 (lit "id-9") true prev = prev.
Proof.
  intros prev.
  assert (H : forall w, In w prev -> Vocabulary.id w <> lit "id-9").
  { intros w [<- | [<- | []]]; discriminate. }
  split; [exact H|].
  exact (handleUpdateWordProgress_unknown_id 1000 (lit "id-9") true prev H).
Defined.

(** X2.  A progress update keeps the number and the order of the words; at
    every position the word keeps its identifier, key, translation, context,
    definition, synonyms and creation time, and a word with another
    identifier is not changed at all. *)
Theorem handleUpdateWordProgress_frame
    (now : Z) (id' : str) (success : bool) (prev : list Vocabulary.SavedWord) :
  length (Vocabulary.handleUpdateWordProgress now id' success prev) = length prev /\
  forall i w, nth_error prev i = Some w ->
    exists w',
      nth_error (Vocabulary.handleUpdateWordProgress now id' success prev) i = Some w' /\
      Vocabulary.id w' = Vocabulary.id w /\
      Vocabulary.word w' = Vocabulary.word w /\
      Vocabulary.translation w' = Vocabulary.translation w /\
      Vocabulary.context w' = Vocabulary.context w /\
      Vocabulary.definition w' = Vocabulary.definition w /\
      Vocabulary.synonyms w' = Vocabulary.synonyms w /\
      Vocabulary.timestamp w' = Vocabulary.timestamp w /\
      (Vocabulary.id w <> id' -> w' = w).
Proof.
  unfold Vocabulary.handleUpdateWordProgress. split; [apply length_map|].
  intros i w Hi. exists (Vocabulary.updateWord now id' success w).
  split; [now rewrite nth_error_map, Hi|].
  destruct (updateWord_frame now id' success w) as [H1 [H2 [H3 [H4 [H5 [H6 H7]]]]]].
  repeat (split; [assumption|]). apply updateWord_other_id.
Qed.

Lemma onDeleteWord_In (id' : str) (prev : list Vocabulary.SavedWord) (w : Vocabulary.SavedWord) :
  In w (Vocabulary.onDeleteWord id' prev) <-> In w prev /\ Vocabulary.id w <> id'.
Proof.
  unfold Vocabulary.onDeleteWord. rewrite filter_In, negb_true_iff, str_eqb_neq. tauto.
Qed.

Lemma onDeleteWord_absent (id' : str) (prev : list Vocabulary.SavedWord) :
  (forall w, In w prev -> Vocabulary.id w <> id') -> Vocabulary.onDeleteWord id' prev = prev.
Proof.
  unfold Vocabulary.onDeleteWord. induction prev as [|x l IH]; intros H; simpl; [reflexivity|].
  assert (Hx : Vocabulary.id x <> id') by (apply H; now left).
  apply str_eqb_neq in Hx. rewrite Hx. simpl. f_equal. apply IH.
  intros w Hw. apply H. now right.
Qed.

(** X3.  Deleting by identifier keeps exactly the words with another
    identifier, in their order: the result is the store when no word has the
    identifier, deleting twice is deleting once, and deleting from two stores
    put end to end is deleting from each. *)
Theorem onDeleteWord_keeps_the_others (id' : str) (prev more : list Vocabulary.SavedWord) :
  (forall w, In w (Vocabulary.onDeleteWord id' prev) <-> In w prev /\ Vocabulary.id w <> id') /\
  ((forall w, In w prev -> Vocabulary.id w <> id') -> Vocabulary.onDeleteWord id' prev = prev) /\
  Vocabulary.onDeleteWord id' (Vocabulary.onDeleteWord id' prev)
    = Vocabulary.onDeleteWord id' prev /\
  Vocabulary.onDeleteWord id' (prev ++ more)
    = Vocabulary.onDeleteWord id' prev ++ Vocabulary.onDeleteWord id' more /\
  length (Vocabulary.onDeleteWord id' prev) <= length prev.
Proof.
  split; [apply onDeleteWord_In|]. split; [apply onDeleteWord_absent|].
  split; [|split].
  - apply onDeleteWord_absent. intros w Hw. now apply onDeleteWord_In in Hw.
  - apply filter_app.
  - apply filter_length_le.
Qed.

Lemma onDeleteWord_keeps_the_others_witness :
  let prev := [Sample.saved "id-1" "habitat" 2 500; Sample.saved "id-2" "niche" 0 0] in
  (forall w, In w prev -> Vocabulary.id w <> lit "id-9") /\
  Vocabulary.onDeleteWord (lit "id-9") prev = prev /\
  Vocabulary.onDeleteWord (lit "id-1") prev = [Sample.saved "id-2" "niche" 0 0].
Proof.
  intros prev.
  assert (H : forall w, In w prev -> Vocabulary.id w <> lit "id-9").
  { intros w [<- | [<- | []]]; discriminate. }
  split; [exact H|]. split; [|reflexivity].
  exact (proj1 (proj2 (onDeleteWord_keeps_the_others (lit "id-9") prev [])) H).
Defined.

(** ** The scheduler over several ratings *)

Lemma updateWord_box_range (now : Z) (id' : str) (success : bool) (w : Vocabulary.SavedWord) :
  (0 <= Vocabulary.leitnerBox w <= 5)%Z ->
  (0 <= Vocabulary.leitnerBox (Vocabulary.updateWord now id' success w) <= 5)%Z.
Proof.
  intros H. unfold Vocabulary.updateWord.
  destruct (negb _); [exact H|]. destruct success; simpl; lia.
Qed.

(** The word a list of ratings leaves, the first rating applied first. *)
Lemma applyOps_ratings_nth (id' : str) (outcomes : list (Z * bool)) :
  forall (prev : list Vocabulary.SavedWord) (i : nat),
  nth_error (Vocabulary.applyOps (Vocabulary.ratings id' outcomes) prev) i
  = option_map
      (fun w => fold_left (fun w o => Vocabulary.updateWord (fst o) id' (snd o) w) outcomes w)
      (nth_error prev i).
Proof.
  unfold Vocabulary.applyOps, Vocabulary.ratings.
  induction outcomes as [|o rest IH]; intros prev i; simpl.
  - now destruct (nth_error prev i).
  - rewrite IH. unfold Vocabulary.handleUpdateWordProgress.
    rewrite nth_error_map. now destruct (nth_error prev i).
Qed.

Lemma ratings_box (outcomes : list (Z * bool)) : forall w : Vocabulary.SavedWord,
  (0 <= Vocabulary.leitnerBox w <= 5)%Z ->
  Vocabulary.leitnerBox
    (fold_left (fun w o => Vocabulary.updateWord (fst o) (Vocabulary.id w) (snd o) w)
               outcomes w)
  = (if forallb snd outcomes
     then Z.min (Vocabulary.leitnerBox w + Z.of_nat (length outcomes)) 5
     else Z.min (Vocabulary.streak outcomes) 5)%Z.
Proof.
  induction outcomes as [|[t s] rest IH]; intros w Hb.
  - simpl. lia.
  - cbn [fold_left fst snd].
    pose proof (updateWord_same_id t s w) as [Hbox _].
    pose proof (updateWord_frame t (Vocabulary.id w) s w) as [Hid _]. cbv zeta in Hid.
    set (w1 := Vocabulary.updateWord t (Vocabulary.id w) s w) in *.
    assert (Hb1 : (0 <= Vocabulary.leitnerBox w1 <= 5)%Z)
      by (rewrite Hbox; destruct s; lia).
    specialize (IH w1 Hb1).
    rewrite IH, Hbox. cbn [forallb Vocabulary.streak snd length].
    destruct (forallb snd rest), s; cbn [andb]; lia.
Qed.

Lemma fold_updateWord_id (id' : str) (outcomes : list (Z * bool)) : forall w,
  Vocabulary.id (fold_left (fun w o => Vocabulary.updateWord (fst o) id' (snd o) w) outcomes w)
  = Vocabulary.id w.
Proof.
  induction outcomes as [|o rest IH]; intros w; simpl; [reflexivity|].
  rewrite IH. apply updateWord_frame.
Qed.

Lemma fold_updateWord_own_id (outcomes : list (Z * bool)) : forall w id',
  Vocabulary.id w = id' ->
  fold_left (fun w o => Vocabulary.updateWord (fst o) id' (snd o) w) outcomes w
  = fold_left (fun w o => Vocabulary.updateWord (fst o) (Vocabulary.id w) (snd o) w) outcomes w.
Proof.
  induction outcomes as [|o rest IH]; intros w id' E; simpl; [reflexivity|].
  subst id'. apply IH. apply updateWord_frame.
Qed.

(** X5.  After any sequence of ratings of a word whose box is between 0 and
    5, the box is the number of successes since the last failure, capped at
    5; when no rating failed it is the old box plus the number of ratings,
    capped at 5. *)
Theorem box_counts_successes_since_last_failure
    (prev : list Vocabulary.SavedWord) (i : nat) (w : Vocabulary.SavedWord)
    (outcomes : list (Z * bool)) :
  nth_error prev i = Some w ->
  (0 <= Vocabulary.leitnerBox w <= 5)%Z ->
  exists w',
    nth_error (Vocabulary.applyOps (Vocabulary.ratings (Vocabulary.id w) outcomes) prev) i
      = Some w' /\
    Vocabulary.leitnerBox w'
      = (if forallb snd outcomes
         then Z.min (Vocabulary.leitnerBox w + Z.of_nat (length outcomes)) 5
         else Z.min (Vocabulary.streak outcomes) 5)%Z.
Proof.
  intros Hi Hb. rewrite applyOps_ratings_nth, Hi. simpl. eexists. split; [reflexivity|].
  rewrite (fold_updateWord_own_id outcomes w (Vocabulary.id w) eq_refl).
  now apply ratings_box.
Qed.

Lemma box_counts_successes_since_last_failure_witness :
  let w := Sample.saved "id-1" "habitat" 3 0 in
  let outcomes := [(10, true); (20, false); (30, true); (40, true)]%Z in
  nth_error [w] 0 = Some w /\ (0 <= Vocabulary.leitnerBox w <= 5)%Z /\
  exists w',
    nth_error (Vocabulary.applyOps (Vocabulary.ratings (Vocabulary.id w) outcomes) [w]) 0
      = Some w' /\
    Vocabulary.leitnerBox w' = 2%Z.
Proof.
  intros w outcomes.
  assert (H1 : nth_error [w] 0 = Some w) by reflexivity.
  assert (H2 : (0 <= Vocabulary.leitnerBox w <= 5)%Z) by (simpl; lia).
  split; [exact H1 | split; [exact H2|]].
  exact (box_counts_successes_since_last_failure [w] 0 w outcomes H1 H2).
Defined.

(** X6.  After FORGOT at time [now] a word is due at every time from [now]
    on.  After EASY, a word whose box was not negative is due from [now] plus
    the interval of its new box on and not before; the interval is at least a
    day, so the word is not due at [now]. *)
Theorem due_after_rating
    (now : Z) (success : bool) (prev : list Vocabulary.SavedWord) (i : nat)
    (w : Vocabulary.SavedWord) :
  nth_error prev i = Some w ->
  (0 <= Vocabulary.leitnerBox w)%Z ->
  exists w',
    nth_error (Vocabulary.handleUpdateWordProgress now (Vocabulary.id w) success prev) i
      = Some w' /\
    (forall t,
       Vocabulary.isDue t w'
       = if success
         then (now + Vocabulary.intervalDays_spec (Z.min (Vocabulary.leitnerBox w + 1) 5)
                     * (24 * 60 * 60 * 1000) <=? t)%Z
         else (now <=? t)%Z) /\
    (1 <= Vocabulary.intervalDays_spec (Z.min (Vocabulary.leitnerBox w + 1) 5))%Z /\
    Vocabulary.isDue now w' = negb success.
Proof.
  intros Hi Hb.
  exists (Vocabulary.updateWord now (Vocabulary.id w) success w).
  destruct (updateWord_same_id now success w) as [_ Hnext].
  assert (Hdays : (1 <= Vocabulary.intervalDays_spec (Z.min (Vocabulary.leitnerBox w + 1) 5))%Z).
  { unfold Vocabulary.intervalDays_spec.
    destruct (5 <=? Z.min (Vocabulary.leitnerBox w + 1) 5)%Z eqn:E; [lia|].
    apply Z.leb_gt in E.
    assert (Vocabulary.leitnerBox w = 0 \/ Vocabulary.leitnerBox w = 1
            \/ Vocabulary.leitnerBox w = 2 \/ Vocabulary.leitnerBox w = 3)%Z
      as [-> | [-> | [-> | ->]]] by lia; simpl; lia. }
  split; [unfold Vocabulary.handleUpdateWordProgress; now rewrite nth_error_map, Hi|].
  assert (Hall : forall t,
    Vocabulary.isDue t (Vocabulary.updateWord now (Vocabulary.id w) success w)
    = if success
      then (now + Vocabulary.intervalDays_spec (Z.min (Vocabulary.leitnerBox w + 1) 5)
                  * (24 * 60 * 60 * 1000) <=? t)%Z
      else (now <=? t)%Z).
  { intros t. unfold Vocabulary.isDue. rewrite Hnext.
    rewrite getNextReviewDate_spec by (destruct success; lia).
    destruct success; [reflexivity|].
    change (Vocabulary.intervalDays_spec 0) with 0%Z. f_equal. lia. }
  split; [exact Hall | split; [exact Hdays|]].
  rewrite Hall. destruct success; simpl.
  - apply Z.leb_gt. lia.
  - apply Z.leb_refl.
Qed.

Lemma due_after_rating_witness :
  let w := Sample.saved "id-1" "habitat" 1 0 in
  nth_error [w] 0 = Some w /\ (0 <= Vocabulary.leitnerBox w)%Z /\
  exists w',
    nth_error (Vocabulary.handleUpdateWordProgress 1000 (Vocabulary.id w) true [w]) 0
      = Some w' /\
    Vocabulary.isDue 1000 w' = false /\
    Vocabulary.isDue (1000 + 3 * 86400000) w' = true.
Proof.
  intros w.
  assert (H1 : nth_error [w] 0 = Some w) by reflexivity.
  assert (H2 : (0 <= Vocabulary.leitnerBox w)%Z) by (simpl; lia).
  split; [exact H1 | split; [exact H2|]].
  destruct (due_after_rating 1000 true [w] 0 w H1 H2) as [w' [Hn [Hall [_ Hnow]]]].
  exists w'. split; [exact Hn | split; [exact Hnow|]].
  rewrite Hall. reflexivity.
Defined.

(** ** Well-scheduled stores *)

Lemma updateWord_wellScheduled (now : Z) (id' : str) (success : bool)
    (w : Vocabulary.SavedWord) :
  Vocabulary.wellScheduled w -> Vocabulary.wellScheduled (Vocabulary.updateWord now id' success w).
Proof.
  intros [Hb Hn]. unfold Vocabulary.wellScheduled.
  split; [now apply updateWord_box_range|].
  unfold Vocabulary.updateWord. destruct (negb _); [exact Hn|]. simpl.
  rewrite getNextReviewDate_spec by (destruct success; lia). discriminate.
Qed.

Lemma applyOp_wellScheduled (op : Vocabulary.StoreOp) (prev : list Vocabulary.SavedWord) :
  Vocabulary.savesWellScheduled op ->
  Forall Vocabulary.wellScheduled prev ->
  Forall Vocabulary.wellScheduled (Vocabulary.applyOp op prev).
Proof.
  destruct op as [c | now id' success | id']; simpl; intros Hop H.
  - unfold Vocabulary.handleSaveWord. destruct (existsb _ prev); [exact H|].
    apply Forall_app. split; [exact H | now constructor].
  - unfold Vocabulary.handleUpdateWordProgress. apply Forall_map.
    eapply Forall_impl; [|exact H]. intros w. apply updateWord_wellScheduled.
  - unfold Vocabulary.onDeleteWord. apply Forall_forall. intros w Hw.
    apply filter_In in Hw as [Hw _]. revert w Hw. now apply Forall_forall.
Qed.

(** X7.  When every word that is saved has a box between 0 and 5 and a review
    date that is a number, every word of the store has, after any sequence of
    saves, ratings and deletions: no box leaves the interval table and no
    review date becomes [NaN]. *)
Theorem store_stays_wellScheduled
    (ops : list Vocabulary.StoreOp) (prev : list Vocabulary.SavedWord) :
  Forall Vocabulary.savesWellScheduled ops ->
  Forall Vocabulary.wellScheduled prev ->
  Forall Vocabulary.wellScheduled (Vocabulary.applyOps ops prev).
Proof.
  unfold Vocabulary.applyOps. revert prev.
  induction ops as [|op ops IH]; intros prev Hops H; simpl; [exact H|].
  inversion Hops as [|? ? Hop Hrest]; subst.
  apply IH; [exact Hrest | now apply applyOp_wellScheduled].
Qed.

Lemma store_stays_wellScheduled_witness :
  let ops := [Vocabulary.Save (Sample.saved "id-1" "habitat" 0 100);
              Vocabulary.UpdateProgress 200 (lit "id-1") true;
              Vocabulary.UpdateProgress 300 (lit "id-1") false;
              Vocabulary.Delete (lit "id-4")] in
  Forall Vocabulary.savesWellScheduled ops /\
  Forall Vocabulary.wellScheduled [] /\
  Forall Vocabulary.wellScheduled (Vocabulary.applyOps ops []).
Proof.
  intros ops.
  assert (H1 : Forall Vocabulary.savesWellScheduled ops).
  { repeat constructor; simpl; try lia; discriminate. }
  assert (H2 : Forall Vocabulary.wellScheduled []) by constructor.
  split; [exact H1 | split; [exact H2|]].
  exact (store_stays_wellScheduled ops [] H1 H2).
Defined.

(** X8.  With [toLowerCase] the built-in function: when the key the modal
    computes is not the name of a property every object inherits, the button
    saves a word that is well scheduled, with box 0, whose [word] is that key;
    when no word of the store has its key it is appended and is due at once:
    it is among the due words at every time from its creation on.  Where the
    built-in function satisfies [Keyed.lowerCaseLaws], the [word] saved is
    already in lower case.  Under the name of an inherited property for which
    the dictionary has no entry, the object the button passes on has no
    translation. *)
Theorem saved_word_is_due_at_once
    (toLowerCase : str -> str)
    (dict : Modal.Dictionary) (item : Tokenizer.Segment) (paragraph uuid k context : str)
    (now1 now2 t : Z) (prev : list Vocabulary.SavedWord) :
  Modal.tap item paragraph = Some (k, context) ->
  (Keyed.inherited (Keyed.cleanWord toLowerCase k) = false ->
   exists c,
     Keyed.candidate toLowerCase dict k context uuid now1 now2 = Some c /\
     Vocabulary.wellScheduled c /\
     Vocabulary.leitnerBox c = 0%Z /\
     Vocabulary.word c = Keyed.cleanWord toLowerCase k /\
     (Keyed.lowerCaseLaws toLowerCase -> Keyed.keyOf toLowerCase c = Vocabulary.word c) /\
     (~ In (Keyed.keyOf toLowerCase c) (map (Keyed.keyOf toLowerCase) prev) ->
      Keyed.tapAndSave toLowerCase dict item paragraph uuid now1 now2 prev = Some (prev ++ [c])
      /\ ((now2 <= t)%Z -> In c (Vocabulary.due t (prev ++ [c]))))) /\
  (Keyed.inherited (Keyed.cleanWord toLowerCase k) = true ->
   dict (Keyed.cleanWord toLowerCase k) = None ->
   Keyed.candidate toLowerCase dict k context uuid now1 now2 = None).
Proof.
  intros Htap. split.
  - intros Hown.
    assert (D : exists data', Keyed.data toLowerCase dict k = Some data').
    { unfold Keyed.data. rewrite Hown. destruct (dict _); eexists; reflexivity. }
    destruct D as [data' D]. unfold Keyed.candidate. rewrite D.
    eexists. split; [reflexivity|].
    split; [split; [simpl; lia | discriminate]|]. split; [reflexivity|].
    split; [reflexivity|].
    split; [intros L; now apply keyed_cleanWord_lower|].
    intros Hnew. split.
    + unfold Keyed.tapAndSave, Keyed.candidate. rewrite Htap, D.
      now rewrite keyed_save_absent.
    + intros Ht. unfold Vocabulary.due. apply filter_In. split.
      * apply in_or_app. right. now left.
      * unfold Vocabulary.isDue. simpl. now apply Z.leb_le.
  - intros Hin Hd. unfold Keyed.candidate, Keyed.data. now rewrite Hd, Hin.
Qed.

Lemma saved_word_is_due_at_once_witness :
  let paragraph := lit "Coral reefs" in
  let item := {| Tokenizer.text := lit "Coral"; Tokenizer.word := Some (lit "coral");
                 Tokenizer.isWord := true; Tokenizer.id := 0 |} in
  Modal.tap item paragraph = Some (lit "coral", paragraph) /\
  Keyed.inherited (Keyed.cleanWord Text.toLowerCase (lit "coral")) = false /\
  exists c,
    Keyed.candidate Text.toLowerCase Sample.emptyDictionary (lit "coral") paragraph
      (lit "u-1") 50 51 = Some c /\
    Keyed.keyOf Text.toLowerCase c = Vocabulary.word c /\
    Vocabulary.word c = lit "coral".
Proof.
  intros paragraph item.
  assert (H1 : Modal.tap item paragraph = Some (lit "coral", paragraph)) by reflexivity.
  assert (H2 : Keyed.inherited (Keyed.cleanWord Text.toLowerCase (lit "coral")) = false)
    by reflexivity.
  split; [exact H1 | split; [exact H2|]].
  destruct (proj1 (saved_word_is_due_at_once Text.toLowerCase Sample.emptyDictionary item
                     paragraph (lit "u-1") (lit "coral") paragraph 50 51 60 [] H1) H2)
    as [c [E [_ [_ [W [L _]]]]]].
  exists c. split; [exact E|]. split; [exact (L toLowerCase_lowerCaseLaws) | exact W].
Defined.

(** ** A review session *)

Lemma card_started (st : Vocabulary.ReviewState) (k : nat) :
  Vocabulary.isQuizMode st = true ->
  Vocabulary.currentIdx st = Z.of_nat k ->
  Vocabulary.card st = nth_error (Vocabulary.quizWords st) k.
Proof.
  intros Hm Hk. unfold Vocabulary.card, at_. rewrite Hm, Hk.
  destruct (Z.of_nat k >=? _)%Z eqn:E.
  - symmetry. apply nth_error_None. apply Z.geb_le in E. lia.
  - destruct (Z.of_nat k <? 0)%Z eqn:E0; [apply Z.ltb_lt in E0; lia|].
    now rewrite Nat2Z.id.
Qed.

Lemma skipn_nth_error_cons {A} (l : list A) : forall k x,
  nth_error l k = Some x -> skipn k l = x :: skipn (S k) l.
Proof.
  induction l as [|y l IH]; intros [|k] x H; try discriminate; simpl in *.
  - now injection H as ->.
  - now apply IH.
Qed.

Lemma rateAll_cons (o : Z * bool) (rest : list (Z * bool))
    (ws : list Vocabulary.SavedWord) (st : Vocabulary.ReviewState) :
  Vocabulary.rateAll (o :: rest) (ws, st)
  = Vocabulary.rateAll rest (Vocabulary.rate (fst o) (snd o) ws st).
Proof. reflexivity. Qed.

(** The store and the view after the ratings [outcomes] of a session that is
    at its card [k]. *)
Lemma rateAll_from (outcomes : list (Z * bool)) :
  forall (ws : list Vocabulary.SavedWord) (st : Vocabulary.ReviewState) (k : nat),
  Vocabulary.isQuizMode st = true ->
  Vocabulary.currentIdx st = Z.of_nat k ->
  let r := Vocabulary.rateAll outcomes (ws, st) in
  fst r = map (Vocabulary.ratedBy (skipn k (Vocabulary.quizWords st)) outcomes) ws /\
  Vocabulary.isQuizMode (snd r) = true /\
  Vocabulary.quizWords (snd r) = Vocabulary.quizWords st /\
  Vocabulary.currentIdx (snd r)
  = Z.of_nat (k + Nat.min (length outcomes) (length (Vocabulary.quizWords st) - k)).
Proof.
  induction outcomes as [|[t s] rest IH]; intros ws st k Hm Hk; cbv zeta.
  - simpl. unfold Vocabulary.ratedBy.
    replace (combine (skipn k (Vocabulary.quizWords st)) [])
      with (@nil (Vocabulary.SavedWord * (Z * bool)))
      by (now destruct (skipn k (Vocabulary.quizWords st))).
    simpl. rewrite map_id. repeat split; try assumption. rewrite Hk. f_equal. lia.
  - rewrite rateAll_cons. cbn [fst snd].
    unfold Vocabulary.rate. rewrite (card_started st k Hm Hk).
    destruct (nth_error (Vocabulary.quizWords st) k) as [c|] eqn:Hc.
    + assert (Hlt : k < length (Vocabulary.quizWords st))
        by (apply nth_error_Some; congruence).
      match goal with
      | |- context [Vocabulary.rateAll rest (?ws1, ?st1)] =>
          destruct (IH ws1 st1 (S k)) as [H1 [H2 [H3 H4]]]; [exact Hm | simpl; lia|]
      end.
      rewrite H1, H2, H3, H4. cbn [Vocabulary.quizWords].
      split; [|split; [reflexivity | split; [reflexivity|]]].
      * rewrite (skipn_nth_error_cons _ _ _ Hc).
        unfold Vocabulary.handleUpdateWordProgress. rewrite map_map. reflexivity.
      * f_equal. cbn [length]. lia.
    + apply nth_error_None in Hc.
      destruct (IH ws st k Hm Hk) as [H1 [H2 [H3 H4]]].
      rewrite H1, H2, H3, H4.
      split; [|split; [reflexivity | split; [reflexivity|]]].
      * rewrite !skipn_all2 by lia. reflexivity.
      * f_equal. lia.
Qed.

(** X9.  A session started from the dictionary view shows the shuffled words
    one after the other: after [n] ratings the card is the one at index [n]
    of the shuffle, and after as many ratings as there are words the session
    is complete.  The store keeps its length. *)
Theorem session_shows_each_card_once
    (rnd : Rng) (words : list Vocabulary.SavedWord) (outcomes : list (Z * bool)) :
  let start := Vocabulary.startReview rnd words Vocabulary.initialReviewState in
  let r := Vocabulary.rateAll outcomes (words, start) in
  Vocabulary.card (snd r) = nth_error (sortRandom rnd words) (length outcomes) /\
  (Vocabulary.card (snd r) = None <-> length words <= length outcomes) /\
  length (fst r) = length words.
Proof.
  intros start r.
  destruct (rateAll_from outcomes words start 0 eq_refl eq_refl) as [H1 [H2 [H3 H4]]].
  fold r in H1, H2, H3, H4. simpl in H3, H4.
  pose proof (Permutation_length (sortRandom_perm rnd words)) as L.
  assert (C : Vocabulary.card (snd r)
              = nth_error (sortRandom rnd words)
                  (Nat.min (length outcomes) (length (sortRandom rnd words) - 0))).
  { rewrite (card_started (snd r) _ H2 H4). now rewrite H3. }
  assert (E : Vocabulary.card (snd r) = nth_error (sortRandom rnd words) (length outcomes)).
  { rewrite C. destruct (Nat.le_gt_cases (length outcomes) (length (sortRandom rnd words))) as [Hle | Hgt].
    - f_equal. lia.
    - replace (Nat.min _ _) with (length (sortRandom rnd words)) by lia.
      transitivity (@None Vocabulary.SavedWord); [|symmetry]; apply nth_error_None; lia. }
  split; [exact E|]. split.
  - rewrite E, nth_error_None. lia.
  - rewrite H1. apply length_map.
Qed.

(** X10.  The index of the current card is not reset when a session starts.
    After a complete session and the return to the dictionary, a second START
    REVIEW in the same view, over a store that has not grown, opens a session
    that is complete at once: no card is shown. *)
Theorem second_session_shows_no_card
    (rnd rnd' : Rng) (words : list Vocabulary.SavedWord) (outcomes : list (Z * bool)) :
  length outcomes = length words ->
  let first := Vocabulary.rateAll outcomes
                 (words, Vocabulary.startReview rnd words Vocabulary.initialReviewState) in
  let second := Vocabulary.startReview rnd' (fst first)
                  (Vocabulary.backToDictionary (snd first)) in
  Vocabulary.currentIdx second = Z.of_nat (length words) /\
  Vocabulary.card second = None /\
  Vocabulary.surfaced second = [].
Proof.
  intros Hlen first second.
  destruct (rateAll_from outcomes words
              (Vocabulary.startReview rnd words Vocabulary.initialReviewState) 0 eq_refl eq_refl)
    as [H1 [H2 [H3 H4]]].
  fold first in H1, H2, H3, H4. simpl in H3, H4.
  pose proof (Permutation_length (sortRandom_perm rnd words)) as L.
  pose proof (Permutation_length (sortRandom_perm rnd' (fst first))) as L'.
  assert (Lf : length (fst first) = length words) by (rewrite H1; apply length_map).
  assert (I : Vocabulary.currentIdx second = Z.of_nat (length words)).
  { unfold second. simpl. rewrite H4. f_equal. lia. }
  split; [exact I|]. split.
  - rewrite (card_started second (length words) eq_refl I).
    apply nth_error_None. unfold second. simpl. lia.
  - unfold Vocabulary.surfaced. rewrite I.
    change (Vocabulary.isQuizMode second) with true. cbv iota.
    destruct (Z.of_nat (length words) <? 0)%Z; [reflexivity|].
    rewrite Nat2Z.id. apply skipn_all2. unfold second. simpl. lia.
Qed.

Lemma second_session_shows_no_card_witness :
  let words := [Sample.saved "id-1" "habitat" 0 0; Sample.saved "id-2" "niche" 0 0] in
  let outcomes := [(100, true); (200, false)]%Z in
  let first := Vocabulary.rateAll outcomes
                 (words, Vocabulary.startReview (Sample.constRng 1) words
                           Vocabulary.initialReviewState) in
  let second := Vocabulary.startReview (Sample.constRng (-1)) (fst first)
                  (Vocabulary.backToDictionary (snd first)) in
  length outcomes = length words /\
  length (Vocabulary.quizWords second) = 2 /\
  Vocabulary.card second = None.
Proof.
  intros words outcomes first second.
  assert (H : length outcomes = length words) by reflexivity.
  split; [exact H | split; [reflexivity|]].
  exact (proj1 (proj2 (second_session_shows_no_card (Sample.constRng 1) (Sample.constRng (-1))
                         words outcomes H))).
Defined.

(** What ratings of cards with distinct identifiers make of the box of a
    word, when every rating presses the same button. *)
Lemma ratedBy_box (s : bool) (cards : list Vocabulary.SavedWord) :
  forall (outcomes : list (Z * bool)) (w : Vocabulary.SavedWord),
  NoDup (map Vocabulary.id cards) ->
  length outcomes = length cards ->
  Forall (fun o => snd o = s) outcomes ->
  Vocabulary.id (Vocabulary.ratedBy cards outcomes w) = Vocabulary.id w /\
  (In (Vocabulary.id w) (map Vocabulary.id cards) ->
     Vocabulary.leitnerBox (Vocabulary.ratedBy cards outcomes w)
     = if s then Z.min (Vocabulary.leitnerBox w + 1) 5 else 0%Z) /\
  (~ In (Vocabulary.id w) (map Vocabulary.id cards) ->
     Vocabulary.ratedBy cards outcomes w = w).
Proof.
  induction cards as [|c cards IH]; intros outcomes w Hnd Hlen Hs.
  - unfold Vocabulary.ratedBy. simpl. repeat split; tauto.
  - destruct outcomes as [|[t s'] outcomes]; [discriminate|].
    assert (Hs1 : s' = s) by (now inversion Hs).
    assert (Hs' : Forall (fun o => snd o = s) outcomes) by (now inversion Hs).
    subst s'. clear Hs.
    assert (Hc : ~ In (Vocabulary.id c) (map Vocabulary.id cards)) by (now inversion Hnd).
    assert (Hnd' : NoDup (map Vocabulary.id cards)) by (now inversion Hnd).
    injection Hlen as Hlen.
    unfold Vocabulary.ratedBy. cbn [combine fold_left fst snd].
    set (w1 := Vocabulary.updateWord t (Vocabulary.id c) s w).
    fold (Vocabulary.ratedBy cards outcomes w1).
    assert (Hid1 : Vocabulary.id w1 = Vocabulary.id w) by apply updateWord_frame.
    destruct (IH outcomes w1 Hnd' Hlen Hs') as [I1 [I2 I3]].
    split; [congruence|]. split.
    + intros [E | Hin].
      * (* the card of this rating *)
        rewrite I3 by (rewrite Hid1, <- E; exact Hc).
        unfold w1. rewrite E. apply updateWord_same_id.
      * (* a later card: this rating does not touch the word *)
        assert (Hne : Vocabulary.id w <> Vocabulary.id c).
        { intros E. apply Hc. now rewrite <- E. }
        rewrite I2 by (now rewrite Hid1). unfold w1.
        now rewrite updateWord_other_id.
    + intros Hnot. simpl in Hnot.
      rewrite I3 by (rewrite Hid1; tauto). unfold w1.
      apply updateWord_other_id. intros E. apply Hnot. now left.
Qed.

(** X11.  In a complete session over words with distinct identifiers in which
    every card is rated with the same button, every word of the store is
    updated exactly once, whatever the shuffle: with EASY each box grows by
    one, capped at 5, and with FORGOT each box becomes 0; the identifiers and
    the order of the store are kept. *)
Theorem complete_session_rates_every_word_once
    (rnd : Rng) (s : bool) (words : list Vocabulary.SavedWord) (outcomes : list (Z * bool)) :
  NoDup (map Vocabulary.id words) ->
  length outcomes = length words ->
  Forall (fun o => snd o = s) outcomes ->
  let final :=
    fst (Vocabulary.rateAll outcomes
           (words, Vocabulary.startReview rnd words Vocabulary.initialReviewState)) in
  map Vocabulary.id final = map Vocabulary.id words /\
  map Vocabulary.leitnerBox final
  = map (fun w => if s then Z.min (Vocabulary.leitnerBox w + 1) 5 else 0%Z) words.
Proof.
  intros Hnd Hlen Hs final.
  destruct (rateAll_from outcomes words
              (Vocabulary.startReview rnd words Vocabulary.initialReviewState) 0 eq_refl eq_refl)
    as [H1 _].
  simpl in H1. unfold final. rewrite H1. clear H1 final.
  pose proof (sortRandom_perm rnd words) as P.
  assert (Hnd' : NoDup (map Vocabulary.id (sortRandom rnd words))).
  { eapply Permutation_NoDup; [|exact Hnd]. apply Permutation_map, Permutation_sym, P. }
  assert (Hlen' : length outcomes = length (sortRandom rnd words))
    by (rewrite Hlen; symmetry; apply Permutation_length, P).
  rewrite !map_map. split; apply map_ext_in; intros w Hw;
    destruct (ratedBy_box s (sortRandom rnd words) outcomes w Hnd' Hlen' Hs) as [I1 [I2 _]].
  - exact I1.
  - apply I2. apply in_map. apply (Permutation_in _ (Permutation_sym P)). exact Hw.
Qed.

Lemma complete_session_rates_every_word_once_witness :
  let words := [Sample.saved "id-1" "habitat" 0 0; Sample.saved "id-2" "niche" 5 0;
                Sample.saved "id-3" "biome" 2 0] in
  let outcomes := [(100, true); (200, true); (300, true)]%Z in
  NoDup (map Vocabulary.id words) /\
  length outcomes = length words /\
  Forall (fun o => snd o = true) outcomes /\
  map Vocabulary.leitnerBox
      (fst (Vocabulary.rateAll outcomes
              (words, Vocabulary.startReview (Sample.constRng 1) words
                        Vocabulary.initialReviewState)))
  = [1; 5; 3]%Z.
Proof.
  intros words outcomes.
  assert (H1 : NoDup (map Vocabulary.id words)).
  { simpl. repeat constructor; simpl; intros H;
      repeat (destruct H as [H | H]; [discriminate H|]); exact H. }
  assert (H2 : length outcomes = length words) by reflexivity.
  assert (H3 : Forall (fun o => snd o = true) outcomes) by (repeat constructor).
  split; [exact H1 | split; [exact H2 | split; [exact H3|]]].
  exact (proj2 (complete_session_rates_every_word_once (Sample.constRng 1) true words
                  outcomes H1 H2 H3)).
Defined.

(** ** The segments of a paragraph *)

Lemma nth_error_mapi_from {A B} (f : A -> nat -> B) (l : list A) : forall j i,
  nth_error (mapi_from j f l) i = option_map (fun x => f x (j + i)) (nth_error l i).
Proof.
  induction l as [|x l IH]; intros j [|i]; simpl; try reflexivity.
  - now rewrite Nat.add_0_r.
  - rewrite IH. destruct (nth_error l i); simpl; [|reflexivity]. f_equal. f_equal. lia.
Qed.

Lemma length_mapi_from {A B} (f : A -> nat -> B) (l : list A) : forall j,
  length (mapi_from j f l) = length l.
Proof. induction l as [|x l IH]; intros j; simpl; [reflexivity | now rewrite IH]. Qed.

(** The segment at index [i] is built from the piece at index [i]. *)
Lemma nth_error_segments (paragraph : str) (i : nat) (item : Tokenizer.Segment) :
  nth_error (Tokenizer.splitParagraphIntoWords paragraph) i = Some item ->
  exists piece,
    nth_error (splitWs paragraph) i = Some piece /\
    Tokenizer.text item = piece /\
    Tokenizer.id item = i /\
    Tokenizer.isWord item = negb (str_eqb (trim piece) []) /\
    Tokenizer.word item = if str_eqb (trim piece) [] then None else Some (cleanWord piece).
Proof.
  unfold Tokenizer.splitParagraphIntoWords, mapi. rewrite nth_error_mapi_from.
  destruct (nth_error (splitWs paragraph) i) as [piece|]; [|discriminate].
  simpl. intros H. injection H as <-. exists piece.
  destruct (str_eqb (trim piece) []); simpl; repeat split.
Qed.

(** X12.  The [id] of a segment is its index in the array, so the identifiers
    of the segments of a paragraph are 0, 1, 2, ... without repetition. *)
Theorem segment_ids_are_indices (paragraph : str) :
  map Tokenizer.id (Tokenizer.splitParagraphIntoWords paragraph)
  = seq 0 (length (Tokenizer.splitParagraphIntoWords paragraph)) /\
  NoDup (map Tokenizer.id (Tokenizer.splitParagraphIntoWords paragraph)).
Proof.
  assert (E : map Tokenizer.id (Tokenizer.splitParagraphIntoWords paragraph)
              = seq 0 (length (Tokenizer.splitParagraphIntoWords paragraph))).
  { apply nth_error_ext. intros i. rewrite nth_error_map.
    destruct (nth_error (Tokenizer.splitParagraphIntoWords paragraph) i) as [item|] eqn:H.
    - destruct (nth_error_segments _ _ _ H) as [_ [_ [_ [Hid _]]]]. simpl. rewrite Hid.
      symmetry. rewrite nth_error_seq.
      assert (i < length (Tokenizer.splitParagraphIntoWords paragraph))
        by (apply nth_error_Some; congruence).
      destruct (Nat.ltb_spec i (length (Tokenizer.splitParagraphIntoWords paragraph)));
        [reflexivity | lia].
    - simpl. symmetry. apply nth_error_None. rewrite length_seq.
      now apply nth_error_None. }
  split; [exact E|]. rewrite E. apply seq_NoDup.
Qed.

(** *** Whitespace *)

Lemma trim_allWs (s : str) : allWs s = true -> trim s = [].
Proof.
  intros H. unfold trim. rewrite dropWhile_all; [reflexivity|].
  apply Forall_forall. now apply forallb_forall.
Qed.

Lemma forallb_rev {A} (p : A -> bool) (l : list A) : forallb p (rev l) = forallb p l.
Proof.
  induction l as [|x l IH]; simpl; [reflexivity|].
  rewrite forallb_app, IH. simpl. rewrite andb_true_r. apply andb_comm.
Qed.

Lemma trim_wsFree (s : str) : wsFree s = true -> trim s = s.
Proof.
  intros H. unfold trim. apply trimmedBy_fix. split; apply dropWhile_fix.
  - destruct s as [|c s]; [exact I|]. simpl in H.
    apply andb_true_iff in H as [H _]. now apply negb_true_iff.
  - unfold wsFree in H. rewrite <- forallb_rev in H.
    destruct (rev s) as [|c r]; [exact I|]. simpl in H.
    apply andb_true_iff in H as [H _]. now apply negb_true_iff.
Qed.

Lemma wsFree_snoc (acc : str) (c : N) :
  wsFree (rev acc) = true -> isWhiteSpace c = false -> wsFree (rev (c :: acc)) = true.
Proof.
  unfold wsFree. intros H Hc. simpl. rewrite forallb_app, H. simpl. now rewrite Hc.
Qed.

Lemma allWs_snoc (acc : str) (c : N) :
  allWs (rev acc) = true -> isWhiteSpace c = true -> allWs (rev (c :: acc)) = true.
Proof.
  unfold allWs. intros H Hc. simpl. rewrite forallb_app, H. simpl. now rewrite Hc.
Qed.

Lemma rev_not_nil {A} (l : list A) : l <> [] -> rev l <> [].
Proof.
  intros H E. apply H. rewrite <- (rev_involutive l), E. reflexivity.
Qed.

Lemma splitWsFrom_alternate (s : str) : forall acc,
  (wsFree (rev acc) = true ->
   forall first, (first = true \/ acc <> []) ->
   alternate true first (splitWsFrom false acc s)) /\
  (allWs (rev acc) = true -> acc <> [] ->
   alternate false false (splitWsFrom true acc s)).
Proof.
  induction s as [|c s IH]; intros acc.
  - split.
    + intros H first _. simpl. tauto.
    + intros H Hne. simpl. repeat split; try assumption. now apply rev_not_nil.
  - split.
    + intros H first Hf. cbn [splitWsFrom].
      destruct (isWhiteSpace c) eqn:Hc.
      * cbn [alternate]. split; [exact H|].
        assert (A : alternate false false (splitWsFrom true [c] s)).
        { apply (IH [c]); [simpl; unfold allWs; simpl; now rewrite Hc | discriminate]. }
        destruct (splitWsFrom true [c] s) as [|q rest] eqn:E; [exact I|].
        split; [|exact A].
        destruct Hf as [Hf | Hf]; [now left | right; now apply rev_not_nil].
      * apply (IH (c :: acc)); [now apply wsFree_snoc | right; discriminate].
    + intros H Hne. cbn [splitWsFrom].
      destruct (isWhiteSpace c) eqn:Hc.
      * apply (IH (c :: acc)); [now apply allWs_snoc | discriminate].
      * cbn [alternate]. split; [exact H|]. split; [now apply rev_not_nil|].
        apply (IH [c]); [simpl; unfold wsFree; simpl; now rewrite Hc | right; discriminate].
Qed.

Lemma splitWs_alternate (s : str) : alternate true true (splitWs s).
Proof. apply (splitWsFrom_alternate s []); [reflexivity | now left]. Qed.

(** What [alternate] says of the piece at each index. *)
Lemma alternate_nth (l : list str) : forall between first i p,
  alternate between first l ->
  nth_error l i = Some p ->
  let even := if between then Nat.even i else Nat.odd i in
  Nat.odd (length l) = between /\
  (even = true ->
     wsFree p = true /\
     (p = [] -> (i = 0 /\ first = true /\ between = true) \/ S i = length l)) /\
  (even = false -> allWs p = true /\ p <> []).
Proof.
  induction l as [|q rest IH]; intros between first i p A Hi; [destruct i; discriminate|].
  cbn [alternate] in A. destruct between.
  - destruct A as [Hq Hrest]. destruct rest as [|q' rest'].
    + destruct i as [|i]; [|destruct i; discriminate]. injection Hi as <-.
      cbv zeta. simpl. repeat split; try assumption; try discriminate. intros _. now right.
    + destruct Hrest as [Hne A']. destruct i as [|i].
      * injection Hi as <-. cbv zeta.
        destruct (IH false false 0 q' A' eq_refl) as [L _].
        split; [simpl length in *; rewrite Nat.odd_succ; rewrite <- Nat.negb_odd; now rewrite L|].
        split; [|discriminate]. intros _. split; [exact Hq|].
        intros E. left. destruct Hne as [Hne | Hne]; [tauto | contradiction].
      * simpl in Hi. destruct (IH false false i p A' Hi) as [L [He Ho]]. cbv zeta in *.
        split; [simpl length in *; rewrite Nat.odd_succ; rewrite <- Nat.negb_odd; now rewrite L|].
        rewrite Nat.even_succ. split.
        -- intros E. destruct (He E) as [W Hemp]. split; [exact W|].
           intros Ep. right. destruct (Hemp Ep) as [[_ [_ F]] | F]; [discriminate|].
           simpl length in *. lia.
        -- intros E. apply Ho. exact E.
  - destruct A as [Hq [Hne A']]. destruct i as [|i].
    + injection Hi as <-. cbv zeta.
      destruct rest as [|q' rest']; [destruct A'|].
      destruct (IH true false 0 q' A' eq_refl) as [L _].
      split; [simpl length in *; rewrite Nat.odd_succ; rewrite <- Nat.negb_odd; now rewrite L|].
      split; [discriminate|]. intros _. split; assumption.
    + simpl in Hi. destruct (IH true false i p A' Hi) as [L [He Ho]]. cbv zeta in *.
      split; [simpl length in *; rewrite Nat.odd_succ; rewrite <- Nat.negb_odd; now rewrite L|].
      rewrite Nat.odd_succ. split.
      * intros E. destruct (He E) as [W Hemp]. split; [exact W|].
        intros Ep. right. destruct (Hemp Ep) as [[_ [F _]] | F]; [discriminate|].
        simpl length in *. lia.
      * intros E. apply Ho. exact E.
Qed.

(** X13.  The segments of a paragraph alternate.  Their number is odd.  A
    segment at an odd index is a non-empty run of whitespace and is not a
    word.  A segment at an even index has no whitespace; it is a word, with
    the key of its text, exactly when it is not empty, and it can be empty
    only as the first or the last segment. *)
Theorem segments_alternate (paragraph : str) (i : nat) (item : Tokenizer.Segment) :
  nth_error (Tokenizer.splitParagraphIntoWords paragraph) i = Some item ->
  Nat.odd (length (Tokenizer.splitParagraphIntoWords paragraph)) = true /\
  (Nat.odd i = true ->
     allWs (Tokenizer.text item) = true /\ Tokenizer.text item <> [] /\
     Tokenizer.isWord item = false /\ Tokenizer.word item = None) /\
  (Nat.even i = true ->
     wsFree (Tokenizer.text item) = true /\
     (Tokenizer.text item <> [] ->
        Tokenizer.isWord item = true /\
        Tokenizer.word item = Some (cleanWord (Tokenizer.text item))) /\
     (Tokenizer.text item = [] ->
        Tokenizer.isWord item = false /\ Tokenizer.word item = None /\
        (i = 0 \/ S i = length (Tokenizer.splitParagraphIntoWords paragraph)))).
Proof.
  intros H. destruct (nth_error_segments _ _ _ H) as [piece [Hp [Ht [_ [Hw Hk]]]]].
  assert (L : length (Tokenizer.splitParagraphIntoWords paragraph) = length (splitWs paragraph))
    by apply length_mapi_from.
  destruct (alternate_nth _ _ _ _ _ (splitWs_alternate paragraph) Hp) as [Hodd [He Ho]].
  cbv zeta in He, Ho. rewrite L, Ht. split; [exact Hodd|]. split.
  - intros Hi. rewrite <- Nat.negb_even in Hi. apply negb_true_iff in Hi.
    destruct (Ho Hi) as [Hall Hne].
    rewrite Hw, Hk, (trim_allWs _ Hall). simpl. tauto.
  - intros Hi. destruct (He Hi) as [Hfree Hemp].
    rewrite Hw, Hk, (trim_wsFree _ Hfree). split; [exact Hfree|]. split.
    + intros Hne. apply str_eqb_neq in Hne. rewrite Hne. tauto.
    + intros ->. simpl. repeat split.
      destruct (Hemp eq_refl) as [[-> _] | E]; [now left | now right].
Qed.

Lemma segments_alternate_witness :
  let paragraph := lit "Bees  vanish. " in
  let item := {| Tokenizer.text := lit "vanish."; Tokenizer.word := Some (lit "vanish");
                 Tokenizer.isWord := true; Tokenizer.id := 2 |} in
  nth_error (Tokenizer.splitParagraphIntoWords paragraph) 2 = Some item /\
  length (Tokenizer.splitParagraphIntoWords paragraph) = 5 /\
  wsFree (Tokenizer.text item) = true.
Proof.
  intros paragraph item.
  assert (H : nth_error (Tokenizer.splitParagraphIntoWords paragraph) 2 = Some item)
    by reflexivity.
  split; [exact H | split; [reflexivity|]].
  exact (proj1 (proj2 (proj2 (segments_alternate paragraph 2 item H)) eq_refl)).
Defined.

(** *** Keys *)

Lemma wsFree_incl (s t : str) : incl s t -> wsFree t = true -> wsFree s = true.
Proof.
  unfold wsFree. intros Hi H. apply forallb_forall. intros c Hc.
  rewrite forallb_forall in H. apply H, Hi, Hc.
Qed.

Lemma stripOuter_ends (s : str) : endsSatisfy isKeyChar (stripOuter s).
Proof.
  destruct (strip_trimmedBy (fun c => negb (isKeyChar c)) s) as [H1 H2].
  fold (stripOuter s) in H1, H2. unfold endsSatisfy.
  apply dropWhile_fix in H1. apply dropWhile_fix in H2.
  split.
  - destruct (stripOuter s); [exact I | now apply negb_false_iff].
  - destruct (rev (stripOuter s)); [exact I | now apply negb_false_iff].
Qed.

Lemma stripPossessive_length (s : str) : length (stripPossessive s) <= length s.
Proof.
  destruct (endsWithPossessive s) eqn:E.
  - pose proof (stripPossessive_shortens s E). lia.
  - now rewrite stripPossessive_keeps.
Qed.

(** The segment at index [i] is built from the piece at index [i]. *)
Lemma keyed_nth_error_segments
    (toLowerCase : str -> str) (paragraph : str) (i : nat) (item : Tokenizer.Segment) :
  nth_error (Keyed.splitParagraphIntoWords toLowerCase paragraph) i = Some item ->
  exists piece,
    nth_error (splitWs paragraph) i = Some piece /\
    Tokenizer.text item = piece /\
    Tokenizer.isWord item = negb (str_eqb (trim piece) []) /\
    Tokenizer.word item
    = if str_eqb (trim piece) [] then None else Some (Keyed.cleanWord toLowerCase piece).
Proof.
  unfold Keyed.splitParagraphIntoWords, mapi. rewrite nth_error_mapi_from.
  destruct (nth_error (splitWs paragraph) i) as [piece|]; [|discriminate].
  simpl. intros H. injection H as <-. exists piece.
  destruct (str_eqb (trim piece) []); simpl; repeat split.
Qed.

(** X14.  With [toLowerCase] the built-in function, whatever its case table:
    a segment that has a key is a word segment without whitespace; its key is
    not longer than its text in lower case, and is empty or starts and ends
    with a character of the class [[\wА-Яа-я]], so that a second removal of
    the outer punctuation leaves it as it is.  Where the built-in function
    satisfies [Keyed.lowerCaseLaws], the key is in lower case and has no
    whitespace. *)
Theorem word_segment_key
    (toLowerCase : str -> str) (paragraph : str) (i : nat) (item : Tokenizer.Segment)
    (k : str) :
  nth_error (Keyed.splitParagraphIntoWords toLowerCase paragraph) i = Some item ->
  Tokenizer.word item = Some k ->
  Tokenizer.isWord item = true /\
  wsFree (Tokenizer.text item) = true /\
  k = Keyed.cleanWord toLowerCase (Tokenizer.text item) /\
  endsSatisfy isKeyChar k /\
  stripOuter k = k /\
  length k <= length (toLowerCase (Tokenizer.text item)) /\
  (Keyed.lowerCaseLaws toLowerCase -> toLowerCase k = k /\ wsFree k = true).
Proof.
  intros H Hk.
  destruct (keyed_nth_error_segments _ _ _ _ H) as [piece [Hp [Ht [Hw Hk']]]].
  rewrite Hk in Hk'. destruct (str_eqb (trim piece) []) eqn:E; [discriminate|].
  injection Hk' as ->. rewrite Hw, Ht. simpl.
  assert (Hfree : wsFree piece = true).
  { destruct (alternate_nth _ _ _ _ _ (splitWs_alternate paragraph) Hp) as [_ [He Ho]].
    cbv zeta in He, Ho. destruct (Nat.even i); [now apply He|].
    destruct (Ho eq_refl) as [Hall _]. rewrite (trim_allWs _ Hall) in E. discriminate. }
  split; [reflexivity|]. split; [exact Hfree|]. split; [reflexivity|].
  split; [apply stripOuter_ends|]. split; [apply stripOuter_idem|]. split.
  - unfold Keyed.cleanWord.
    etransitivity; [apply stripOuter_length | apply stripPossessive_length].
  - intros L. split; [now apply keyed_cleanWord_lower|].
    destruct L as [_ [_ L3]].
    apply wsFree_incl with (toLowerCase piece); [|now apply L3].
    intros c Hc. unfold Keyed.cleanWord in Hc.
    now apply stripOuter_incl, stripPossessive_incl in Hc.
Qed.

Lemma word_segment_key_witness :
  let paragraph := lit "(Darwin's) theory" in
  let item := {| Tokenizer.text := lit "(Darwin's)"; Tokenizer.word := Some (lit "darwin's");
                 Tokenizer.isWord := true; Tokenizer.id := 0 |} in
  nth_error (Keyed.splitParagraphIntoWords Text.toLowerCase paragraph) 0 = Some item /\
  Tokenizer.word item = Some (lit "darwin's") /\
  stripOuter (lit "darwin's") = lit "darwin's" /\
  Text.toLowerCase (lit "darwin's") = lit "darwin's" /\
  wsFree (lit "darwin's") = true.
Proof.
  intros paragraph item.
  assert (H1 : nth_error (Keyed.splitParagraphIntoWords Text.toLowerCase paragraph) 0
               = Some item) by reflexivity.
  assert (H2 : Tokenizer.word item = Some (lit "darwin's")) by reflexivity.
  split; [exact H1 | split; [exact H2|]].
  destruct (word_segment_key Text.toLowerCase paragraph 0 item (lit "darwin's") H1 H2)
    as [_ [_ [_ [_ [S [_ L]]]]]].
  split; [exact S | exact (L toLowerCase_lowerCaseLaws)].
Defined.

(** ** A whole quiz session *)

(** An answer to a question not yet answered, followed by an advance. *)
Lemma answer_then_advance (idx : Z) (st : QuizView.State) (n : Z) (q : QuizItem.t) :
  QuizView.isAnswered st = false ->
  at_ (QuizView.questions st) (QuizView.currentQIndex st) = Some q ->
  exists st1,
    QuizView.act QuizView.Advance (QuizView.act (QuizView.Answer idx) (st, n))
      = (st1, (n + 1)%Z) /\
    QuizView.questions st1 = QuizView.questions st /\
    QuizView.score st1
      = (QuizView.score st + (if idx =? QuizItem.correctAnswerIndex q then 1 else 0))%Z /\
    ((QuizView.currentQIndex st < Z.of_nat (length (QuizView.questions st)) - 1)%Z ->
       QuizView.stage st1 = QuizView.stage st /\
       QuizView.currentQIndex st1 = (QuizView.currentQIndex st + 1)%Z /\
       QuizView.isAnswered st1 = false) /\
    (~ (QuizView.currentQIndex st < Z.of_nat (length (QuizView.questions st)) - 1)%Z ->
       QuizView.stage st1 = QuizView.RESULT /\
       QuizView.currentQIndex st1 = QuizView.currentQIndex st).
Proof.
  intros Ha Hq. simpl. unfold QuizView.handleSelectAnswer. rewrite Ha, Hq.
  eexists. split; [reflexivity|]. unfold QuizView.nextQuestion. simpl.
  destruct (QuizView.currentQIndex st <? Z.of_nat (length (QuizView.questions st)) - 1)%Z
    eqn:E; simpl.
  - apply Z.ltb_lt in E. repeat split; try lia; destruct (idx =? _)%Z; lia.
  - apply Z.ltb_ge in E. repeat split; try lia; destruct (idx =? _)%Z; lia.
Qed.

Lemma rightAnswers_nil (qs : list QuizItem.t) : QuizView.rightAnswers qs [] = 0%Z.
Proof. now destruct qs. Qed.

(** The session from its question [k] on: the answers left are counted, and
    the advance after the last question ends the session. *)
Lemma answerAll_from (answers : list Z) :
  forall (st : QuizView.State) (n : Z) (k : nat),
  QuizView.currentQIndex st = Z.of_nat k ->
  QuizView.isAnswered st = false ->
  k + length answers <= length (QuizView.questions st) ->
  let r := QuizView.run (QuizView.answerAll answers) (st, n) in
  QuizView.questions (fst r) = QuizView.questions st /\
  QuizView.score (fst r)
  = (QuizView.score st + QuizView.rightAnswers (skipn k (QuizView.questions st)) answers)%Z /\
  snd r = (n + Z.of_nat (length answers))%Z /\
  (answers <> [] -> k + length answers = length (QuizView.questions st) ->
     QuizView.stage (fst r) = QuizView.RESULT /\
     QuizView.currentQIndex (fst r) = (Z.of_nat (length (QuizView.questions st)) - 1)%Z) /\
  (k + length answers < length (QuizView.questions st) ->
     QuizView.stage (fst r) = QuizView.stage st /\
     QuizView.currentQIndex (fst r) = Z.of_nat (k + length answers) /\
     QuizView.isAnswered (fst r) = false).
Proof.
  induction answers as [|a answers IH]; intros st n k Hk Ha Hlen; cbv zeta.
  - simpl. rewrite Nat.add_0_r, rightAnswers_nil.
    repeat split; try lia; try assumption; try tauto.
  - simpl length in Hlen.
    destruct (at_in_range (QuizView.questions st) (QuizView.currentQIndex st)) as [q Hq];
      [lia|].
    assert (Hnth : nth_error (QuizView.questions st) k = Some q).
    { unfold at_ in Hq. rewrite Hk in Hq.
      destruct (Z.of_nat k <? 0)%Z; [discriminate|]. now rewrite Nat2Z.id in Hq. }
    change (QuizView.run (QuizView.answerAll (a :: answers)) (st, n))
      with (QuizView.run (QuizView.answerAll answers)
              (QuizView.act QuizView.Advance (QuizView.act (QuizView.Answer a) (st, n)))).
    destruct (answer_then_advance a st n q Ha Hq) as [st1 [E [Q1 [S1 [More Last]]]]].
    rewrite E. rewrite (skipn_nth_error_cons _ _ _ Hnth). cbn [QuizView.rightAnswers].
    destruct (Z_lt_dec (QuizView.currentQIndex st)
                (Z.of_nat (length (QuizView.questions st)) - 1)) as [Hlt | Hge].
    + destruct (More Hlt) as [M1 [M2 M3]].
      destruct (IH st1 (n + 1)%Z (S k)) as [H1 [H2 [H3 [H4 H5]]]];
        [rewrite M2; lia | exact M3 | rewrite Q1; lia|].
      rewrite Q1 in H1, H2, H4, H5. rewrite H1, H2, H3, S1. simpl length.
      split; [reflexivity|]. split; [lia|]. split; [lia|]. split.
      * intros _ Hend. apply H4; [|lia].
        destruct answers; [simpl in Hend; lia | discriminate].
      * intros Hl. destruct H5 as [S5 [I5 A5]]; [lia|].
        split; [congruence|]. split; [rewrite I5; f_equal; lia | exact A5].
    + destruct (Last Hge) as [L1 L2].
      assert (answers = []) by (destruct answers; [reflexivity | simpl in Hlen; lia]).
      subst answers. rewrite rightAnswers_nil. simpl QuizView.run. simpl length.
      cbn [fst snd].
      split; [exact Q1|]. split; [rewrite S1; destruct (a =? _)%Z; lia|]. split; [lia|]. split.
      * intros _ _. split; [exact L1 | lia].
      * intros Hl. simpl in Hl. lia.
Qed.

(** X15.  In a session where every question is answered once and followed by
    an advance, the advance after the last question leads to the result
    stage; the score is then the number of answers that were the
    [correctAnswerIndex] of their question, and every item is counted as
    answered. *)
Theorem complete_quiz_scores_right_answers (st0 : QuizView.State) (answers : list Z) :
  QuizView.questions st0 <> [] ->
  length answers = length (QuizView.questions st0) ->
  let final := QuizView.run (QuizView.answerAll answers) (QuizView.startPlaying st0, 0%Z) in
  QuizView.stage (fst final) = QuizView.RESULT /\
  QuizView.score (fst final) = QuizView.rightAnswers (QuizView.questions st0) answers /\
  QuizView.questions (fst final) = QuizView.questions st0 /\
  snd final = Z.of_nat (length (QuizView.questions st0)).
Proof.
  intros Hne Hlen final.
  destruct (answerAll_from answers (QuizView.startPlaying st0) 0%Z 0)
    as [H1 [H2 [H3 [H4 _]]]]; [reflexivity | reflexivity | simpl; lia|].
  fold final in H1, H2, H3, H4. simpl in H1, H2, H3, H4.
  split; [|split; [exact H2 | split; [exact H1 | rewrite H3; now rewrite Hlen]]].
  apply H4; [|exact Hlen].
  destruct answers; [|discriminate]. destruct (QuizView.questions st0); [contradiction | discriminate].
Qed.

Lemma complete_quiz_scores_right_answers_witness :
  let st0 := QuizView.generateQuiz
               [Sample.passage 1 (Some [Sample.item "habitat" 1; Sample.item "niche" 0])]
               (Sample.constRng (-1))
               {| QuizView.stage := QuizView.SETUP; QuizView.selectedPassageId := 1;
                  QuizView.questions := []; QuizView.currentQIndex := 0;
                  QuizView.score := 0; QuizView.selectedOption := None;
                  QuizView.isAnswered := false; QuizView.startTimeout := false;
                  QuizView.autoNextTimeout := false |} in
  let answers := [1; 3]%Z in
  QuizView.questions st0 <> [] /\
  length answers = length (QuizView.questions st0) /\
  QuizView.score
    (fst (QuizView.run (QuizView.answerAll answers) (QuizView.startPlaying st0, 0%Z))) = 1%Z.
Proof.
  intros st0 answers.
  assert (H1 : QuizView.questions st0 <> []) by discriminate.
  assert (H2 : length answers = length (QuizView.questions st0)) by reflexivity.
  split; [exact H1 | split; [exact H2|]].
  exact (proj1 (proj2 (complete_quiz_scores_right_answers st0 answers H1 H2))).
Defined.

(** X16.  While a quiz that has questions is played, the current question
    exists in every state answers and advances lead to: the view can read
    it, and [handleSelectAnswer] returns without throwing. *)
Theorem current_question_exists
    (st0 : QuizView.State) (acts : list QuizView.Action) (idx : Z) :
  QuizView.questions st0 <> [] ->
  let st := fst (QuizView.run acts (QuizView.startPlaying st0, 0%Z)) in
  (exists q, QuizView.curQ st = Some q) /\
  (exists st', QuizView.handleSelectAnswer idx st = QuizView.Returned st').
Proof.
  intros Hne st.
  pose proof (run_invariant acts _ (startPlaying_invariant st0)) as Inv.
  pose proof (run_questions acts (QuizView.startPlaying st0, 0%Z)) as Q.
  fold st in Q. simpl in Q.
  destruct (QuizView.run acts (QuizView.startPlaying st0, 0%Z)) as [st1 n] eqn:E.
  simpl in st. subst st. unfold QuizView.sessionInvariant in Inv.
  destruct Inv as [_ [Hi [_ Hpos]]].
  assert (Hlen : (0 < Z.of_nat (length (QuizView.questions st1)))%Z).
  { rewrite Q. destruct (QuizView.questions st0); [contradiction | simpl; lia]. }
  destruct (Hpos Hlen) as [Hmax _].
  destruct (at_in_range (QuizView.questions st1) (QuizView.currentQIndex st1)) as [q Hq];
    [lia|].
  split; [now exists q|].
  unfold QuizView.handleSelectAnswer. destruct (QuizView.isAnswered st1); [now eexists|].
  rewrite Hq. now eexists.
Qed.

Lemma current_question_exists_witness :
  let st0 := {| QuizView.stage := QuizView.LOADING; QuizView.selectedPassageId := 1;
                QuizView.questions := [Sample.item "habitat" 1];
                QuizView.currentQIndex := 7; QuizView.score := 3;
                QuizView.selectedOption := None; QuizView.isAnswered := true;
                QuizView.startTimeout := true; QuizView.autoNextTimeout := false |} in
  QuizView.questions st0 <> [] /\
  exists q, QuizView.curQ
              (fst (QuizView.run [QuizView.Advance; QuizView.Answer 1; QuizView.Advance]
                      (QuizView.startPlaying st0, 0%Z))) = Some q.
Proof.
  intros st0.
  assert (H : QuizView.questions st0 <> []) by discriminate.
  split; [exact H|].
  exact (proj1 (current_question_exists st0
                  [QuizView.Advance; QuizView.Answer 1; QuizView.Advance] 0%Z H)).
Defined.




(** X18.  A start on a passage that has a pre-baked quiz shows the loading
    stage with the 500 ms timer pending; when the timer fires the playing
    stage begins at the first question with score 0, nothing selected, and
    the questions are those of the quiz in some order.  A start when no
    passage has the selected identifier changes nothing. *)
Theorem generateQuiz_starts_a_session
    (passages : list Passage.t) (rnd : Rng) (st : QuizView.State) :
  (forall passage quiz,
     find (fun p => (Passage.id p =? QuizView.selectedPassageId st)%Z) passages = Some passage ->
     Passage.offlineQuiz passage = Some quiz ->
     let loading := QuizView.generateQuiz passages rnd st in
     let playing := QuizView.startPlaying loading in
     QuizView.stage loading = QuizView.LOADING /\
     QuizView.startTimeout loading = true /\
     QuizView.stage playing = QuizView.PLAYING /\
     QuizView.currentQIndex playing = 0%Z /\
     QuizView.score playing = 0%Z /\
     QuizView.selectedOption playing = None /\
     QuizView.isAnswered playing = false /\
     QuizView.startTimeout playing = false /\
     Permutation (QuizView.questions playing) quiz) /\
  (find (fun p => (Passage.id p =? QuizView.selectedPassageId st)%Z) passages = None ->
   QuizView.generateQuiz passages rnd st = st).
Proof.
  split.
  - intros passage quiz Hf Hq loading playing.
    unfold playing, loading, QuizView.generateQuiz. rewrite Hf, Hq. simpl.
    repeat split. apply sortRandom_perm.
  - intros Hf. unfold QuizView.generateQuiz. now rewrite Hf.
Qed.

Lemma generateQuiz_starts_a_session_witness :
  let quiz := [Sample.item "habitat" 1; Sample.item "niche" 0] in
  let passages := [Sample.passage 1 None; Sample.passage 2 (Some quiz)] in
  let st := {| QuizView.stage := QuizView.SETUP; QuizView.selectedPassageId := 2;
               QuizView.questions := []; QuizView.currentQIndex := 0;
               QuizView.score := 0; QuizView.selectedOption := None;
               QuizView.isAnswered := false; QuizView.startTimeout := false;
               QuizView.autoNextTimeout := false |} in
  find (fun p => (Passage.id p =? QuizView.selectedPassageId st)%Z) passages
    = Some (Sample.passage 2 (Some quiz)) /\
  Passage.offlineQuiz (Sample.passage 2 (Some quiz)) = Some quiz /\
  Permutation
    (QuizView.questions
       (QuizView.startPlaying (QuizView.generateQuiz passages (Sample.constRng 1) st)))
    quiz.
Proof.
  intros quiz passages st.
  assert (H1 : find (fun p => (Passage.id p =? QuizView.selectedPassageId st)%Z) passages
               = Some (Sample.passage 2 (Some quiz))) by reflexivity.
  assert (H2 : Passage.offlineQuiz (Sample.passage 2 (Some quiz)) = Some quiz) by reflexivity.
  split; [exact H1 | split; [exact H2|]].
  destruct (proj1 (generateQuiz_starts_a_session passages (Sample.constRng 1) st)
              _ _ H1 H2) as [_ [_ [_ [_ [_ [_ [_ [_ P]]]]]]]].
  exact P.
Defined.

(** ** The timers of the quiz *)

Lemma isStage_eq (a b : QuizView.Stage) : QuizView.isStage a b = true <-> a = b.
Proof. destruct a, b; simpl; split; congruence. Qed.

Lemma nextQuestion_componentInvariant (st : QuizView.State) :
  QuizView.stage st = QuizView.PLAYING ->
  QuizView.isAnswered st = true ->
  QuizView.componentInvariant st ->
  QuizView.componentInvariant (QuizView.nextQuestion st).
Proof.
  intros Hs Ha [I1 [I2 [I3 [I4 I5]]]].
  destruct (I5 (or_introl Hs)) as [I5a I5b]. rewrite Ha in I4.
  assert (T : QuizView.startTimeout st = false).
  { destruct (QuizView.startTimeout st); [|reflexivity].
    specialize (I2 eq_refl). congruence. }
  unfold QuizView.componentInvariant, QuizView.nextQuestion.
  destruct (QuizView.currentQIndex st <? _)%Z eqn:E; simpl; rewrite T.
  - apply Z.ltb_lt in E. split; [discriminate|]. split; [discriminate|].
    split; [lia|]. split; [lia|]. intros _. split; [exact I5a|]. intros _. lia.
  - split; [discriminate|]. split; [discriminate|]. split; [exact I3|].
    split; [rewrite Ha; lia|]. intros _. split; [exact I5a | exact I5b].
Qed.

Lemma reachable_invariant (passages : list Passage.t) (st : QuizView.State) :
  QuizView.Reachable passages st -> QuizView.componentInvariant st.
Proof.
  induction 1 as [st Hinit | st e Hreach IH Hen].
  - unfold QuizView.initialState in Hinit. destruct passages; [discriminate|].
    injection Hinit as <-. unfold QuizView.componentInvariant. simpl.
    split; [discriminate|]. split; [discriminate|]. split; [lia|]. split; [lia|].
    intros [F | F]; discriminate.
  - pose proof IH as [I1 [I2 [I3 [I4 I5]]]].
    assert (A : QuizView.isAnswered st = false \/ QuizView.stage st <> QuizView.PLAYING ->
                QuizView.autoNextTimeout st = false).
    { intros Hno. destruct (QuizView.autoNextTimeout st); [|reflexivity].
      destruct I1 as [S1 S2]; [reflexivity|]. destruct Hno; congruence. }
    assert (T : QuizView.stage st <> QuizView.LOADING -> QuizView.startTimeout st = false).
    { intros Hno. destruct (QuizView.startTimeout st); [|reflexivity].
      specialize (I2 eq_refl). contradiction. }
    destruct e as [id' | rnd | | idx | | | ]; simpl in Hen; cbn [QuizView.fire].
    + (* SelectPassage *)
      exact IH.
    + (* ClickStart *)
      apply isStage_eq in Hen. unfold QuizView.generateQuiz.
      destruct (find _ passages) as [p|]; [|exact IH].
      rewrite A in * by (right; congruence). rewrite T in * by congruence.
      unfold QuizView.componentInvariant.
      destruct (Passage.offlineQuiz p); simpl; rewrite ?A, ?T by (right; congruence);
        (split; [discriminate|]); (split; [reflexivity || discriminate|]);
        (split; [exact I3|]); (split; [exact I4|]); intros [F | F]; discriminate.
    + (* StartTimeoutFires *)
      specialize (I2 Hen). unfold QuizView.componentInvariant. simpl.
      rewrite A by (right; congruence).
      split; [discriminate|]. split; [discriminate|].
      split; [lia|]. split; [lia|]. intros _. split; [reflexivity|].
      intros Hne. destruct (QuizView.questions st); [contradiction | simpl length; lia].
    + (* ClickOption *)
      apply andb_true_iff in Hen as [Hs Ha]. apply isStage_eq in Hs.
      apply negb_true_iff in Ha.
      destruct (I5 (or_introl Hs)) as [I5a I5b].
      unfold QuizView.componentInvariant, QuizView.handleSelectAnswer.
      rewrite Ha. rewrite Ha in I4.
      destruct (at_ (QuizView.questions st) (QuizView.currentQIndex st)) as [q|] eqn:Q; simpl.
      * apply at_Some_in_range in Q.
        split; [tauto|]. split; [exact I2|]. split; [exact I3|].
        split; [destruct (idx =? _)%Z; lia|]. intros _. split.
        -- intros E. rewrite E in Q. simpl in Q. lia.
        -- exact I5b.
      * rewrite A by (now left).
        split; [discriminate|]. split; [exact I2|]. split; [exact I3|].
        split; [lia|]. intros _. split; [exact I5a | exact I5b].
    + (* ClickNext *)
      apply andb_true_iff in Hen as [Hs Ha]. apply isStage_eq in Hs.
      now apply nextQuestion_componentInvariant.
    + (* AutoNextFires *)
      destruct (I1 Hen) as [Hs Ha]. now apply nextQuestion_componentInvariant.
    + (* ClickTryAnother *)
      apply isStage_eq in Hen. unfold QuizView.componentInvariant. simpl.
      split; [intros F; destruct (I1 F); congruence|].
      split; [intros F; specialize (I2 F); congruence|].
      split; [exact I3|]. split; [exact I4|]. intros [F | F]; discriminate.
Qed.

(** X19.  In every state of the component, over any number of sessions: the
    3 s timer is pending only in the playing stage on an answered question,
    so it never advances past a question that was not answered, and a new
    one is never started while one is pending; the 500 ms timer is pending
    only in the loading stage; and the result view never shows a score above
    the number of questions. *)
Theorem quiz_timers_and_result (passages : list Passage.t) (st : QuizView.State) :
  QuizView.Reachable passages st ->
  (QuizView.autoNextTimeout st = true ->
     QuizView.stage st = QuizView.PLAYING /\ QuizView.isAnswered st = true) /\
  (forall idx, QuizView.enabled (QuizView.ClickOption idx) st = true ->
     QuizView.autoNextTimeout st = false) /\
  (QuizView.startTimeout st = true -> QuizView.stage st = QuizView.LOADING) /\
  (QuizView.stage st = QuizView.RESULT ->
     0 <= QuizView.score st <= Z.of_nat (length (QuizView.questions st)))%Z.
Proof.
  intros H. destruct (reachable_invariant passages st H) as [I1 [I2 [I3 [I4 I5]]]].
  split; [exact I1|]. split; [|split; [exact I2|]].
  - intros idx Hen. simpl in Hen. apply andb_true_iff in Hen as [_ Ha].
    apply negb_true_iff in Ha.
    destruct (QuizView.autoNextTimeout st); [|reflexivity].
    destruct I1 as [_ S]; [reflexivity | congruence].
  - intros Hs. destruct (I5 (or_intror Hs)) as [I5a I5b].
    destruct (QuizView.questions st) as [|q l] eqn:Q.
    + rewrite I5a by reflexivity. simpl. lia.
    + specialize (I5b ltac:(discriminate)). destruct (QuizView.isAnswered st); lia.
Qed.

Lemma quiz_timers_and_result_witness :
  let passages := [Sample.passage 1 (Some [Sample.item "habitat" 1])] in
  let st := QuizView.fire passages (QuizView.ClickOption 1)
              (QuizView.fire passages QuizView.StartTimeoutFires
                 (QuizView.fire passages (QuizView.ClickStart (Sample.constRng 1))
                    {| QuizView.stage := QuizView.SETUP; QuizView.selectedPassageId := 1;
                       QuizView.questions := []; QuizView.currentQIndex := 0;
                       QuizView.score := 0; QuizView.selectedOption := None;
                       QuizView.isAnswered := false; QuizView.startTimeout := false;
                       QuizView.autoNextTimeout := false |})) in
  QuizView.Reachable passages st /\
  QuizView.autoNextTimeout st = true /\
  QuizView.stage st = QuizView.PLAYING /\ QuizView.isAnswered st = true.
Proof.
  intros passages st.
  assert (R : QuizView.Reachable passages st).
  { unfold st. repeat (apply QuizView.reach_fire; [|reflexivity]).
    apply QuizView.reach_initial. reflexivity. }
  assert (A : QuizView.autoNextTimeout st = true) by reflexivity.
  split; [exact R | split; [exact A|]].
  exact (proj1 (quiz_timers_and_result passages st R) A).
Defined.

(** ** [JSON.stringify] and [JSON.parse] *)

(** *** Strings *)

Lemma hexDigit_hexChar (d : N) : (d < 16)%N -> JSON.hexDigit (JSON.hexChar d) = Some d.
Proof.
  intros H.
  assert (d = 0 \/ d = 1 \/ d = 2 \/ d = 3 \/ d = 4 \/ d = 5 \/ d = 6 \/ d = 7 \/ d = 8
          \/ d = 9 \/ d = 10 \/ d = 11 \/ d = 12 \/ d = 13 \/ d = 14 \/ d = 15)%N as D by lia.
  repeat (destruct D as [-> | D]; [reflexivity|]). now subst.
Qed.

Lemma hex_digits_value (c : N) :
  (c < 0x10000)%N ->
  (c / 4096 < 16 /\ (c / 256) mod 16 < 16 /\ (c / 16) mod 16 < 16 /\ c mod 16 < 16 /\
   ((c / 4096 * 16 + (c / 256) mod 16) * 16 + (c / 16) mod 16) * 16 + c mod 16 = c)%N.
Proof.
  intros H.
  assert (Q2 : (c / 256 = c / 16 / 16)%N) by (now rewrite N.Div0.div_div).
  assert (Q3 : (c / 4096 = c / 16 / 16 / 16)%N) by (now rewrite !N.Div0.div_div).
  rewrite Q3, Q2.
  pose proof (N.div_mod c 16 ltac:(discriminate)) as E1.
  pose proof (N.div_mod (c / 16) 16 ltac:(discriminate)) as E2.
  pose proof (N.div_mod (c / 16 / 16) 16 ltac:(discriminate)) as E3.
  pose proof (N.mod_upper_bound c 16 ltac:(discriminate)) as B1.
  pose proof (N.mod_upper_bound (c / 16) 16 ltac:(discriminate)) as B2.
  pose proof (N.mod_upper_bound (c / 16 / 16) 16 ltac:(discriminate)) as B3.
  generalize dependent (c mod 16)%N. intros r1 E1 B1.
  generalize dependent ((c / 16) mod 16)%N. intros r2 E2 B2.
  generalize dependent ((c / 16 / 16) mod 16)%N. intros r3 E3 B3.
  generalize dependent (c / 16 / 16 / 16)%N. intros q3 _ E3.
  generalize dependent (c / 16 / 16)%N. intros q2 _ E2 E3.
  generalize dependent (c / 16)%N. intros q1 E1 E2.
  repeat split; lia.
Qed.

(** The parser reads an escape by four digits as the code unit it stands
    for. *)
Lemma parseStringBody_unicodeEscape (c : N) (acc t : str) :
  (c < 0x10000)%N ->
  JSON.parseStringBody acc (JSON.unicodeEscape c ++ t) = JSON.parseStringBody (c :: acc) t.
Proof.
  intros H. destruct (hex_digits_value c H) as [H1 [H2 [H3 [H4 E]]]].
  unfold JSON.unicodeEscape. cbn [app JSON.parseStringBody].
  change (0x5C =? 0x22)%N with false. change (0x5C <? 0x20)%N with false.
  change (0x5C =? 0x5C)%N with true. cbv iota.
  change (JSON.simpleEscape 0x75) with (@None N). change (0x75 =? 0x75)%N with true.
  cbv iota. rewrite !hexDigit_hexChar by assumption. now rewrite E.
Qed.

Lemma parseStringBody_raw (c : N) (acc t : str) :
  (c =? 0x22)%N = false -> (c <? 0x20)%N = false -> (c =? 0x5C)%N = false ->
  JSON.parseStringBody acc (c :: t) = JSON.parseStringBody (c :: acc) t.
Proof. intros H1 H2 H3. cbn [JSON.parseStringBody]. now rewrite H1, H2, H3. Qed.

Lemma surrogate_raw (c : N) :
  JSON.isHighSurrogate c = true \/ JSON.isLowSurrogate c = true ->
  (c =? 0x22)%N = false /\ (c <? 0x20)%N = false /\ (c =? 0x5C)%N = false /\ (c < 0x10000)%N.
Proof.
  unfold JSON.isHighSurrogate, JSON.isLowSurrogate, inRange.
  intros [H | H]; apply andb_true_iff in H as [H1 H2];
    apply N.leb_le in H1; apply N.leb_le in H2;
    (split; [apply N.eqb_neq; lia|]); (split; [apply N.ltb_ge; lia|]);
    (split; [apply N.eqb_neq; lia | lia]).
Qed.

(** What [quoteBody] writes, followed by a quotation mark, is read back as
    the string. *)
Lemma parseStringBody_quoteBody (n : nat) : forall (s acc rest : str),
  length s <= n ->
  JSON.parseStringBody acc (JSON.quoteBody s ++ 0x22%N :: rest) = Some (rev acc ++ s, rest).
Proof.
  induction n as [|n IH]; intros s acc rest Hn.
  - destruct s; [|simpl in Hn; lia]. simpl. now rewrite app_nil_r.
  - destruct s as [|c s]; [simpl; now rewrite app_nil_r|]. simpl in Hn.
    assert (Hs : length s <= n) by lia.
    assert (Next : forall (u : N), u = c ->
              JSON.parseStringBody (u :: acc) (JSON.quoteBody s ++ 0x22%N :: rest)
              = Some (rev acc ++ c :: s, rest)).
    { intros u ->. rewrite (IH s (c :: acc) rest Hs). simpl. now rewrite <- app_assoc. }
    cbn [JSON.quoteBody].
    destruct (c =? 0x22)%N eqn:E1; [apply N.eqb_eq in E1; now apply Next|].
    destruct (c =? 0x5C)%N eqn:E2; [apply N.eqb_eq in E2; now apply Next|].
    destruct (c =? 0x8)%N eqn:E3; [apply N.eqb_eq in E3; now apply Next|].
    destruct (c =? 0xC)%N eqn:E4; [apply N.eqb_eq in E4; now apply Next|].
    destruct (c =? 0xA)%N eqn:E5; [apply N.eqb_eq in E5; now apply Next|].
    destruct (c =? 0xD)%N eqn:E6; [apply N.eqb_eq in E6; now apply Next|].
    destruct (c =? 0x9)%N eqn:E7; [apply N.eqb_eq in E7; now apply Next|].
    destruct (c <? 0x20)%N eqn:E8.
    { rewrite <- app_assoc, parseStringBody_unicodeEscape by (apply N.ltb_lt in E8; lia).
      now apply Next. }
    destruct (JSON.isHighSurrogate c) eqn:E9.
    { destruct (surrogate_raw c (or_introl E9)) as [_ [_ [_ Hc]]].
      destruct s as [|d s'].
      - rewrite parseStringBody_unicodeEscape by exact Hc. now apply Next.
      - destruct (JSON.isLowSurrogate d) eqn:E10.
        + destruct (surrogate_raw d (or_intror E10)) as [D1 [D2 [D3 _]]].
          cbn [app]. rewrite (parseStringBody_raw c _ _ E1 E8 E2).
          rewrite (parseStringBody_raw d _ _ D1 D2 D3).
          rewrite (IH s' (d :: c :: acc) rest) by (simpl in Hs; lia).
          simpl. now rewrite <- !app_assoc.
        + rewrite <- app_assoc, parseStringBody_unicodeEscape by exact Hc. now apply Next. }
    destruct (JSON.isLowSurrogate c) eqn:E10.
    { destruct (surrogate_raw c (or_intror E10)) as [_ [_ [_ Hc]]].
      rewrite <- app_assoc, parseStringBody_unicodeEscape by exact Hc. now apply Next. }
    cbn [app]. rewrite (parseStringBody_raw c _ _ E1 E8 E2). now apply Next.
Qed.

Lemma parse_quote (s rest : str) :
  JSON.parseStringBody [] (JSON.quoteBody s ++ 0x22%N :: rest) = Some (s, rest).
Proof. now rewrite (parseStringBody_quoteBody (length s) s [] rest (le_n _)). Qed.

(** *** Numbers *)


Lemma digitsValue_snoc (ds : str) (c : N) :
  JSON.digitsValue (ds ++ [c]) = (JSON.digitsValue ds * 10 + (c - 0x30))%N.
Proof. unfold JSON.digitsValue. now rewrite fold_left_app. Qed.

Lemma isDigit_digit (r : N) : (r < 10)%N -> JSON.isDigit (0x30 + r) = true.
Proof.
  intros H. unfold JSON.isDigit, inRange. apply andb_true_iff.
  split; apply N.leb_le; lia.
Qed.

Lemma digitsBefore_S (fuel : nat) (n : N) (acc : str) :
  JSON.digitsBefore (S fuel) n acc
  = if (n / 10 =? 0)%N then (0x30 + n mod 10)%N :: acc
    else JSON.digitsBefore fuel (n / 10) ((0x30 + n mod 10)%N :: acc).
Proof. reflexivity. Qed.

(** The digits [digitsBefore] writes, when the bound is large enough: at
    least one, all decimal, without a leading zero unless the number is 0,
    and with the number as value. *)
Lemma digitsBefore_spec (fuel : nat) : forall (n : N) (acc : str),
  (n < 2 ^ N.of_nat (S fuel))%N ->
  exists ds,
    JSON.digitsBefore (S fuel) n acc = ds ++ acc /\
    forallb JSON.isDigit ds = true /\
    JSON.digitsValue ds = n /\
    match ds with
    | [] => False
    | d :: rest => (d = 0x30%N -> n = 0%N /\ rest = [])
    end.
Proof.
  induction fuel as [|fuel IH]; intros n acc Hn.
  - assert (n = 0 \/ n = 1)%N as [-> | ->] by (simpl in Hn; lia).
    + exists [0x30%N]. simpl. repeat split; reflexivity.
    + exists [0x31%N]. simpl. repeat split; try reflexivity. discriminate.
  - pose proof (N.mod_upper_bound n 10 ltac:(discriminate)) as Hr.
    pose proof (N.div_mod n 10 ltac:(discriminate)) as Hd.
    rewrite digitsBefore_S. destruct (n / 10 =? 0)%N eqn:E.
    + apply N.eqb_eq in E. exists [(0x30 + n mod 10)%N].
      split; [reflexivity|]. split; [cbn [forallb]; now rewrite (isDigit_digit _ Hr)|].
      split.
      { unfold JSON.digitsValue. cbn [fold_left]. rewrite E in Hd. clear - Hd.
        revert Hd. generalize (n mod 10)%N. intros. lia. }
      intros H0. split; [lia | reflexivity].
    + apply N.eqb_neq in E.
      assert (Hq : (n / 10 < 2 ^ N.of_nat (S fuel))%N).
      { rewrite Nat2N.inj_succ, N.pow_succ_r' in Hn.
        apply N.Div0.div_lt_upper_bound. lia. }
      destruct (IH (n / 10)%N ((0x30 + n mod 10)%N :: acc) Hq) as [ds [E1 [D1 [V1 F1]]]].
      exists (ds ++ [(0x30 + n mod 10)%N]).
      split; [rewrite E1; now rewrite <- app_assoc|].
      split; [rewrite forallb_app, D1; cbn [forallb]; now rewrite (isDigit_digit _ Hr)|].
      split.
      { rewrite digitsValue_snoc, V1. clear - Hd.
        revert Hd. generalize (n / 10)%N, (n mod 10)%N. intros. lia. }
      destruct ds as [|d rest]; [destruct F1|]. simpl.
      intros H0. destruct (F1 H0) as [F _]. contradiction.
Qed.

Lemma decimal_spec (n : N) :
  forallb JSON.isDigit (JSON.decimal n) = true /\
  JSON.digitsValue (JSON.decimal n) = n /\
  match JSON.decimal n with
  | [] => False
  | d :: rest => (d = 0x30%N -> rest = [])
  end.
Proof.
  unfold JSON.decimal.
  destruct (digitsBefore_spec (N.to_nat (N.size n)) n []) as [ds [E [D [V F]]]].
  - rewrite Nat2N.inj_succ, N2Nat.id, N.pow_succ_r'.
    pose proof (N.size_gt n). lia.
  - rewrite E, app_nil_r. split; [exact D|]. split; [exact V|].
    destruct ds; [exact F|]. intros H. now apply F.
Qed.

Lemma decimal_inj (n m : N) : JSON.decimal n = JSON.decimal m -> n = m.
Proof.
  intros H. destruct (decimal_spec n) as [_ [Vn _]], (decimal_spec m) as [_ [Vm _]].
  congruence.
Qed.

Lemma decimal_head_digit (n : N) :
  exists d rest, JSON.decimal n = d :: rest /\ JSON.isDigit d = true.
Proof.
  destruct (decimal_spec n) as [D [_ F]].
  destruct (JSON.decimal n) as [|d rest]; [destruct F|].
  exists d, rest. split; [reflexivity|]. simpl in D. now apply andb_true_iff in D.
Qed.

Lemma numberToString_inj (z1 z2 : Z) :
  JSON.numberToString z1 = JSON.numberToString z2 -> z1 = z2.
Proof.
  unfold JSON.numberToString. intros H.
  destruct (decimal_head_digit (Z.abs_N z1)) as [d1 [r1 [E1 D1]]].
  destruct (decimal_head_digit (Z.abs_N z2)) as [d2 [r2 [E2 D2]]].
  destruct (z1 <? 0)%Z eqn:S1, (z2 <? 0)%Z eqn:S2.
  - injection H as H. apply decimal_inj in H.
    apply Z.ltb_lt in S1, S2. lia.
  - exfalso. rewrite E2 in H. injection H as <- _. discriminate D2.
  - exfalso. rewrite E1 in H. injection H as -> _. discriminate D1.
  - apply decimal_inj in H. apply Z.ltb_ge in S1, S2. lia.
Qed.


Lemma spanDigits_digits (ds rest : str) :
  forallb JSON.isDigit ds = true ->
  match rest with [] => True | c :: _ => JSON.isDigit c = false end ->
  JSON.spanDigits (ds ++ rest) = (ds, rest).
Proof.
  intros D R. induction ds as [|d ds IH]; cbn [app JSON.spanDigits].
  - destruct rest as [|c rest]; [reflexivity|]. cbn [JSON.spanDigits]. now rewrite R.
  - cbn [forallb] in D. apply andb_true_iff in D as [D1 D2]. rewrite D1, (IH D2). reflexivity.
Qed.

Lemma delimited_not_digit (rest : str) :
  JSON.delimited rest -> match rest with [] => True | c :: _ => JSON.isDigit c = false end.
Proof. destruct rest as [|c rest]; [tauto|]. intros [-> | [-> | ->]]; reflexivity. Qed.

Lemma parseNumber_decimal (n : N) (rest : str) :
  JSON.delimited rest ->
  JSON.parseNumber (JSON.decimal n ++ rest) = Some (JSON.decimal n, rest).
Proof.
  intros Hr. destruct (decimal_spec n) as [D [_ F]].
  pose proof (spanDigits_digits _ _ D (delimited_not_digit _ Hr)) as Sp.
  destruct (JSON.decimal n) as [|d ds] eqn:E; [destruct F|].
  assert (Hd : (d =? 0x2D)%N = false).
  { simpl in D. apply andb_true_iff in D as [D1 _]. unfold JSON.isDigit, inRange in D1.
    apply andb_true_iff in D1 as [D1 _]. apply N.leb_le in D1. apply N.eqb_neq. lia. }
  unfold JSON.parseNumber. cbn [app]. rewrite Hd.
  destruct (d =? 0x30)%N eqn:Z0.
  - apply N.eqb_eq in Z0. rewrite (F Z0). simpl.
    destruct rest as [|c rest]; [reflexivity|].
    destruct Hr as [-> | [-> | ->]]; reflexivity.
  - unfold JSON.digits1. cbn [app] in Sp. rewrite Sp.
    destruct rest as [|c rest]; [now rewrite !app_nil_r|].
    destruct Hr as [-> | [-> | ->]]; simpl; now rewrite !app_nil_r.
Qed.

(** A minus sign before a number that has none. *)
Lemma parseNumber_minus (c : N) (t : str) :
  (c =? 0x2D)%N = false ->
  JSON.parseNumber (0x2D%N :: c :: t)
  = match JSON.parseNumber (c :: t) with
    | Some (l, r) => Some (0x2D%N :: l, r)
    | None => None
    end.
Proof.
  intros H. unfold JSON.parseNumber. rewrite H.
  change (0x2D =? 0x2D)%N with true. cbv iota.
  repeat match goal with
         | |- context [match ?x with Some _ => _ | None => _ end] =>
             destruct x as [[? ?]|]
         end; reflexivity.
Qed.

Lemma parseNumber_numberToString (z : Z) (rest : str) :
  JSON.delimited rest ->
  JSON.parseNumber (JSON.numberToString z ++ rest) = Some (JSON.numberToString z, rest).
Proof.
  intros Hr. pose proof (parseNumber_decimal (Z.abs_N z) rest Hr) as P.
  unfold JSON.numberToString. destruct (z <? 0)%Z; [|exact P].
  destruct (decimal_head_digit (Z.abs_N z)) as [d [ds [E D]]].
  rewrite E in P |- *.
  assert (Hd : (d =? 0x2D)%N = false).
  { unfold JSON.isDigit, inRange in D.
    apply andb_true_iff in D as [D1 _]. apply N.leb_le in D1. apply N.eqb_neq. lia. }
  cbn [app] in P |- *. now rewrite (parseNumber_minus d (ds ++ rest) Hd), P.
Qed.

(** *** The bound of the descent *)

(** A larger bound does not change a result that a smaller one gave. *)
Lemma parse_fuel_S (n : nat) :
  (forall s, JSON.parseValue n s <> JSON.OutOfFuel ->
             JSON.parseValue (S n) s = JSON.parseValue n s) /\
  (forall acc s, JSON.parseElements n acc s <> JSON.OutOfFuel ->
                 JSON.parseElements (S n) acc s = JSON.parseElements n acc s) /\
  (forall acc s, JSON.parseMembers n acc s <> JSON.OutOfFuel ->
                 JSON.parseMembers (S n) acc s = JSON.parseMembers n acc s).
Proof.
  induction n as [|n [IHV [IHE IHM]]].
  - repeat split; intros; exfalso; auto.
  - split; [|split].
    + intros s H. rewrite (parseValue_S (S n)). rewrite parseValue_S in H |- *.
      destruct (JSON.skipWs s) as [|c r]; [reflexivity|].
      destruct (c =? 0x5B)%N.
      { destruct (JSON.skipWs r) as [|c' r']; [reflexivity|].
        destruct (c' =? 0x5D)%N; [reflexivity | now apply IHE]. }
      destruct (c =? 0x7B)%N; [|reflexivity].
      destruct (JSON.skipWs r) as [|c' r']; [reflexivity|].
      destruct (c' =? 0x7D)%N; [reflexivity | now apply IHM].
    + intros acc s H. rewrite (parseElements_S (S n)). rewrite parseElements_S in H |- *.
      destruct (JSON.parseValue n s) as [v r| |] eqn:E;
        [| rewrite IHV, E by (rewrite E; discriminate); reflexivity | now destruct H].
      rewrite IHV, E by (rewrite E; discriminate).
      destruct (JSON.skipWs r) as [|c r']; [reflexivity|].
      destruct (c =? 0x2C)%N; [now apply IHE | reflexivity].
    + intros acc s H. rewrite (parseMembers_S (S n)). rewrite parseMembers_S in H |- *.
      destruct (JSON.skipWs s) as [|c r]; [reflexivity|].
      destruct (c =? 0x22)%N; [|reflexivity].
      destruct (JSON.parseStringBody [] r) as [[k r1]|]; [|reflexivity].
      destruct (JSON.skipWs r1) as [|c1 r2]; [reflexivity|].
      destruct (c1 =? 0x3A)%N; [|reflexivity].
      destruct (JSON.parseValue n r2) as [v r3| |] eqn:E;
        [| rewrite IHV, E by (rewrite E; discriminate); reflexivity | now destruct H].
      rewrite IHV, E by (rewrite E; discriminate).
      destruct (JSON.skipWs r3) as [|c3 r4]; [reflexivity|].
      destruct (c3 =? 0x2C)%N; [now apply IHM | reflexivity].
Qed.

Lemma parseValue_fuel_le (n m : nat) (s : str) :
  JSON.parseValue n s <> JSON.OutOfFuel -> n <= m ->
  JSON.parseValue m s = JSON.parseValue n s.
Proof.
  intros H L. induction L as [|m L IH]; [reflexivity|].
  rewrite <- IH. apply parse_fuel_S. now rewrite IH.
Qed.

Lemma parseElements_fuel_le (n m : nat) (acc : list JSON.value) (s : str) :
  JSON.parseElements n acc s <> JSON.OutOfFuel -> n <= m ->
  JSON.parseElements m acc s = JSON.parseElements n acc s.
Proof.
  intros H L. induction L as [|m L IH]; [reflexivity|].
  rewrite <- IH. apply parse_fuel_S. now rewrite IH.
Qed.

Lemma parseMembers_fuel_le (n m : nat) (acc : list (str * JSON.value)) (s : str) :
  JSON.parseMembers n acc s <> JSON.OutOfFuel -> n <= m ->
  JSON.parseMembers m acc s = JSON.parseMembers n acc s.
Proof.
  intros H L. induction L as [|m L IH]; [reflexivity|].
  rewrite <- IH. apply parse_fuel_S. now rewrite IH.
Qed.

Lemma parseValue_Ok_le (n m : nat) (s : str) (v : JSON.value) (r : str) :
  JSON.parseValue n s = JSON.Ok v r -> n <= m -> JSON.parseValue m s = JSON.Ok v r.
Proof.
  intros H L. rewrite (parseValue_fuel_le n m s); [exact H | now rewrite H | exact L].
Qed.

Lemma parseElements_Ok_le (n m : nat) (acc : list JSON.value) (s : str) (v : JSON.value) (r : str) :
  JSON.parseElements n acc s = JSON.Ok v r -> n <= m -> JSON.parseElements m acc s = JSON.Ok v r.
Proof.
  intros H L. rewrite (parseElements_fuel_le n m acc s); [exact H | now rewrite H | exact L].
Qed.

Lemma parseMembers_Ok_le (n m : nat) (acc : list (str * JSON.value)) (s : str)
      (v : JSON.value) (r : str) :
  JSON.parseMembers n acc s = JSON.Ok v r -> n <= m -> JSON.parseMembers m acc s = JSON.Ok v r.
Proof.
  intros H L. rewrite (parseMembers_fuel_le n m acc s); [exact H | now rewrite H | exact L].
Qed.

(** *** Values *)

(** Induction on a value, with the property of the elements of an array and
    of the values of the members of an object at hand. *)
Lemma value_nested_ind (P : JSON.value -> Prop) :
  P JSON.JNull -> (forall b, P (JSON.JBool b)) -> (forall l, P (JSON.JNumber l)) ->
  (forall s, P (JSON.JString s)) ->
  (forall es, Forall P es -> P (JSON.JArray es)) ->
  (forall ms, Forall (fun m => P (snd m)) ms -> P (JSON.JObject ms)) ->
  forall v, P v.
Proof.
  intros Hnull Hbool Hnum Hstr Harr Hobj. fix IH 1. intros [| b | l | s | es | ms].
  - exact Hnull.
  - apply Hbool.
  - apply Hnum.
  - apply Hstr.
  - apply Harr. induction es as [|e es IHes]; constructor; [apply IH | exact IHes].
  - apply Hobj. induction ms as [|m ms IHms]; constructor; [apply IH | exact IHms].
Qed.

Lemma skipWs_start (c : N) (t : str) : JSON.isJsonWs c = false -> JSON.skipWs (c :: t) = c :: t.
Proof. intros H. unfold JSON.skipWs. cbn [dropWhile]. now rewrite H. Qed.

Lemma isDigit_cases (c : N) :
  JSON.isDigit c = true ->
  (c = 0x30 \/ c = 0x31 \/ c = 0x32 \/ c = 0x33 \/ c = 0x34 \/ c = 0x35 \/ c = 0x36 \/
   c = 0x37 \/ c = 0x38 \/ c = 0x39)%N.
Proof.
  unfold JSON.isDigit, inRange. intros H. apply andb_true_iff in H as [H1 H2].
  apply N.leb_le in H1. apply N.leb_le in H2. lia.
Qed.

(** A text that starts like a number is read as one. *)
Lemma parseValue_number (n : nat) (c : N) (t : str) :
  JSON.isDigit c = true \/ c = 0x2D%N ->
  JSON.parseValue (S n) (c :: t) =
  match JSON.parseNumber (c :: t) with
  | Some (l, r) => JSON.Ok (JSON.JNumber l) r
  | None => JSON.SyntaxError
  end.
Proof.
  intros [H | ->]; [|reflexivity].
  apply isDigit_cases in H.
  repeat (destruct H as [-> | H]; [reflexivity|]). now subst.
Qed.

Lemma numberToString_head (z : Z) :
  exists c t, JSON.numberToString z = c :: t /\ (JSON.isDigit c = true \/ c = 0x2D%N).
Proof.
  unfold JSON.numberToString. destruct (z <? 0)%Z.
  - exists 0x2D%N, (JSON.decimal (Z.abs_N z)). split; [reflexivity | now right].
  - destruct (decimal_head_digit (Z.abs_N z)) as [d [t [E D]]].
    exists d, t. split; [exact E | now left].
Qed.

(** The first code unit of the text of a value: no whitespace, and not the
    end of an array. *)
Lemma stringify_head (v : JSON.value) :
  JSON.integral v ->
  exists c t, JSON.stringify v = c :: t /\ JSON.isJsonWs c = false /\ (c =? 0x5D)%N = false.
Proof.
  destruct v as [| [|] | l | s | es | ms]; intros I;
    try (eexists; eexists; split; [reflexivity | split; reflexivity]).
  destruct I as [z ->]. destruct (numberToString_head z) as [c [t [E H]]].
  exists c, t. split; [exact E|].
  destruct H as [H | ->]; [|split; reflexivity].
  apply isDigit_cases in H.
  repeat (destruct H as [-> | H]; [split; reflexivity|]). subst. split; reflexivity.
Qed.

Lemma delimited_comma (t : str) : JSON.delimited (0x2C%N :: t).
Proof. now left. Qed.

Lemma delimited_bracket (t : str) : JSON.delimited (0x5D%N :: t).
Proof. right. now left. Qed.

Lemma delimited_brace (t : str) : JSON.delimited (0x7D%N :: t).
Proof. right. now right. Qed.


Lemma parseElements_joinComma (es : list JSON.value) :
  Forall JSON.readBack es -> es <> [] ->
  forall acc rest,
    exists n, JSON.parseElements n acc (JSON.joinComma (map JSON.stringify es) ++ 0x5D%N :: rest)
              = JSON.Ok (JSON.JArray (rev acc ++ es)) rest.
Proof.
  induction 1 as [|e es He Hes IH]; intros Hne acc rest; [now destruct Hne|].
  destruct es as [|e2 es].
  - destruct (He (0x5D%N :: rest) (delimited_bracket _)) as [n Hn].
    exists (S n). rewrite parseElements_S. cbn [map JSON.joinComma]. rewrite Hn.
    reflexivity.
  - destruct (IH ltac:(discriminate) (e :: acc) rest) as [n2 H2].
    set (J := JSON.joinComma (map JSON.stringify (e2 :: es))) in *.
    destruct (He (0x2C%N :: J ++ 0x5D%N :: rest) (delimited_comma _)) as [n1 H1].
    exists (S (Nat.max n1 n2)). rewrite parseElements_S.
    change (JSON.joinComma (map JSON.stringify (e :: e2 :: es)))
      with (JSON.stringify e ++ 0x2C%N :: J).
    rewrite <- app_assoc. cbn [app].
    rewrite (parseValue_Ok_le _ _ _ _ _ H1 (Nat.le_max_l _ _)).
    change (JSON.skipWs (0x2C%N :: J ++ 0x5D%N :: rest)) with (0x2C%N :: J ++ 0x5D%N :: rest).
    change (0x2C =? 0x2C)%N with true. cbv iota.
    rewrite (parseElements_Ok_le _ _ _ _ _ _ H2 (Nat.le_max_r _ _)).
    cbn [rev]. now rewrite <- app_assoc.
Qed.


Lemma memberText_app (m : str * JSON.value) (t : str) :
  JSON.memberText m ++ t
  = 0x22%N :: JSON.quoteBody (fst m) ++ 0x22%N :: 0x3A%N :: JSON.stringify (snd m) ++ t.
Proof.
  unfold JSON.memberText, JSON.quote. cbn [app]. now rewrite <- !app_assoc.
Qed.

(** A member: its key, a colon and its value. *)
Lemma parseMembers_member (n : nat) (acc : list (str * JSON.value)) (m : str * JSON.value)
      (t : str) :
  JSON.parseMembers (S n) acc (JSON.memberText m ++ t)
  = match JSON.parseValue n (JSON.stringify (snd m) ++ t) with
    | JSON.Ok v r3 =>
        match JSON.skipWs r3 with
        | c3 :: r4 =>
            if (c3 =? 0x2C)%N then JSON.parseMembers n ((fst m, v) :: acc) r4
            else if (c3 =? 0x7D)%N
                 then JSON.Ok (JSON.JObject (rev ((fst m, v) :: acc))) r4
                 else JSON.SyntaxError
        | [] => JSON.SyntaxError
        end
    | JSON.SyntaxError => JSON.SyntaxError
    | JSON.OutOfFuel => JSON.OutOfFuel
    end.
Proof.
  rewrite parseMembers_S, memberText_app.
  change (JSON.skipWs (0x22%N :: ?x)) with (0x22%N :: x).
  change (0x22 =? 0x22)%N with true. cbv iota.
  rewrite parse_quote. reflexivity.
Qed.

Lemma parseMembers_joinComma (ms : list (str * JSON.value)) :
  Forall (fun m => JSON.readBack (snd m)) ms -> ms <> [] ->
  forall acc rest,
    exists n, JSON.parseMembers n acc (JSON.joinComma (map JSON.memberText ms) ++ 0x7D%N :: rest)
              = JSON.Ok (JSON.JObject (rev acc ++ ms)) rest.
Proof.
  induction 1 as [|m ms Hm Hms IH]; intros Hne acc rest; [now destruct Hne|].
  destruct ms as [|m2 ms].
  - destruct (Hm (0x7D%N :: rest) (delimited_brace _)) as [n Hn].
    exists (S n). cbn [map JSON.joinComma]. rewrite parseMembers_member, Hn.
    destruct m; reflexivity.
  - destruct (IH ltac:(discriminate) (m :: acc) rest) as [n2 H2].
    set (J := JSON.joinComma (map JSON.memberText (m2 :: ms))) in *.
    destruct (Hm (0x2C%N :: J ++ 0x7D%N :: rest) (delimited_comma _)) as [n1 H1].
    exists (S (Nat.max n1 n2)).
    change (JSON.joinComma (map JSON.memberText (m :: m2 :: ms)))
      with (JSON.memberText m ++ 0x2C%N :: J).
    rewrite <- app_assoc. cbn [app]. rewrite parseMembers_member.
    rewrite (parseValue_Ok_le _ _ _ _ _ H1 (Nat.le_max_l _ _)).
    change (JSON.skipWs (0x2C%N :: J ++ 0x7D%N :: rest)) with (0x2C%N :: J ++ 0x7D%N :: rest).
    change (0x2C =? 0x2C)%N with true. cbv iota.
    destruct m as [k v]. cbn [fst snd].
    rewrite (parseMembers_Ok_le _ _ _ _ _ _ H2 (Nat.le_max_r _ _)).
    cbn [rev]. now rewrite <- app_assoc.
Qed.

Lemma integral_elements (es : list JSON.value) :
  JSON.integral (JSON.JArray es) <-> Forall JSON.integral es.
Proof.
  cbn [JSON.integral]. induction es as [|e es IH]; cbn [fold_right].
  - split; [constructor | exact (fun _ => I)].
  - split.
    + intros [H1 H2]. constructor; [exact H1 | now apply IH].
    + intros H. inversion H; subst. split; [assumption | now apply IH].
Qed.

Lemma integral_members (ms : list (str * JSON.value)) :
  JSON.integral (JSON.JObject ms) <-> Forall (fun m => JSON.integral (snd m)) ms.
Proof.
  cbn [JSON.integral]. induction ms as [|m ms IH]; cbn [fold_right].
  - split; [constructor | exact (fun _ => I)].
  - split.
    + intros [H1 H2]. constructor; [exact H1 | now apply IH].
    + intros H. inversion H; subst. split; [assumption | now apply IH].
Qed.

Lemma Forall_modus_ponens {A : Type} (P Q : A -> Prop) (l : list A) :
  Forall (fun x => P x -> Q x) l -> Forall P l -> Forall Q l.
Proof.
  induction 1 as [|x l Hx Hl IH]; intros H; [constructor|].
  inversion H; subst. constructor; auto.
Qed.

Lemma stringify_readBack : forall v, JSON.integral v -> JSON.readBack v.
Proof.
  induction v as [| b | l | s | es IH | ms IH] using value_nested_ind; intros I rest Hr.
  - exists 1. reflexivity.
  - exists 1. destruct b; reflexivity.
  - destruct I as [z ->]. exists 1. cbn [JSON.stringify].
    destruct (numberToString_head z) as [c [t [E H]]].
    pose proof (parseNumber_numberToString z rest Hr) as P.
    rewrite E in P |- *. cbn [app] in P |- *.
    now rewrite (parseValue_number 0 c (t ++ rest) H), P.
  - exists 1. cbn [JSON.stringify]. unfold JSON.quote. cbn [app]. rewrite <- app_assoc.
    cbn [app]. rewrite parseValue_S.
    change (JSON.skipWs (0x22%N :: ?x)) with (0x22%N :: x).
    change (0x22 =? 0x5B)%N with false. change (0x22 =? 0x7B)%N with false. cbv iota.
    unfold JSON.parseScalar. change (0x22 =? 0x22)%N with true. cbv iota.
    now rewrite parse_quote.
  - apply integral_elements in I. pose proof (Forall_modus_ponens _ _ _ IH I) as R.
    destruct es as [|e es]; [exists 1; reflexivity|].
    destruct (parseElements_joinComma (e :: es) R ltac:(discriminate) [] rest) as [n Hn].
    exists (S n). cbn [JSON.stringify]. cbn [app]. rewrite <- app_assoc. cbn [app].
    rewrite parseValue_S.
    change (JSON.skipWs (0x5B%N :: ?x)) with (0x5B%N :: x).
    change (0x5B =? 0x5B)%N with true. cbv iota.
    inversion I as [|e' es' Ie Ies]; subst.
    destruct (stringify_head e Ie) as [c [t [E [W B]]]].
    assert (Hd : exists t', JSON.joinComma (map JSON.stringify (e :: es)) ++ 0x5D%N :: rest
                            = c :: t').
    { cbn [map JSON.joinComma]. rewrite E. destruct (map JSON.stringify es); eexists; reflexivity. }
    destruct Hd as [t' Hd]. rewrite Hd in Hn |- *.
    rewrite (skipWs_start c t' W), B. exact Hn.
  - apply integral_members in I. pose proof (Forall_modus_ponens _ _ _ IH I) as R.
    destruct ms as [|m ms]; [exists 1; reflexivity|].
    destruct (parseMembers_joinComma (m :: ms) R ltac:(discriminate) [] rest) as [n Hn].
    exists (S n). cbn [JSON.stringify]. cbn [app]. rewrite <- app_assoc. cbn [app].
    rewrite parseValue_S.
    change (JSON.skipWs (0x7B%N :: ?x)) with (0x7B%N :: x).
    change (0x7B =? 0x5B)%N with false. change (0x7B =? 0x7B)%N with true. cbv iota.
    change (fun m0 : str * JSON.value => JSON.quote (fst m0) ++ 0x3A%N :: JSON.stringify (snd m0))
      with JSON.memberText.
    destruct ms; exact Hn.
Qed.

(** [JSON.parse] undoes [JSON.stringify]. *)
Lemma parse_stringify (v : JSON.value) :
  JSON.integral v -> JSON.parse (JSON.stringify v) = Some v.
Proof.
  intros Hv. destruct (stringify_readBack v Hv [] I) as [n Hn].
  rewrite app_nil_r in Hn. unfold JSON.parse.
  set (text := JSON.stringify v) in *.
  set (m := Nat.max n (JSON.fuelFor text)).
  assert (E : JSON.parseValue (JSON.fuelFor text) text = JSON.Ok v []).
  { rewrite <- (parseValue_fuel_le (JSON.fuelFor text) m text
                  (parse_fuel_enough text) (Nat.le_max_r _ _)).
    exact (parseValue_Ok_le _ _ _ _ _ Hn (Nat.le_max_l _ _)). }
  now rewrite E.
Qed.

(** ** Saving and loading the store (lines 43-50) *)

Lemma integral_jsonNumber (n : option Z) : JSON.integral (App.jsonNumber n).
Proof. destruct n as [z|]; [now exists z | exact I]. Qed.

Lemma integral_strings (l : list str) : JSON.integral (JSON.JArray (map JSON.JString l)).
Proof. apply integral_elements. induction l; constructor; [exact I | assumption]. Qed.

Lemma integral_wordToJSON (w : Vocabulary.SavedWord) : JSON.integral (App.wordToJSON w).
Proof.
  unfold App.wordToJSON. apply integral_members.
  repeat first [ apply Forall_app; split | apply Forall_cons | apply Forall_nil
               | apply integral_jsonNumber | exact I ].
  - destruct (Vocabulary.definition w); repeat constructor.
  - destruct (Vocabulary.synonyms w) as [l|]; [|constructor].
    constructor; [apply integral_strings | constructor].
Qed.

Lemma integral_toJSON (ws : list Vocabulary.SavedWord) : JSON.integral (App.toJSON ws).
Proof.
  unfold App.toJSON. apply integral_elements.
  induction ws; constructor; [apply integral_wordToJSON | assumption].
Qed.

Lemma map_injective {A B : Type} (f : A -> B) :
  (forall x y, f x = f y -> x = y) -> forall l1 l2, map f l1 = map f l2 -> l1 = l2.
Proof.
  intros Hf. induction l1 as [|x l1 IH]; intros [|y l2] H; try discriminate; [reflexivity|].
  injection H as H1 H2. f_equal; [now apply Hf | now apply IH].
Qed.

Lemma jsonNumber_inj (n m : option Z) : App.jsonNumber n = App.jsonNumber m -> n = m.
Proof.
  destruct n as [a|], m as [b|]; try discriminate; [|reflexivity].
  intros H. injection H as H. f_equal. now apply numberToString_inj.
Qed.

(** Two words with the same JSON value are the same word. *)
Lemma wordToJSON_inj (w1 w2 : Vocabulary.SavedWord) :
  App.wordToJSON w1 = App.wordToJSON w2 -> w1 = w2.
Proof.
  destruct w1 as [i1 k1 t1 c1 d1 s1 ts1 b1 n1], w2 as [i2 k2 t2 c2 d2 s2 ts2 b2 n2].
  unfold App.wordToJSON.
  cbn [Vocabulary.id Vocabulary.word Vocabulary.translation Vocabulary.context
       Vocabulary.definition Vocabulary.synonyms Vocabulary.timestamp
       Vocabulary.leitnerBox Vocabulary.nextReview].
  intros H.
  destruct d1 as [d1|], d2 as [d2|], s1 as [s1|], s2 as [s2|]; cbn [app] in H;
    try (exfalso; cbv -[JSON.numberToString] in H; discriminate H);
    injection H; intros;
    repeat match goal with
           | E : JSON.numberToString _ = JSON.numberToString _ |- _ =>
               apply numberToString_inj in E
           | E : App.jsonNumber _ = App.jsonNumber _ |- _ => apply jsonNumber_inj in E
           | E : map JSON.JString _ = map JSON.JString _ |- _ =>
               apply (map_injective JSON.JString) in E;
               [|intros ? ? Hx; now injection Hx]
           end;
    subst; reflexivity.
Qed.

Lemma persist_lookup (ws : list Vocabulary.SavedWord) (localStorage : App.Storage) :
  App.persist ws localStorage App.storageKey = Some (JSON.stringify (App.toJSON ws)).
Proof. unfold App.persist, App.setItem. now rewrite str_eqb_refl. Qed.

(** X20.  What the application saves it loads again.  After the effect of
    lines 48-50 has written the store, whatever the storage held before, the
    initializer of lines 43-46 does not throw: it returns the array of the
    saved words, in their order, each with its properties as they were
    written, a [nextReview] that is [NaN] as [null]. *)
Theorem saved_store_loads_again
        (savedWords : list Vocabulary.SavedWord) (localStorage : App.Storage) :
  App.initialSavedWords (App.persist savedWords localStorage)
  = App.Returns (App.toJSON savedWords).
Proof.
  unfold App.initialSavedWords. rewrite persist_lookup.
  rewrite (parse_stringify _ (integral_toJSON savedWords)).
  destruct savedWords; reflexivity.
Qed.

(** X21.  The text written under the key of the application determines the
    store: two stores are saved as the same text exactly when they hold the
    same words in the same order, whatever else the storage holds. *)
Theorem saved_text_determines_store
        (ws1 ws2 : list Vocabulary.SavedWord) (st1 st2 : App.Storage) :
  App.persist ws1 st1 App.storageKey = App.persist ws2 st2 App.storageKey <-> ws1 = ws2.
Proof.
  rewrite !persist_lookup. split; [|now intros ->].
  intros H.
  assert (E : JSON.parse (JSON.stringify (App.toJSON ws1))
              = JSON.parse (JSON.stringify (App.toJSON ws2))) by (f_equal; congruence).
  rewrite !parse_stringify in E by apply integral_toJSON.
  unfold App.toJSON in E. apply (map_injective _ wordToJSON_inj). congruence.
Qed.
